(** * qlbridge execution core: values, projection and the naive hash join

    A shallow embedding of [value/value.go], [exec/projection.go] and
    [exec/join.go].  Go maps are [gmap]s, slices are lists, [int] and
    [int64] are [Z] with the wrap-around written out, [string] is a byte
    string.  An interface value that may be [nil] is an [option].  A
    run-time panic is a [None] result of the function that panics.
    Goroutines and channels are a step function driven by an explicit
    scheduler choice. *)

From Stdlib Require Import ZArith String Ascii List Bool Lia.
From Stdlib Require Import Decimal DecimalString DecimalZ DecimalPos SpecFloat QArith.
From stdpp Require Import gmap strings list fin_maps.

Open Scope Z_scope.

(** ** Host language: machine integers, floats, [strconv], [time] *)

Module golang.

(** [int64] arithmetic wraps modulo [2^64] into the signed range. *)
Definition int64_min : Z := - 2 ^ 63.
Definition int64_max : Z := 2 ^ 63 - 1.
Definition int64_wrap (z : Z) : Z := (z + 2 ^ 63) mod 2 ^ 64 - 2 ^ 63.

(** [uint64] arithmetic wraps modulo [2^64]. *)
Definition uint64_wrap (z : Z) : Z := z mod 2 ^ 64.

(** The [/] operator on [int64]: the quotient truncated toward zero. *)
Definition int64_quo (a b : Z) : Z := int64_wrap (Z.quot a b).

(** [float64] is IEEE 754 binary64. *)
Definition float64 : Type := spec_float.

(** The conversion [float64(i)] of an integer: round to nearest, ties to
    even. *)
Definition float64_of_int64 (i : Z) : float64 := binary_normalize 53 1024 i 0 false.

(** The rational a finite [float64] denotes. *)
Definition float64_toQ (f : float64) : option Q :=
  match f with
  | S754_zero _ => Some 0%Q
  | S754_finite s m e =>
      let mq := inject_Z (if s then Z.neg m else Z.pos m) in
      Some (if 0 <=? e then mq * inject_Z (2 ^ e) else mq / inject_Z (2 ^ (- e)))%Q
  | _ => None
  end.

(** [strconv.FormatInt(i, 10)]. *)
Definition FormatInt10 (i : Z) : string := NilZero.string_of_int (Z.to_int i).

(** [strconv.FormatBool]. *)
Definition FormatBool (b : bool) : string := if b then "true"%string else "false"%string.

(** [strings.Join]. *)
Definition Join (elems : list string) (sep : string) : string := String.concat sep elems.

(** [string(byte(0))]: the one-byte string holding NUL. *)
Definition NUL : string := String (ascii_of_nat 0) EmptyString.

(** A [time.Time], as the instant its accessors expose: whole seconds since
    the Unix epoch and the nanoseconds within that second. *)
Record Time : Type := mkTime { unixSec : Z; nsec : Z }.

(** [t.UnixNano()]: computed in [int64]. *)
Definition UnixNano (t : Time) : Z := int64_wrap (unixSec t * 1000000000 + nsec t).

(** [t.IsZero()]: January 1, year 1, 00:00:00 UTC. *)
Definition IsZero (t : Time) : bool := (unixSec t =? -62135596800) && (nsec t =? 0).

(** What the core takes from the host without looking inside: the payload
    of an [interface{}] of a type the core does not know, and the
    formatting routines of [strconv] and [fmt] whose output the spec leaves
    open. *)
Class Host : Type := {
  Any : Type;
  FormatFloat : float64 -> string;
  Sprintf_v_MapInt : gmap string Z -> string;
  Sprintf_v_Any : Any -> string;
}.

End golang.

(** ** value/value.go *)

Module value.
Import golang.

Inductive ValueType : Set :=
| NilType | ErrorType | UnknownType | NumberType | IntType | BoolType
| TimeType | ByteSliceType | StringType | StringsType | MapValueType
| MapIntType | MapStringType | MapFloatType | SliceValueType | StructType.

(** The numeric tags. *)
Definition ValueType_tag (m : ValueType) : Z :=
  match m with
  | NilType => 0 | ErrorType => 1 | UnknownType => 2
  | NumberType => 10 | IntType => 11 | BoolType => 12 | TimeType => 13
  | ByteSliceType => 14 | StringType => 20 | StringsType => 21
  | MapValueType => 30 | MapIntType => 31 | MapStringType => 32
  | MapFloatType => 33 | SliceValueType => 40 | StructType => 50
  end.

(** [ValueType.String], on the [uint8] a [ValueType] is. *)
Definition ValueType_String (m : Z) : string :=
  match m with
  | 0 => "nil" | 1 => "error" | 2 => "unknown"
  | 10 => "number" | 11 => "int" | 12 => "bool" | 13 => "time"
  | 14 => "[]byte" | 20 => "string" | 21 => "[]string"
  | 30 => "map[string]value" | 31 => "map[string]int" | 32 => "map[string]string"
  | 33 => "map[string]float" | 40 => "[]value" | 50 => "struct"
  | _ => "invalid"
  end%string.

Section WithHost.
Context `{Host}.

(** The types that implement the [Value] interface.  The cached
    [reflect.Value] of each struct is not kept. *)
Inductive Value : Type :=
| NumberValue (V : float64)
| IntValue (V : Z)
| BoolValue (V : bool)
| StringValue (V : string)
| StringsValue (V : list string)
| MapIntValue (V : gmap string Z)
| StructValue (V : Any)
| TimeValue (V : Time)
| ErrorValue (V : string)
| NilValue.

Definition NewNumberValue (v : float64) : Value := NumberValue v.
Definition NewIntValue (v : Z) : Value := IntValue v.
Definition NewBoolValue (v : bool) : Value := BoolValue v.
Definition NewStringValue (v : string) : Value := StringValue v.
Definition NewStringsValue (v : list string) : Value := StringsValue v.
Definition NewMapIntValue (v : gmap string Z) : Value := MapIntValue v.
Definition NewStructValue (v : Any) : Value := StructValue v.
Definition NewTimeValue (t : Time) : Value := TimeValue t.
Definition NewErrorValue (v : string) : Value := ErrorValue v.
Definition NewNilValue : Value := NilValue.

Definition NilValueVal : Value := NewNilValue.
Definition BoolValueTrue : Value := NewBoolValue true.
Definition BoolValueFalse : Value := NewBoolValue false.

(** [TimeValue.Int]. *)
Definition TimeValue_Int (V : Time) : Z := int64_quo (UnixNano V) 1000000.

(** [TimeValue.Float]. *)
Definition TimeValue_Float (V : Time) : float64 :=
  float64_of_int64 (int64_quo (UnixNano V) 1000000).

(** [TimeValue.ToString]. *)
Definition TimeValue_ToString (V : Time) : string := FormatInt10 (TimeValue_Int V).

Definition Nil (m : Value) : bool :=
  match m with
  | NumberValue _ | IntValue _ | BoolValue _ => false
  | StringValue V => (String.length V =? 0)%nat
  | StringsValue V => (length V =? 0)%nat
  | MapIntValue V => (size V =? 0)%nat
  | StructValue _ => false
  | TimeValue V => IsZero V
  | ErrorValue _ => false
  | NilValue => true
  end.

Definition Err (m : Value) : bool :=
  match m with
  | ErrorValue _ => true
  | _ => false
  end.

Definition Type_ (m : Value) : ValueType :=
  match m with
  | NumberValue _ => NumberType
  | IntValue _ => IntType
  | BoolValue _ => BoolType
  | StringValue _ => StringType
  | StringsValue _ => StringsType
  | MapIntValue _ => MapIntType
  | StructValue _ => StructType
  | TimeValue _ => TimeType
  | ErrorValue _ => ErrorType
  | NilValue => NilType
  end.

Definition ToString (m : Value) : string :=
  match m with
  | NumberValue V => FormatFloat V
  | IntValue V => FormatInt10 V
  | BoolValue V => FormatBool V
  | StringValue V => V
  | StringsValue V => Join V ","
  | MapIntValue V => Sprintf_v_MapInt V
  | StructValue V => Sprintf_v_Any V
  | TimeValue V => TimeValue_ToString V
  | ErrorValue _ => EmptyString
  | NilValue => EmptyString
  end.

(** A [Value] interface variable: [None] is the [nil] interface. *)
Definition IValue : Type := option Value.

(** What an [interface{}] (a [driver.Value]) handed to [NewValue] can hold. *)
Inductive Raw : Type :=
| RawNil
| RawValue (val : Value)
| RawFloat64 (val : float64)
| RawFloat32 (val : float64)
| RawInt (val : Z)
| RawInt32 (val : Z)
| RawInt64 (val : Z)
| RawString (val : string)
| RawStrings (val : list string)
| RawBool (val : bool)
| RawTime (val : Time)
| RawTimePtr (val : option Time)
| RawMapInt64 (val : gmap string Z)
| RawMapInt (val : gmap string Z)
| RawOther (val : Any).

(** [NewValue].  A [float32] is carried as the [float64] it widens to and
    an [int] or [int32] as the [int64] it converts to.  Dereferencing a nil
    [*time.Time] panics.  The diagnostic logged for an unknown type is not
    kept. *)
Definition NewValue (goVal : Raw) : option Value :=
  match goVal with
  | RawNil => Some NilValueVal
  | RawValue val => Some val
  | RawFloat64 val => Some (NewNumberValue val)
  | RawFloat32 val => Some (NewNumberValue val)
  | RawInt val => Some (NewIntValue val)
  | RawInt32 val => Some (NewIntValue val)
  | RawInt64 val => Some (NewIntValue val)
  | RawString val => Some (NewStringValue val)
  | RawStrings val => Some (NewStringsValue val)
  | RawBool val => Some (NewBoolValue val)
  | RawTime val => Some (NewTimeValue val)
  | RawTimePtr (Some val) => Some (NewTimeValue val)
  | RawTimePtr None => None
  | RawMapInt64 val => Some (NewMapIntValue val)
  | RawMapInt val => Some (NewMapIntValue val)
  | RawOther _ => Some NilValueVal
  end.

(** *** The rest of value.go *)

(** [IntValue.Float], [IntValue.NumberValue] and [IntValue.Int]. *)
Definition IntValue_Float (V : Z) : float64 := float64_of_int64 V.
Definition IntValue_NumberValue (V : Z) : Value := NewNumberValue (float64_of_int64 V).
Definition IntValue_Int (V : Z) : Z := V.

(** [time.Time{}], the zero time, and [TimeZeroValue]. *)
Definition zeroTime : Time := {| unixSec := -62135596800; nsec := 0 |}.
Definition TimeZeroValue : Value := NewTimeValue zeroTime.

(** The methods of [StringsValue], on its slice [V].  [Append] has a
    pointer receiver: it returns the slice the value then holds.  A
    [map[string]struct{}] is a set. *)
Definition StringsValue_Append (sv : string) (V : list string) : list string := V ++ [sv].
Definition StringsValue_Len (V : list string) : Z := Z.of_nat (length V).
Definition StringsValue_Strings (V : list string) : list string := V.
Definition StringsValue_Set (V : list string) : gset string :=
  foldl (fun setvals sv => {[sv]} ∪ setvals) ∅ V.

(** The concrete types [ValueTypeFromRT] is asked about: the structs of this
    package, the [Value] interface type itself, a pointer to a type, and
    any other type, known by its name. *)
Inductive GoType : Set :=
| RT_NilValue | RT_NumberValue | RT_IntValue | RT_TimeValue | RT_BoolValue
| RT_StringValue | RT_StringsValue | RT_MapIntValue | RT_SliceValue
| RT_StructValue | RT_ErrorValue
| RT_Value
| RT_ptr (elem : GoType)
| RT_other (name : string).

(** The struct type of a [Value]. *)
Definition StructTypeOf (m : Value) : GoType :=
  match m with
  | NumberValue _ => RT_NumberValue
  | IntValue _ => RT_IntValue
  | BoolValue _ => RT_BoolValue
  | StringValue _ => RT_StringValue
  | StringsValue _ => RT_StringsValue
  | MapIntValue _ => RT_MapIntValue
  | StructValue _ => RT_StructValue
  | TimeValue _ => RT_TimeValue
  | ErrorValue _ => RT_ErrorValue
  | NilValue => RT_NilValue
  end.

(** How a [Value] interface variable holds one of these structs: the
    methods of the interface all have value receivers, so both the struct
    [T] and the pointer [*T] implement [Value] ([Append] needs a
    [*StringsValue]). *)
Inductive Held : Set := ByValue | ByPointer.

(** [reflect.TypeOf] of a [Value] interface variable that holds [m] that
    way. *)
Definition TypeOf (held : Held) (m : Value) : GoType :=
  match held with
  | ByValue => StructTypeOf m
  | ByPointer => RT_ptr (StructTypeOf m)
  end.

(** [Type()] called on that interface variable; through a pointer the call
    is made on the struct pointed to. *)
Definition Type_of (held : Held) (m : Value) : ValueType := Type_ m.

(** [ValueTypeFromRT].  The second [MapIntValue] case of the source cannot
    be reached; the warning of the default case is not kept. *)
Definition ValueTypeFromRT (rt : GoType) : ValueType :=
  match rt with
  | RT_NilValue => NilType
  | RT_NumberValue => NumberType
  | RT_IntValue => IntType
  | RT_TimeValue => TimeType
  | RT_BoolValue => BoolType
  | RT_StringValue => StringType
  | RT_StringsValue => StringsType
  | RT_MapIntValue => MapIntType
  | RT_SliceValue => SliceValueType
  | RT_StructValue => StructType
  | RT_ErrorValue => ErrorType
  | RT_Value => NilType
  | RT_ptr _ => NilType
  | RT_other _ => NilType
  end.

(** [SliceValue.Type]. *)
Definition SliceValue_Type : ValueType := SliceValueType.

(** The spec's words for [TimeValue.Int]: the time from the epoch to the
    instant [t], as a number of nanoseconds, and its whole milliseconds
    (the fraction dropped). *)
Definition nanoseconds_since_epoch (t : Time) : Z := unixSec t * 1000000000 + nsec t.
Definition milliseconds_since_epoch (t : Time) : Z :=
  Z.quot (nanoseconds_since_epoch t) 1000000.

End WithHost.

End value.

(** ** Package expr: what the parser hands to the operators *)

Module expr.

Section WithNode.
(** The concrete expression nodes; a [Node] interface variable may be
    [nil]. *)
Variable Node : Type.
Definition INode : Type := option Node.

Record Column : Type := mkColumn {
  As : string;
  SourceIndex : Z;
  ParentIndex : Z;
  Star : bool;
  Guard : INode;
  Expr : INode;
}.

(** The composite literal [&expr.Column{As: k}]: every other field has its
    zero value. *)
Definition Column_As (k : string) : Column :=
  {| As := k; SourceIndex := 0; ParentIndex := 0; Star := false;
     Guard := None; Expr := None |}.

Record SqlSelect : Type := mkSqlSelect {
  Columns : list Column;
}.

(** [JoinNodes] is the result of the method of that name. *)
Record SqlSource : Type := mkSqlSource {
  Alias : string;
  Source : SqlSelect;
  JoinNodes : list Node;
}.

End WithNode.

Arguments As {Node} _.
Arguments SourceIndex {Node} _.
Arguments ParentIndex {Node} _.
Arguments Star {Node} _.
Arguments Guard {Node} _.
Arguments Expr {Node} _.
Arguments Column_As {Node} _.
Arguments Columns {Node} _.
Arguments Alias {Node} _.
Arguments Source {Node} _.
Arguments JoinNodes {Node} _.

End expr.

(** ** Package datasource: the messages that cross task boundaries *)

Module datasource.
Import golang value.

Section WithHost.
Context `{Host}.

(** Modelled from the spec: [SqlDriverMessageMap] is declared outside these
    sources; the spec gives its fields as id, positional values, alias to
    index map and key slot. *)
Record SqlDriverMessageMap : Type := mkSqlDriverMessageMap {
  IdVal : Z;
  Vals : list Raw;
  colIndex : gmap string Z;
  keyVal : string;
}.

(** Modelled from the spec: the constructor takes id, values and column
    index; the key slot starts empty. *)
Definition NewSqlDriverMessageMap (id : Z) (vals : list Raw) (ci : gmap string Z)
  : SqlDriverMessageMap :=
  {| IdVal := id; Vals := vals; colIndex := ci; keyVal := EmptyString |}.

Definition Values (m : SqlDriverMessageMap) : list Raw := Vals m.
Definition Key (m : SqlDriverMessageMap) : string := keyVal m.

(** Modelled from the spec: [SetKeyHashed(k)] fills the key slot that
    [Key()] reads.  The message is a pointer, so the update is seen by
    every holder; here it is the updated record. *)
Definition SetKeyHashed (key : string) (m : SqlDriverMessageMap) : SqlDriverMessageMap :=
  {| IdVal := IdVal m; Vals := Vals m; colIndex := colIndex m; keyVal := key |}.

(** The assignment [msg.IdVal = i]. *)
Definition SetIdVal (i : Z) (m : SqlDriverMessageMap) : SqlDriverMessageMap :=
  {| IdVal := i; Vals := Vals m; colIndex := colIndex m; keyVal := keyVal m |}.

(** Modelled from the spec: [Row()] is the alias to raw value map derived
    from the values and the column index.  An alias whose index lies
    outside the values has no entry. *)
Definition Row (m : SqlDriverMessageMap) : gmap string Raw :=
  omap (fun idx : Z => if idx <? 0 then None else Vals m !! Z.to_nat idx) (colIndex m).

(** [ContextUrlValues] is declared outside these sources.  The projection
    only ranges over its [Row()], whose values are [Value]s, so the body is
    carried as that row. *)
Record ContextUrlValues : Type := mkContextUrlValues {
  cuv_Row : gmap string IValue;
}.

(** Modelled from the spec: [ContextSimple] is a name-keyed write context. *)
Record ContextSimple : Type := mkContextSimple {
  Data : gmap string IValue;
}.

Definition NewContextSimple : ContextSimple := {| Data := ∅ |}.

(** A [Message] interface value: the three bodies the core names, the
    [nil] interface, and any other implementation, known by its type name. *)
Inductive Message : Type :=
| MsgSqlDriverMessageMap (mt : SqlDriverMessageMap)
| MsgContextUrlValues (mt : ContextUrlValues)
| MsgContextSimple (mt : ContextSimple)
| MsgNil
| MsgOther (typeName : string).

(** The [%T] rendering used in diagnostics. *)
Definition typeName_of (msg : Message) : string :=
  match msg with
  | MsgSqlDriverMessageMap _ => "*datasource.SqlDriverMessageMap"
  | MsgContextUrlValues _ => "*datasource.ContextUrlValues"
  | MsgContextSimple _ => "*datasource.ContextSimple"
  | MsgNil => "<nil>"
  | MsgOther t => t
  end.

End WithHost.

End datasource.

(** ** The collaborators the operators call: column keys and the evaluator *)

Module vm.
Import golang value expr datasource.

(** [ColumnKey] is [Column.Key()]; [Eval] is [vm.Eval(reader, node)], returning the
    value (possibly the [nil] interface) and the [ok] flag. *)
Class Collaborators `{Host} : Type := {
  Node : Type;
  ColumnKey : Column Node -> string;
  Eval : Message -> INode Node -> IValue * bool;
}.

End vm.

(** ** Package exec: the task runtime *)

Module exec.
Import golang value expr datasource vm.

(** A call to the logger: its level and its format string. *)
Inductive LogLine : Set :=
| Errorf (format : string)
| Warnf (format : string)
| Debugf (format : string).

(** How one attempt to run a blocking or panicking piece of code ends. *)
Inductive Step (S : Type) : Type :=
| Stepped (s : S)
| Blocked
| Panicked.
Arguments Stepped {S} _.
Arguments Blocked {S}.
Arguments Panicked {S}.

(** The arm of a two-way [select] that the scheduler lets fire. *)
Inductive Arm : Set := ArmMsg | ArmSig.

Section WithHost.
Context `{Host}.

(** A [MessageChannel]: the messages in flight, its capacity and whether it
    has been closed.  An unbuffered channel whose receiver is parked behaves
    for its sender like a channel with one free slot. *)
Record Chan : Type := mkChan {
  buf : list Message;
  cap : nat;
  closed : bool;
}.

Definition can_send (c : Chan) : bool := (length (buf c) <? cap c)%nat.
Definition send (msg : Message) (c : Chan) : Chan :=
  {| buf := buf c ++ [msg]; cap := cap c; closed := closed c |}.
Definition close (c : Chan) : Chan :=
  {| buf := buf c; cap := cap c; closed := true |}.

(** A receive [msg, ok := <-c]: the head of the buffer, or [ok = false] once
    the channel is closed and drained; otherwise the receive blocks. *)
Definition recv (c : Chan) : option (option Message * Chan) :=
  match buf c with
  | msg :: rest => Some (Some msg, {| buf := rest; cap := cap c; closed := closed c |})
  | [] => if closed c then Some (None, c) else None
  end.

(** The channels of a [TaskBase]; [sigCh] is closed or not. *)
Record TaskBase : Type := mkTaskBase {
  msgInCh : Chan;
  msgOutCh : Chan;
  sigCh : bool;
}.

Definition with_out (c : Chan) (m : TaskBase) : TaskBase :=
  {| msgInCh := msgInCh m; msgOutCh := c; sigCh := sigCh m |}.
Definition with_in (c : Chan) (m : TaskBase) : TaskBase :=
  {| msgInCh := c; msgOutCh := msgOutCh m; sigCh := sigCh m |}.
Definition with_sig (b : bool) (m : TaskBase) : TaskBase :=
  {| msgInCh := msgInCh m; msgOutCh := msgOutCh m; sigCh := b |}.

Context `{!Collaborators}.

(** Modelled from the spec: [ContextSimple.Put(col, readerMsg, v)] writes
    [v] under the key of [col]. *)
Definition Put (col : Column Node) (rctx : Message) (v : IValue) (m : ContextSimple)
  : ContextSimple :=
  {| Data := <[ColumnKey col := v]> (Data m) |}.

(** *** exec/projection.go *)

(** The write context under construction and the log lines issued so far. *)
Definition ProjState : Type := ContextSimple * list LogLine.

(** Lines 59-73 and 100-114: whether the guard makes the loop [continue],
    and what it logs.  The type switch on [ifColValue] runs whether [ok] is
    true or not; [ifColVal.Val()] is the boolean the [BoolValue] carries. *)
Definition guardFilters (mt : Message) (col : Column Node) : bool * list LogLine :=
  match Guard col with
  | Some guard =>
      let '(ifColValue, ok) := Eval mt (Some guard) in
      let logged := if ok then [] else [Errorf "Could not evaluate if:   %v"] in
      match ifColValue with
      | Some (BoolValue false) => (true, logged)
      | _ => (false, logged)
      end
  | None => (false, [])
  end.

(** Lines 75-77: the star expansion over a [SqlDriverMessageMap] row. *)
Definition starSql (row : list (string * Raw)) (writeContext : ContextSimple)
  : option ContextSimple :=
  foldl (fun acc kv =>
           match acc with
           | Some wc =>
               match NewValue kv.2 with
               | Some v => Some (Put (Column_As kv.1) MsgNil (Some v) wc)
               | None => None
               end
           | None => None
           end) (Some writeContext) row.

(** Lines 116-118: the star expansion over a [ContextUrlValues] row. *)
Definition starUrl (row : list (string * IValue)) (writeContext : ContextSimple)
  : ContextSimple :=
  foldl (fun wc kv => Put (Column_As kv.1) MsgNil kv.2 wc) writeContext row.

(** Lines 74-89: what the loop does with a [SqlDriverMessageMap] column
    that is neither pruned nor filtered by its guard. *)
Definition writeColumnSql (mt : SqlDriverMessageMap) (st : ProjState)
    (col : Column Node) : option ProjState :=
  let '(writeContext, log) := st in
  if Star col then
    match starSql (map_to_list (Row mt)) writeContext with
    | Some wc => Some (wc, log)
    | None => None
    end
  else
    let '(v, ok) := Eval (MsgSqlDriverMessageMap mt) (Expr col) in
    if negb ok then
      Some (writeContext, log ++ [Warnf "failed eval key=%v  val=%#v expr:%s   mt:%#v"])
    else
      match v with
      | None =>
          Some (Put col (MsgSqlDriverMessageMap mt) v writeContext,
                log ++ [Debugf "evaled: key=%v  val=%v"])
      | Some _ => Some (Put col (MsgSqlDriverMessageMap mt) v writeContext, log)
      end.

(** Lines 54-90: one iteration of the column loop for a
    [SqlDriverMessageMap]. *)
Definition projectColumnSql (mt : SqlDriverMessageMap) (st : ProjState)
    (col : Column Node) : option ProjState :=
  let '(writeContext, log) := st in
  if ParentIndex col <? 0 then Some st
  else
    let '(filtered, logged) := guardFilters (MsgSqlDriverMessageMap mt) col in
    if filtered then Some (writeContext, log ++ logged)
    else writeColumnSql mt (writeContext, log ++ logged) col.

(** Lines 115-126: what the loop does with a [ContextUrlValues] column that
    is not filtered by its guard. *)
Definition writeColumnUrl (mt : ContextUrlValues) (st : ProjState)
    (col : Column Node) : option ProjState :=
  let '(writeContext, log) := st in
  if Star col then
    Some (starUrl (map_to_list (cuv_Row mt)) writeContext, log)
  else
    let '(v, ok) := Eval (MsgContextUrlValues mt) (Expr col) in
    if ok then Some (Put col (MsgContextUrlValues mt) v writeContext, log)
    else Some (writeContext, log).

(** Lines 98-128: one iteration of the column loop for a
    [ContextUrlValues]. *)
Definition projectColumnUrl (mt : ContextUrlValues) (st : ProjState)
    (col : Column Node) : option ProjState :=
  let '(writeContext, log) := st in
  let '(filtered, logged) := guardFilters (MsgContextUrlValues mt) col in
  if filtered then Some (writeContext, log ++ logged)
  else writeColumnUrl mt (writeContext, log ++ logged) col.

(** The [for _, col := range columns] loop; a panic in an iteration ends
    it. *)
Definition projectColumns {M : Type} (body : M -> ProjState -> Column Node -> option ProjState)
    (mt : M) (columns : list (Column Node)) (st : ProjState) : option ProjState :=
  foldl (fun acc col =>
           match acc with
           | Some st => body mt st col
           | None => None
           end) (Some st) columns.

(** Lines 46-131: the type switch that computes [outMsg], with the log
    lines issued; [None] is a panic.  [outMsg] starts as the [nil]
    interface. *)
Definition project (columns : list (Column Node)) (msg : Message)
  : option (Message * list LogLine) :=
  match msg with
  | MsgSqlDriverMessageMap mt =>
      match projectColumns projectColumnSql mt columns (NewContextSimple, []) with
      | Some (writeContext, log) => Some (MsgContextSimple writeContext, log)
      | None => None
      end
  | MsgContextUrlValues mt =>
      match projectColumns projectColumnUrl mt columns (NewContextSimple, []) with
      | Some (writeContext, log) => Some (MsgContextSimple writeContext, log)
      | None => None
      end
  | _ => Some (MsgNil, [Errorf "could not project msg:  %T"])
  end.

(** The task state a handler call leaves: the channels, the log and the
    handler's boolean result. *)
Record Handled : Type := mkHandled {
  h_task : TaskBase;
  h_log : list LogLine;
  h_result : bool;
}.

(** The handler [projectionEvaluator] returns, applied to [msg].  It ends
    in the [select] of lines 134-139: [ArmMsg] is the send of [outMsg],
    [ArmSig] the receive from [SigChan]. *)
Definition projectionEvaluator (sql : SqlSelect Node) (m : TaskBase) (arm : Arm)
    (msg : Message) : Step Handled :=
  match project (Columns sql) msg with
  | None => Panicked
  | Some (outMsg, log) =>
      match arm with
      | ArmMsg =>
          if can_send (msgOutCh m)
          then Stepped {| h_task := with_out (send outMsg (msgOutCh m)) m;
                          h_log := log; h_result := true |}
          else Blocked
      | ArmSig =>
          if sigCh m
          then Stepped {| h_task := m; h_log := log; h_result := false |}
          else Blocked
      end
  end.

(** *** exec/join.go *)

(** An [error] built by [fmt.Errorf]: the format string and the rendered
    operand, a type name for [%T] or a row for [%+v]. *)
Inductive Error : Type :=
| Errorf_T (format : string) (typeName : string)
| Errorf_row (format : string) (row : gmap string Raw).

(** Indexing [s[i]] of a slice: out of range it panics. *)
Definition index {A : Type} (s : list A) (i : Z) : option A :=
  if i <? 0 then None else s !! Z.to_nat i.

(** **** JoinKey *)

(** Lines 85-94: the join values of a row, or the reason there are none.
    [joinVal.ToString()] on the [nil] interface panics. *)
Inductive JoinVals : Set :=
| JoinValsOk (vals : list string)
| JoinValsNotOk
| JoinValsPanic.

Fixpoint joinVals (mt : SqlDriverMessageMap) (joinNodes : list Node) : JoinVals :=
  match joinNodes with
  | [] => JoinValsOk []
  | node :: joinNodes =>
      let '(joinVal, ok) := Eval (MsgSqlDriverMessageMap mt) (Some node) in
      if negb ok then JoinValsNotOk
      else
        match joinVal with
        | None => JoinValsPanic
        | Some joinVal =>
            match joinVals mt joinNodes with
            | JoinValsOk vals => JoinValsOk (ToString joinVal :: vals)
            | other => other
            end
        end
  end.

(** Where [JoinKey.Run] stands: at the [select] of line 72, at the send of
    line 97 with the keyed message in hand, or returned.  A return closes
    [msgOutCh]; [recovered] records that it followed a panic caught by the
    deferred [context.Recover()], in which case the result is [nil]. *)
Inductive JoinKeyPc : Type :=
| JK_Select
| JK_Send (mt : SqlDriverMessageMap)
| JK_Returned (err : option Error) (recovered : bool).

Record JoinKeyState : Type := mkJoinKeyState {
  jk_task : TaskBase;
  jk_pc : JoinKeyPc;
  jk_log : list LogLine;
}.

Definition JoinKey_return (err : option Error) (recovered : bool) (task : TaskBase)
    (log : list LogLine) : JoinKeyState :=
  {| jk_task := with_out (close (msgOutCh task)) task;
     jk_pc := JK_Returned err recovered;
     jk_log := log |}.

(** One step of [JoinKey.Run].  At the [select], [arm] is the case the
    scheduler lets fire; the send of line 97 is not in a [select] and can
    only wait for room in [outCh]. *)
Definition JoinKey_Run (from : SqlSource Node) (arm : Arm) (s : JoinKeyState)
  : Step JoinKeyState :=
  let task := jk_task s in
  match jk_pc s with
  | JK_Select =>
      match arm with
      | ArmSig =>
          if sigCh task then Stepped (JoinKey_return None false task (jk_log s))
          else Blocked
      | ArmMsg =>
          match recv (msgInCh task) with
          | None => Blocked
          | Some (None, _) => Stepped (JoinKey_return None false task (jk_log s))
          | Some (Some msg, inCh) =>
              let task := with_in inCh task in
              match msg with
              | MsgSqlDriverMessageMap mt =>
                  match joinVals mt (JoinNodes from) with
                  | JoinValsNotOk =>
                      Stepped {| jk_task := task; jk_pc := JK_Select;
                                 jk_log := jk_log s ++ [Errorf "could not evaluate: %T %#v   %v"] |}
                  | JoinValsPanic =>
                      Stepped (JoinKey_return None true task (jk_log s))
                  | JoinValsOk vals =>
                      let key := Join vals NUL in
                      Stepped {| jk_task := task;
                                 jk_pc := JK_Send (SetKeyHashed key mt);
                                 jk_log := jk_log s |}
                  end
              | _ =>
                  Stepped (JoinKey_return
                             (Some (Errorf_T "To use JoinKey must use SqlDriverMessageMap but got %T"
                                             (typeName_of msg)))
                             false task (jk_log s))
              end
          end
      end
  | JK_Send mt =>
      if can_send (msgOutCh task)
      then Stepped {| jk_task := with_out (send (MsgSqlDriverMessageMap mt) (msgOutCh task)) task;
                      jk_pc := JK_Select;
                      jk_log := jk_log s |}
      else Blocked
  | JK_Returned _ _ => Blocked
  end.

(** **** JoinMerge *)

Record JoinMerge : Type := mkJoinMerge {
  leftStmt : SqlSource Node;
  rightStmt : SqlSource Node;
  jm_colIndex : gmap string Z;
}.

(** Lines 171-175 and 176-180: one of the two index-building loops. *)
Definition indexColumns (stmt : SqlSource Node) (ci : gmap string Z) : gmap string Z :=
  foldl (fun ci col => <[(Alias stmt +:+ "." +:+ ColumnKey col)%string := ParentIndex col]> ci)
        ci (Columns (Source stmt)).

(** [NewJoinNaiveMerge] followed by lines 171-180 of [Run]. *)
Definition NewJoinNaiveMerge (lfrom rfrom : SqlSource Node) : JoinMerge :=
  {| leftStmt := lfrom; rightStmt := rfrom;
     jm_colIndex := indexColumns rfrom (indexColumns lfrom ∅) |}.

(** [valIndexing]: the updated [valOut] and the warnings issued; [None] is
    the panic of an out-of-range [valSource[col.SourceIndex]]. *)
Fixpoint valIndexing (valOut valSource : list Raw) (cols : list (Column Node))
  : option (list Raw * list LogLine) :=
  match cols with
  | [] => Some (valOut, [])
  | col :: cols =>
      if ParentIndex col <? 0 then valIndexing valOut valSource cols
      else if ParentIndex col >=? Z.of_nat (length valOut) then
        '(out, log) ← valIndexing valOut valSource cols;
        Some (out, Warnf "not enough values to read col? i=%v len(vals)=%v  %#v" :: log)
      else
        v ← index valSource (SourceIndex col);
        valIndexing (<[Z.to_nat (ParentIndex col) := v]> valOut) valSource cols
  end.

(** Lines 291-296: the body of the inner loop of [mergeValueMessages]. *)
Definition mergePair (m : JoinMerge) (lm rm : SqlDriverMessageMap)
  : option (SqlDriverMessageMap * list LogLine) :=
  let vals := replicate (size (jm_colIndex m)) RawNil in
  '(vals, log1) ← valIndexing vals (Values lm) (Columns (Source (leftStmt m)));
  '(vals, log2) ← valIndexing vals (Values rm) (Columns (Source (rightStmt m)));
  let newMsg := NewSqlDriverMessageMap 0 vals (jm_colIndex m) in
  Some (newMsg, log1 ++ log2).

(** Lines 287-297: the inner loop, for one left message. *)
Fixpoint mergeRight (m : JoinMerge) (lm : SqlDriverMessageMap)
    (rmsgs : list SqlDriverMessageMap) : option (list SqlDriverMessageMap * list LogLine) :=
  match rmsgs with
  | [] => Some ([], [])
  | rm :: rmsgs =>
      '(newMsg, log1) ← mergePair m lm rm;
      '(out, log2) ← mergeRight m lm rmsgs;
      Some (newMsg :: out, log1 ++ log2)
  end.

(** [mergeValueMessages]. *)
Fixpoint mergeValueMessages (m : JoinMerge) (lmsgs rmsgs : list SqlDriverMessageMap)
  : option (list SqlDriverMessageMap * list LogLine) :=
  match lmsgs with
  | [] => Some ([], [])
  | lm :: lmsgs =>
      '(out1, log1) ← mergeRight m lm rmsgs;
      '(out2, log2) ← mergeValueMessages m lmsgs rmsgs;
      Some (out1 ++ out2, log1 ++ log2)
  end.

(** Lines 268-274 without the blocking: the messages of one key, numbered
    from [i] in the [uint64] counter. *)
Fixpoint number (i : Z) (msgs : list SqlDriverMessageMap) : list SqlDriverMessageMap :=
  match msgs with
  | [] => []
  | msg :: msgs => SetIdVal i msg :: number (uint64_wrap (i + 1)) msgs
  end.

Definition advance (i : Z) (n : nat) : Z := Nat.iter n (fun i => uint64_wrap (i + 1)) i.

(** Lines 263-275: the body of the emission loop for one left key.  The
    result is the messages sent for that key and the counter after them;
    [None] is a panic inside [mergeValueMessages]. *)
Definition emitKey (m : JoinMerge) (rh : gmap string (list SqlDriverMessageMap))
    (i : Z) (keyLeft : string) (valLeft : list SqlDriverMessageMap)
  : option (list SqlDriverMessageMap * Z) :=
  match rh !! keyLeft with
  | Some valRight =>
      '(msgs, _) ← mergeValueMessages m valLeft valRight;
      Some (number i msgs, advance i (length msgs))
  | None => Some ([], i)
  end.

(** Lines 261-277: the emission loop over the left table, visited in the
    order [order] (Go leaves the order of a map range open).  The result is
    everything sent on [outCh] and whether the loop ran to its end; a panic
    stops it and is recovered by [Run]. *)
Fixpoint emitLoop (m : JoinMerge) (rh : gmap string (list SqlDriverMessageMap))
    (i : Z) (order : list (string * list SqlDriverMessageMap))
  : list SqlDriverMessageMap * bool :=
  match order with
  | [] => ([], true)
  | (keyLeft, valLeft) :: order =>
      match emitKey m rh i keyLeft valLeft with
      | Some (msgs, i) =>
          let '(rest, completed) := emitLoop m rh i order in
          (msgs ++ rest, completed)
      | None => ([], false)
      end
  end.

(** **** JoinMerge.Run as three goroutines *)

(** An ingest goroutine: in its loop, returned after [wg.Done()], or
    returned without it. *)
Inductive Worker : Set := W_Running | W_Done | W_Quit.

(** One side of the join: the upstream channel, the hash table built from
    it and the goroutine that builds it. *)
Record Ingest : Type := mkIngest {
  in_ch : Chan;
  table : gmap string (list SqlDriverMessageMap);
  worker : Worker;
}.

(** The format of the missing-key error: the text, two double quotes, then
    the row under [%+v]. *)
Definition no_key_format : string :=
  ("To use Join msgs must have keys but got " +:+ String (ascii_of_nat 34) (String (ascii_of_nat 34) " for %+v"))%string.

(** What one turn of an ingest loop (lines 194-223, 227-257) does. *)
Inductive IngestStep : Type :=
| I_Blocked
| I_Quit
| I_Closed
| I_Append (inCh : Chan) (h : gmap string (list SqlDriverMessageMap))
| I_Fatal (inCh : Chan) (fatalErr : Error).

Definition ingest (sig : bool) (arm : Arm) (ing : Ingest) : IngestStep :=
  match arm with
  | ArmSig => if sig then I_Quit else I_Blocked
  | ArmMsg =>
      match recv (in_ch ing) with
      | None => I_Blocked
      | Some (None, _) => I_Closed
      | Some (Some msg, inCh) =>
          match msg with
          | MsgSqlDriverMessageMap mt =>
              let key := Key mt in
              if String.eqb key EmptyString then
                I_Fatal inCh (Errorf_row no_key_format (Row mt))
              else
                I_Append inCh (<[key := default [] (table ing !! key) ++ [mt]]> (table ing))
          | _ =>
              I_Fatal inCh (Errorf_T "To use Join must use SqlDriverMessageMap but got %T"
                                     (typeName_of msg))
          end
      end
  end.

(** Where the goroutine of [Run] itself stands: at [wg.Wait()]; at the head
    of the range over [lh] with the entries still to visit; inside the inner
    loop with the messages still to send; or returned. *)
Inductive MainPc : Type :=
| M_Wait
| M_Range (todo : gmap string (list SqlDriverMessageMap)) (i : Z)
| M_Send (msgs : list SqlDriverMessageMap) (todo : gmap string (list SqlDriverMessageMap)) (i : Z)
| M_Returned (err : option Error) (recovered : bool).

Record JoinMergeState : Type := mkJoinMergeState {
  jm_task : TaskBase;
  jm_left : Ingest;
  jm_right : Ingest;
  jm_wg : Z;
  jm_fatalErr : option Error;
  jm_pc : MainPc;
  jm_log : list LogLine;
  jm_crashed : bool;
}.

Inductive Side : Set := SideLeft | SideRight.

Definition side_of (side : Side) (s : JoinMergeState) : Ingest :=
  match side with SideLeft => jm_left s | SideRight => jm_right s end.

Definition quit_warning (side : Side) : LogLine :=
  match side with
  | SideLeft => Warnf "got signal quit"
  | SideRight => Warnf "got quit signal join source 1"
  end.

(** The state after a turn of the ingest goroutine of [side]: its new
    [Ingest], and the shared variables it may have written. *)
Definition after_worker (side : Side) (ing : Ingest) (task : TaskBase) (wg : Z)
    (fatalErr : option Error) (log : list LogLine) (crashed : bool)
    (s : JoinMergeState) : JoinMergeState :=
  {| jm_task := task;
     jm_left := match side with SideLeft => ing | SideRight => jm_left s end;
     jm_right := match side with SideLeft => jm_right s | SideRight => ing end;
     jm_wg := wg;
     jm_fatalErr := fatalErr;
     jm_pc := jm_pc s;
     jm_log := log;
     jm_crashed := crashed |}.

(** A turn of an ingest goroutine.  [close(m.TaskBase.sigCh)] on a channel
    that is already closed panics in a goroutine with no recover, which ends
    the process. *)
Definition JoinMerge_worker (side : Side) (arm : Arm) (s : JoinMergeState)
  : Step JoinMergeState :=
  if jm_crashed s then Blocked else
  let ing := side_of side s in
  match worker ing with
  | W_Running =>
      match ingest (sigCh (jm_task s)) arm ing with
      | I_Blocked => Blocked
      | I_Quit =>
          Stepped (after_worker side
                     {| in_ch := in_ch ing; table := table ing; worker := W_Quit |}
                     (jm_task s) (jm_wg s) (jm_fatalErr s)
                     (jm_log s ++ [quit_warning side]) false s)
      | I_Closed =>
          Stepped (after_worker side
                     {| in_ch := in_ch ing; table := table ing; worker := W_Done |}
                     (jm_task s) (jm_wg s - 1) (jm_fatalErr s) (jm_log s) false s)
      | I_Append inCh h =>
          Stepped (after_worker side
                     {| in_ch := inCh; table := h; worker := W_Running |}
                     (jm_task s) (jm_wg s) (jm_fatalErr s) (jm_log s) false s)
      | I_Fatal inCh fatalErr =>
          Stepped (after_worker side
                     {| in_ch := inCh; table := table ing; worker := W_Quit |}
                     (with_sig true (jm_task s)) (jm_wg s) (Some fatalErr) (jm_log s)
                     (sigCh (jm_task s)) s)
      end
  | _ => Blocked
  end.

Definition after_main (task : TaskBase) (pc : MainPc) (log : list LogLine)
    (s : JoinMergeState) : JoinMergeState :=
  {| jm_task := task; jm_left := jm_left s; jm_right := jm_right s;
     jm_wg := jm_wg s; jm_fatalErr := jm_fatalErr s;
     jm_pc := pc; jm_log := log; jm_crashed := jm_crashed s |}.

(** A turn of the goroutine of [Run] (lines 259-277).  [pick] is the key
    the range visits next.  Every [return] of [Run] is [return nil], and a
    recovered panic returns the zero value; either way [msgOutCh] is closed
    on the way out. *)
Definition JoinMerge_main (m : JoinMerge) (pick : string) (s : JoinMergeState)
  : Step JoinMergeState :=
  if jm_crashed s then Blocked else
  let task := jm_task s in
  let returned recovered :=
    after_main (with_out (close (msgOutCh task)) task) (M_Returned None recovered) (jm_log s) s in
  match jm_pc s with
  | M_Wait =>
      if jm_wg s =? 0
      then Stepped (after_main task (M_Range (table (jm_left s)) 0) (jm_log s) s)
      else Blocked
  | M_Range todo i =>
      if bool_decide (todo = ∅) then Stepped (returned false)
      else
        match todo !! pick with
        | None => Blocked
        | Some valLeft =>
            match table (jm_right s) !! pick with
            | Some valRight =>
                match mergeValueMessages m valLeft valRight with
                | Some (msgs, log) =>
                    Stepped (after_main task (M_Send msgs (delete pick todo) i)
                                        (jm_log s ++ log) s)
                | None => Stepped (returned true)
                end
            | None => Stepped (after_main task (M_Range (delete pick todo) i) (jm_log s) s)
            end
        end
  | M_Send [] todo i => Stepped (after_main task (M_Range todo i) (jm_log s) s)
  | M_Send (msg :: msgs) todo i =>
      if can_send (msgOutCh task)
      then Stepped (after_main
                      (with_out (send (MsgSqlDriverMessageMap (SetIdVal i msg)) (msgOutCh task)) task)
                      (M_Send msgs todo (uint64_wrap (i + 1))) (jm_log s) s)
      else Blocked
  | M_Returned _ _ => Blocked
  end.

(** What the scheduler and the surroundings can do next: give a turn to an
    ingest goroutine or to [Run]; close [sigCh] from outside; let the
    downstream task take a message off [msgOutCh]. *)
Inductive Action : Set :=
| ActWorker (side : Side) (arm : Arm)
| ActMain (pick : string)
| ActCancel
| ActDownstream.

Definition JoinMerge_Run (m : JoinMerge) (a : Action) (s : JoinMergeState)
  : Step JoinMergeState :=
  match a with
  | ActWorker side arm => JoinMerge_worker side arm s
  | ActMain pick => JoinMerge_main m pick s
  | ActCancel =>
      if jm_crashed s || sigCh (jm_task s) then Blocked
      else Stepped (after_main (with_sig true (jm_task s)) (jm_pc s) (jm_log s) s)
  | ActDownstream =>
      match recv (msgOutCh (jm_task s)) with
      | Some (Some _, outCh) =>
          Stepped (after_main (with_out outCh (jm_task s)) (jm_pc s) (jm_log s) s)
      | _ => Blocked
      end
  end.

(** A schedule runs its actions in turn; one that cannot fire is passed
    over. *)
Definition JoinMerge_exec (m : JoinMerge) (sched : list Action) (s : JoinMergeState)
  : JoinMergeState :=
  foldl (fun s a => match JoinMerge_Run m a s with Stepped s' => s' | _ => s end) s sched.

(** [Run] at line 259: both ingest goroutines started, nothing read yet. *)
Definition JoinMerge_start (outCh leftIn rightIn : Chan) : JoinMergeState :=
  {| jm_task := {| msgInCh := {| buf := []; cap := 0; closed := false |};
                   msgOutCh := outCh; sigCh := false |};
     jm_left := {| in_ch := leftIn; table := ∅; worker := W_Running |};
     jm_right := {| in_ch := rightIn; table := ∅; worker := W_Running |};
     jm_wg := 2;
     jm_fatalErr := None;
     jm_pc := M_Wait;
     jm_log := [];
     jm_crashed := false |}.

(** **** Which columns [valIndexing] writes, and which reads are in range *)

(** [col] passes both [ParentIndex] checks against an output of length
    [n]. *)
Definition writes (n : nat) (col : Column Node) : Prop :=
  0 <= ParentIndex col < Z.of_nat n.

(** [col.SourceIndex] is a valid index into a source of length [n]. *)
Definition reads_inside (n : nat) (col : Column Node) : Prop :=
  0 <= SourceIndex col < Z.of_nat n.

#[global] Instance writes_dec n col : Decision (writes n col).
Proof. unfold writes. apply _. Defined.

#[global] Instance reads_inside_dec n col : Decision (reads_inside n col).
Proof. unfold reads_inside. apply _. Defined.

(** Every column of [cols] that is written into an output of length [n]
    reads inside the values of [msg]. *)
Definition indexable (n : nat) (cols : list (Column Node)) (msg : SqlDriverMessageMap) : Prop :=
  Forall (fun col => writes n col -> reads_inside (length (Values msg)) col) cols.

#[global] Instance indexable_dec n cols msg : Decision (indexable n cols msg).
Proof. unfold indexable. apply _. Defined.

(** Every stored message of both tables is indexable by the columns of its
    side. *)
Definition tables_indexable (m : JoinMerge)
    (lh rh : gmap string (list SqlDriverMessageMap)) : Prop :=
  map_Forall (fun _ valLeft =>
                Forall (indexable (size (jm_colIndex m)) (Columns (Source (leftStmt m)))) valLeft) lh
  /\ map_Forall (fun _ valRight =>
                Forall (indexable (size (jm_colIndex m)) (Columns (Source (rightStmt m)))) valRight) rh.

#[global] Instance tables_indexable_dec m lh rh : Decision (tables_indexable m lh rh).
Proof. unfold tables_indexable. apply _. Defined.

(** The number of pairs the join forms for one entry of the left table. *)
Definition pairs_of (rh : gmap string (list SqlDriverMessageMap))
    (entry : string * list SqlDriverMessageMap) : nat :=
  (length entry.2 * length (rh !!! entry.1))%nat.

(** **** JoinKey: the outcome of evaluating a join node *)

(** The evaluation of [node] against [mt] succeeds with the value [v]. *)
Definition evaluates (mt : SqlDriverMessageMap) (node : Node) (v : Value) : Prop :=
  (Eval (MsgSqlDriverMessageMap mt) (Some node)) = (Some v, true).

(** The evaluation of [node] against [mt] fails: [ok] is false. *)
Definition fails (mt : SqlDriverMessageMap) (node : Node) : Prop :=
  (Eval (MsgSqlDriverMessageMap mt) (Some node)).2 = false.

(** The channel [c] once its head has been received, [rest] remaining. *)
Definition tail_of (c : Chan) (rest : list Message) : Chan :=
  {| buf := rest; cap := cap c; closed := closed c |}.

(** **** JoinMerge.Run: the wait group and the emission *)

(** What a goroutine still owes the wait group. *)
Definition owes (w : Worker) : Z :=
  match w with W_Done => 0 | _ => 1 end.

(** The wait group counts the ingest goroutines that have not called
    [Done], and [Run] is past [wg.Wait()] only when it is zero. *)
Definition wg_consistent (s : JoinMergeState) : Prop :=
  jm_wg s = owes (worker (jm_left s)) + owes (worker (jm_right s))
  /\ (jm_pc s <> M_Wait -> jm_wg s = 0).

Definition other (side : Side) : Side :=
  match side with SideLeft => SideRight | SideRight => SideLeft end.

(** An ingest goroutine has returned without [wg.Done()] while [Run] is at
    [wg.Wait()]. *)
Definition abandoned (s : JoinMergeState) : Prop :=
  wg_consistent s
  /\ (worker (jm_left s) = W_Quit \/ worker (jm_right s) = W_Quit)
  /\ jm_pc s = M_Wait.

(** What the goroutine of [Run] has around it: whether the process has
    crashed, the right table, and the capacity of the output channel. *)
Definition same_surroundings (s s' : JoinMergeState) : Prop :=
  jm_crashed s' = jm_crashed s
  /\ jm_right s' = jm_right s
  /\ cap (msgOutCh (jm_task s')) = cap (msgOutCh (jm_task s)).

(** The size of the inner join of two tables: the pairs of rows under the
    keys present in both. *)
Definition inner_join_size (lh rh : gmap string (list SqlDriverMessageMap)) : nat :=
  sum_list_with (fun k => (length (lh !!! k) * length (rh !!! k))%nat)
                (elements (dom lh ∩ dom rh)).

(** **** Projection: columns and message bodies *)

(** The columns that are part of the output projection. *)
Definition projected (columns : list (Column Node)) : list (Column Node) :=
  filter (fun col => 0 <= ParentIndex col) columns.

(** [msg] is neither of the two bodies the projection accepts. *)
Definition unknown_body (msg : Message) : Prop :=
  match msg with
  | MsgSqlDriverMessageMap _ | MsgContextUrlValues _ => False
  | _ => True
  end.

(** **** The composite key *)

(** [s] holds no NUL byte. *)
Fixpoint NUL_free (s : string) : Prop :=
  match s with
  | EmptyString => True
  | String c s => c <> ascii_of_nat 0 /\ NUL_free s
  end.

(** **** JoinKey.Run over a whole input *)

(** A schedule runs the arms it offers in turn; one that cannot fire is
    passed over. *)
Definition JoinKey_exec (from : SqlSource Node) (sched : list Arm) (s : JoinKeyState)
  : JoinKeyState :=
  foldl (fun s arm => match JoinKey_Run from arm s with Stepped s' => s' | _ => s end) s sched.

(** How a message can end [JoinKey.Run]: the error returned, and whether
    the return followed a recovered panic. *)
Definition Ending : Type := option Error * bool.

(** What [JoinKey.Run] does with the messages [msgs], received in that
    order: the keyed rows it forwards, and how the run ends if one of the
    messages ends it (lines 82-100). *)
Fixpoint JoinKey_forward (from : SqlSource Node) (msgs : list Message)
  : list SqlDriverMessageMap * option Ending :=
  match msgs with
  | [] => ([], None)
  | msg :: msgs =>
      match msg with
      | MsgSqlDriverMessageMap mt =>
          match joinVals mt (JoinNodes from) with
          | JoinValsOk vals =>
              let '(out, ending) := JoinKey_forward from msgs in
              (SetKeyHashed (Join vals NUL) mt :: out, ending)
          | JoinValsNotOk => JoinKey_forward from msgs
          | JoinValsPanic => ([], Some (None, true))
          end
      | _ =>
          ([], Some (Some (Errorf_T "To use JoinKey must use SqlDriverMessageMap but got %T"
                                    (typeName_of msg)), false))
      end
  end.

(** The row [JoinKey.Run] holds at the send of line 97, if it is there. *)
Definition in_hand (s : JoinKeyState) : list Message :=
  match jk_pc s with
  | JK_Send mt => [MsgSqlDriverMessageMap mt]
  | _ => []
  end.

(** The state [s] of a run started on the input [input] with [out0] already
    on the output: some prefix [taken] of the input has been received, and
    what was forwarded, and how the run stands, is what [JoinKey_forward]
    says of [taken]. *)
Definition JoinKey_follows (from : SqlSource Node) (input out0 : list Message)
    (taken : list Message) (s : JoinKeyState) : Prop :=
  input = taken ++ buf (msgInCh (jk_task s))
  /\ buf (msgOutCh (jk_task s)) ++ in_hand s
     = out0 ++ (MsgSqlDriverMessageMap <$> (JoinKey_forward from taken).1)
  /\ match jk_pc s with
     | JK_Returned err recovered =>
         closed (msgOutCh (jk_task s)) = true
         /\ ((JoinKey_forward from taken).2 = Some (err, recovered)
             \/ ((JoinKey_forward from taken).2 = None /\ err = None /\ recovered = false))
     | _ => (JoinKey_forward from taken).2 = None
     end.

(** The key [JoinKey.Run] gives the row [mt]. *)
Definition keyOf (from : SqlSource Node) (mt : SqlDriverMessageMap) : string :=
  match joinVals mt (JoinNodes from) with
  | JoinValsOk vals => Join vals NUL
  | _ => EmptyString
  end.

(** [msg] is not a [*SqlDriverMessageMap]. *)
Definition not_a_row (msg : Message) : Prop :=
  match msg with
  | MsgSqlDriverMessageMap _ => False
  | _ => True
  end.

(** **** JoinMerge: the tables and the index, as functions of the input *)

(** Lines 214 and 248: [h[key] = append(h[key], mt)]. *)
Definition store (h : gmap string (list SqlDriverMessageMap)) (mt : SqlDriverMessageMap)
  : gmap string (list SqlDriverMessageMap) :=
  <[Key mt := default [] (h !! Key mt) ++ [mt]]> h.

(** The table an ingest goroutine builds from the rows [msgs], received in
    that order. *)
Definition store_all (msgs : list SqlDriverMessageMap)
    (h : gmap string (list SqlDriverMessageMap)) : gmap string (list SqlDriverMessageMap) :=
  foldl store h msgs.

(** The pairs of a left and a right row that carry the same key. *)
Definition matching_pairs (lmsgs rmsgs : list SqlDriverMessageMap) : nat :=
  length (filter (fun p => Key p.1 = Key p.2) (list_prod lmsgs rmsgs)).

(** The name under which [Run] indexes a column (lines 173 and 178). *)
Definition qualified (stmt : SqlSource Node) (col : Column Node) : string :=
  (Alias stmt +:+ "." +:+ ColumnKey col)%string.

(** The names and parent indexes [Run] puts into [colIndex], in the order
    it does. *)
Definition indexed (lfrom rfrom : SqlSource Node) : list (string * Z) :=
  ((fun col => (qualified lfrom col, ParentIndex col)) <$> Columns (Source lfrom))
  ++ ((fun col => (qualified rfrom col, ParentIndex col)) <$> Columns (Source rfrom)).

(** An input channel that holds the rows [msgs] and has been closed. *)
Definition closed_input (msgs : list SqlDriverMessageMap) (capacity : nat) : Chan :=
  {| buf := MsgSqlDriverMessageMap <$> msgs; cap := capacity; closed := true |}.

(** **** JoinMerge: what the merged rows hold *)

(** The shape of a merged row: the index of the join, one value for every
    entry of the index, and no key. *)
Definition merged_shape (m : JoinMerge) (r : SqlDriverMessageMap) : Prop :=
  colIndex r = jm_colIndex m
  /\ length (Values r) = size (jm_colIndex m)
  /\ Key r = EmptyString.

(** The column of [cols] that writes position [p] of an output of length
    [n] last. *)
Definition last_writer (n : nat) (cols : list (Column Node)) (p : nat)
  : option (Column Node) :=
  last (filter (fun col => writes n col /\ ParentIndex col = Z.of_nat p) cols).

(** The columns [valIndexing] warns about: their [ParentIndex] lies beyond
    an output of length [n]. *)
Definition beyond (n : nat) (cols : list (Column Node)) : list (Column Node) :=
  filter (fun col => Z.of_nat n <= ParentIndex col) cols.

(** **** Projection: plain columns, stars and panics *)

(** A column that is neither a star nor guarded. *)
Definition plain (col : Column Node) : Prop := Star col = false /\ Guard col = None.

(** The expression of [col] can be evaluated against [msg]. *)
Definition evaluated (msg : Message) (col : Column Node) : Prop :=
  (Eval msg (Expr col)).2 = true.

#[global] Instance evaluated_dec msg col : Decision (evaluated msg col).
Proof. unfold evaluated. apply _. Defined.

(** What a projection of plain columns puts under the key [k]: the value
    of the last column with that key that can be evaluated. *)
Definition selected (msg : Message) (columns : list (Column Node)) (k : string)
  : option IValue :=
  (fun col => (Eval msg (Expr col)).1)
    <$> last (filter (fun col => ColumnKey col = k /\ evaluated msg col) columns).

(** The row holds a nil [*time.Time]. *)
Definition holds_nil_time (row : gmap string Raw) : Prop :=
  exists k, row !! k = Some (RawTimePtr None).

(** A star column that the loop over a [SqlDriverMessageMap] does not
    prune. *)
Definition expands (col : Column Node) : Prop :=
  Star col = true /\ 0 <= ParentIndex col.

(** **** JoinMerge: which buckets can be merged *)

(** The two buckets of a key can be merged without an out-of-range read:
    when either is empty no pair is formed; otherwise every row of each is
    indexable by the columns of its side. *)
Definition mergeable (m : JoinMerge) (valLeft valRight : list SqlDriverMessageMap) : Prop :=
  match valLeft, valRight with
  | [], _ | _, [] => True
  | _, _ =>
      Forall (indexable (size (jm_colIndex m)) (Columns (Source (leftStmt m)))) valLeft
      /\ Forall (indexable (size (jm_colIndex m)) (Columns (Source (rightStmt m)))) valRight
  end.

#[global] Instance mergeable_dec m valLeft valRight : Decision (mergeable m valLeft valRight).
Proof. unfold mergeable. destruct valLeft, valRight; apply _. Defined.

(** The bucket [valLeft] of the left key [keyLeft] can be merged with the
    bucket the right table has for that key, if it has one. *)
Definition key_mergeable (m : JoinMerge) (rh : gmap string (list SqlDriverMessageMap))
    (keyLeft : string) (valLeft : list SqlDriverMessageMap) : Prop :=
  match rh !! keyLeft with
  | Some valRight => mergeable m valLeft valRight
  | None => True
  end.

#[global] Instance key_mergeable_dec m rh keyLeft valLeft :
  Decision (key_mergeable m rh keyLeft valLeft).
Proof. unfold key_mergeable. destruct (rh !! keyLeft); apply _. Defined.

(** Every key present in both tables has mergeable buckets. *)
Definition matched_mergeable (m : JoinMerge)
    (lh rh : gmap string (list SqlDriverMessageMap)) : Prop :=
  map_Forall (key_mergeable m rh) lh.

#[global] Instance matched_mergeable_dec m lh rh : Decision (matched_mergeable m lh rh).
Proof. unfold matched_mergeable. apply _. Defined.

End WithHost.

End exec.

(** ** The scenarios of the spec, as concrete hosts and evaluators *)

Module scenario.
Import golang value expr datasource vm exec.

(** A host for the scenarios, none of which formats a float, a map or a
    struct. *)
Definition host : Host :=
  {| Any := unit;
     FormatFloat := fun _ => "float"%string;
     Sprintf_v_MapInt := fun _ => "map"%string;
     Sprintf_v_Any := fun _ => "struct"%string |}.

(** The expressions the scenarios use: a column identifier, an integer
    literal and an equality test. *)
Inductive ExNode : Set :=
| Ident (name : string)
| IntLit (v : Z)
| Equal (lhs rhs : ExNode).

(** The named values a reader exposes to the evaluator. *)
Definition reader_row (msg : @Message host) : gmap string (@IValue host) :=
  match msg with
  | MsgSqlDriverMessageMap mt => omap (fun raw => Some (NewValue raw)) (Row mt)
  | MsgContextUrlValues mt => cuv_Row mt
  | MsgContextSimple mt => Data mt
  | _ => ∅
  end.

(** Modelled from the spec: the evaluator is outside these sources; its
    contract is [Eval(reader, node) -> (Value, ok)].  This one reads
    identifiers from the row and compares integers, and reports anything
    else as a failure; [failure] is the value it returns beside
    [ok = false], which the contract leaves open. *)
Fixpoint evalNode (failure : @IValue host) (row : gmap string (@IValue host))
    (node : ExNode) : @IValue host * bool :=
  match node with
  | Ident name =>
      match row !! name with
      | Some v => (v, true)
      | None => (failure, false)
      end
  | IntLit v => (Some (IntValue v), true)
  | Equal lhs rhs =>
      match evalNode failure row lhs, evalNode failure row rhs with
      | (Some (IntValue a), true), (Some (IntValue b), true) => (Some (BoolValue (a =? b)), true)
      | _, _ => (failure, false)
      end
  end.

Definition collaborators_failing_with (failure : @IValue host) : @Collaborators host :=
  {| Node := ExNode;
     ColumnKey := fun col => As col;
     Eval := fun msg node =>
               match node with
               | Some node => evalNode failure (reader_row msg) node
               | None => (failure, false)
               end |}.

(** The evaluator whose failures carry the [nil] value. *)
Definition collaborators : @Collaborators host := collaborators_failing_with None.


(** [1970-01-01T00:00:01.234Z]. *)
Definition t_1234ms : Time := {| unixSec := 1; nsec := 234000000 |}.

(** *** Join scenarios *)

Definition col (as_ : string) (sourceIndex parentIndex : Z) : Column ExNode :=
  {| As := as_; SourceIndex := sourceIndex; ParentIndex := parentIndex;
     Star := false; Guard := None; Expr := Some (Ident as_) |}.

Definition keyed (key : string) (vals : list (@Raw host)) : @SqlDriverMessageMap host :=
  {| IdVal := 0; Vals := vals; colIndex := ∅; keyVal := key |}.

(** Scenario 4: both sides select [k] and [v]; the output row is
    [l.k, l.v, r.k, r.v]. *)
Definition join_kv : @JoinMerge host collaborators :=
  @NewJoinNaiveMerge host collaborators
    {| Alias := "l"; Source := {| Columns := [col "k" 0 0; col "v" 1 1] |}; JoinNodes := [Ident "k"] |}
    {| Alias := "r"; Source := {| Columns := [col "k" 0 2; col "v" 1 3] |}; JoinNodes := [Ident "k"] |}.

Definition left_kv : gmap string (list (@SqlDriverMessageMap host)) :=
  {[ "x"%string := [keyed "x" [RawString "x"; RawInt64 1]; keyed "x" [RawString "x"; RawInt64 2]] ]}.

Definition right_kv : gmap string (list (@SqlDriverMessageMap host)) :=
  <[ "y"%string := [keyed "y" [RawString "y"; RawInt64 0]] ]>
    {[ "x"%string := [keyed "x" [RawString "x"; RawInt64 9]; keyed "x" [RawString "x"; RawInt64 8]] ]}.

(** A join whose left column reads position 0 of rows that hold no
    values. *)
Definition join_short_rows : @JoinMerge host collaborators :=
  @NewJoinNaiveMerge host collaborators
    {| Alias := "l"; Source := {| Columns := [col "a" 0 0] |}; JoinNodes := [] |}
    {| Alias := "r"; Source := {| Columns := [] |}; JoinNodes := [] |}.

Definition short_rows : gmap string (list (@SqlDriverMessageMap host)) :=
  {[ "x"%string := [keyed "x" []] ]}.

(** *** JoinKey scenarios *)

(** Scenario 3: the row [{first: ann, last: lee}]. *)
Definition row_ann_lee : @SqlDriverMessageMap host :=
  {| IdVal := 7;
     Vals := [RawString "ann"; RawString "lee"];
     colIndex := <["last"%string := 1]> {[ "first"%string := 0 ]};
     keyVal := EmptyString |}.

Definition from_first_last : SqlSource ExNode :=
  {| Alias := "t"; Source := {| Columns := [] |};
     JoinNodes := [Ident "first"; Ident "last"] |}.

(** A join on a column the row does not have. *)
Definition from_first_missing : SqlSource ExNode :=
  {| Alias := "t"; Source := {| Columns := [] |};
     JoinNodes := [Ident "first"; Ident "missing"] |}.

Definition chan_of (msgs : list (@Message host)) (capacity : nat) : @Chan host :=
  {| buf := msgs; cap := capacity; closed := false |}.

(** A [JoinKey] task with one row waiting on its input and room for one
    message on its output. *)
Definition task_ann_lee : @TaskBase host :=
  {| msgInCh := chan_of [MsgSqlDriverMessageMap row_ann_lee] 1;
     msgOutCh := chan_of [] 1;
     sigCh := false |}.

(** A [JoinMerge] whose left input holds one row with an empty key. *)
Definition start_empty_key : @JoinMergeState host :=
  JoinMerge_start (chan_of [] 1)
                  (chan_of [MsgSqlDriverMessageMap (keyed EmptyString [RawString "x"])] 1)
                  (chan_of [] 1).

(** *** Projection scenarios *)

(** Scenario 1: the row [{a: 1, b: 2}]. *)
Definition row_a1_b2 : @SqlDriverMessageMap host :=
  {| IdVal := 0;
     Vals := [RawInt64 1; RawInt64 2];
     colIndex := <["b"%string := 1]> {[ "a"%string := 0 ]};
     keyVal := EmptyString |}.

(** The same row as a [ContextUrlValues]. *)
Definition url_a1_b2 : @ContextUrlValues host :=
  {| cuv_Row := <["b"%string := Some (IntValue 2)]> {[ "a"%string := Some (IntValue 1) ]} |}.




(** The columns [a] and [b] without a guard. *)
Definition columns_a_b : list (Column ExNode) := [col "a" 0 0; col "b" 1 1].

(** The column [a] pruned from the output: its [ParentIndex] is [-1]. *)
Definition columns_a_pruned : list (Column ExNode) := [col "a" 0 (-1)].

Definition task_with_room : @TaskBase host :=
  {| msgInCh := chan_of [] 1; msgOutCh := chan_of [] 1; sigCh := false |}.

(** *** Blocked sends *)

Definition closed_chan_of (msgs : list (@Message host)) (capacity : nat) : @Chan host :=
  {| buf := msgs; cap := capacity; closed := true |}.

(** A [JoinKey] task with one row waiting on its input and no room on its
    output. *)
Definition task_no_room : @TaskBase host :=
  {| msgInCh := chan_of [MsgSqlDriverMessageMap row_ann_lee] 1;
     msgOutCh := chan_of [] 0;
     sigCh := false |}.

(** A [JoinMerge] with one row under key [x] on each input, both inputs
    closed, and no room on its output. *)
Definition start_no_room : @JoinMergeState host :=
  JoinMerge_start (chan_of [] 0)
                  (closed_chan_of [MsgSqlDriverMessageMap (keyed "x" [RawString "x"; RawInt64 1])] 1)
                  (closed_chan_of [MsgSqlDriverMessageMap (keyed "x" [RawString "x"; RawInt64 9])] 1).

(** Both inputs are read to their end, [Run] passes [wg.Wait()] and merges
    key [x]; then [sigCh] is closed. *)
Definition schedule_to_send : list Action :=
  [ActWorker SideLeft ArmMsg; ActWorker SideLeft ArmMsg;
   ActWorker SideRight ArmMsg; ActWorker SideRight ArmMsg;
   ActMain "x"; ActMain "x"; ActCancel].

(** *** More join scenarios *)

(** The row [{first: ann, last: ray}]. *)
Definition row_ann_ray : @SqlDriverMessageMap host :=
  {| IdVal := 8;
     Vals := [RawString "ann"; RawString "ray"];
     colIndex := <["last"%string := 1]> {[ "first"%string := 0 ]};
     keyVal := EmptyString |}.

(** A row whose only join column holds the empty string. *)
Definition row_blank : @SqlDriverMessageMap host :=
  {| IdVal := 9;
     Vals := [RawString EmptyString];
     colIndex := {[ "first"%string := 0 ]};
     keyVal := EmptyString |}.

Definition from_first : SqlSource ExNode :=
  {| Alias := "t"; Source := {| Columns := [] |}; JoinNodes := [Ident "first"] |}.

(** A [JoinKey] task with the blank row waiting on its input. *)
Definition task_blank : @TaskBase host :=
  {| msgInCh := chan_of [MsgSqlDriverMessageMap row_blank] 1;
     msgOutCh := chan_of [] 1;
     sigCh := false |}.

(** A [JoinKey] task whose input holds a [nil] message. *)
Definition task_nil_message : @TaskBase host :=
  {| msgInCh := chan_of [MsgNil] 1; msgOutCh := chan_of [] 1; sigCh := false |}.

(** A [JoinKey] task whose input holds two rows and has been closed. *)
Definition task_two_rows : @TaskBase host :=
  {| msgInCh := closed_chan_of [MsgSqlDriverMessageMap row_ann_lee;
                                MsgSqlDriverMessageMap row_ann_ray] 2;
     msgOutCh := chan_of [] 2;
     sigCh := false |}.

(** The rows of scenario 4 as they arrive: two left rows under [x]; two
    right rows under [x] and one under [y]. *)
Definition left_rows : list (@SqlDriverMessageMap host) :=
  [keyed "x" [RawString "x"; RawInt64 1]; keyed "x" [RawString "x"; RawInt64 2]].

Definition right_rows : list (@SqlDriverMessageMap host) :=
  [keyed "x" [RawString "x"; RawInt64 9]; keyed "y" [RawString "y"; RawInt64 0];
   keyed "x" [RawString "x"; RawInt64 8]].

(** A [JoinMerge] whose left input holds a message of another type. *)
Definition start_other_message : @JoinMergeState host :=
  JoinMerge_start (chan_of [] 1) (chan_of [MsgOther "*other.Message"] 1) (chan_of [] 1).

(** The same, after [sigCh] has been closed from outside. *)
Definition start_other_message_cancelled : @JoinMergeState host :=
  after_main (with_sig true (jm_task start_other_message)) M_Wait [] start_other_message.

(** *** More projection scenarios *)

(** The column [*]. *)
Definition star_column : Column ExNode :=
  {| As := "*"; SourceIndex := 0; ParentIndex := 0;
     Star := true; Guard := None; Expr := None |}.

(** *** A join value that is nil *)

(** The named values of a row for an evaluator that reads a NULL column
    (a [nil] [driver.Value]) as the [nil] value. *)
Definition reader_row_null_is_nil (msg : @Message host) : gmap string (@IValue host) :=
  match msg with
  | MsgSqlDriverMessageMap mt =>
      omap (fun raw => Some (match raw with RawNil => None | _ => NewValue raw end)) (Row mt)
  | _ => reader_row msg
  end.

(** Modelled from the spec: the evaluator is outside these sources; its
    contract is [Eval(reader, node) -> (Value, ok)].  This one evaluates an
    identifier of a NULL column to the [nil] value with [ok = true], the
    case line 82 of projection.go tests for. *)
Definition collaborators_null_is_nil : @Collaborators host :=
  {| Node := ExNode;
     ColumnKey := fun col => As col;
     Eval := fun msg node =>
               match node with
               | Some node => evalNode None (reader_row_null_is_nil msg) node
               | None => (None, false)
               end |}.

(** The row [{first: ann, last: NULL}]. *)
Definition row_ann_null : @SqlDriverMessageMap host :=
  {| IdVal := 6;
     Vals := [RawString "ann"; RawNil];
     colIndex := <["last"%string := 1]> {[ "first"%string := 0 ]};
     keyVal := EmptyString |}.

(** A [JoinKey] task with that row and then the row [ann, lee] waiting on
    its input. *)
Definition task_ann_null : @TaskBase host :=
  {| msgInCh := chan_of [MsgSqlDriverMessageMap row_ann_null;
                         MsgSqlDriverMessageMap row_ann_lee] 2;
     msgOutCh := chan_of [] 2;
     sigCh := false |}.

End scenario.

(** * Properties *)

Import golang value expr datasource vm exec.

(** ** Machine integers and the host's formatting *)

Lemma int64_wrap_range (z : Z) : int64_min <= int64_wrap z <= int64_max.
Proof.
  unfold int64_wrap, int64_min, int64_max.
  pose proof (Z.mod_pos_bound (z + 2 ^ 63) (2 ^ 64) ltac:(lia)). lia.
Qed.

Lemma int64_wrap_id (z : Z) : int64_min <= z <= int64_max -> int64_wrap z = z.
Proof.
  unfold int64_wrap, int64_min, int64_max. intros Hz.
  rewrite Z.mod_small by lia. lia.
Qed.

(** Dividing an [int64] by a million stays in range, so the quotient does
    not wrap. *)
Lemma int64_quo_million (a : Z) :
  int64_min <= a <= int64_max -> int64_quo a 1000000 = Z.quot a 1000000.
Proof.
  intros Ha. unfold int64_quo. apply int64_wrap_id.
  unfold int64_min, int64_max in *.
  destruct (Z.le_gt_cases 0 a) as [Hpos | Hneg].
  - pose proof (Z.quot_pos a 1000000 Hpos ltac:(lia)).
    pose proof (Z.quot_le_upper_bound a 1000000 (2 ^ 63 - 1) ltac:(lia) ltac:(lia)). lia.
  - assert (Hopp : Z.quot a 1000000 = - Z.quot (- a) 1000000).
    { rewrite Z.quot_opp_l by lia. lia. }
    pose proof (Z.quot_pos (- a) 1000000 ltac:(lia) ltac:(lia)).
    pose proof (Z.quot_le_upper_bound (- a) 1000000 (2 ^ 63) ltac:(lia) ltac:(lia)). lia.
Qed.

(** [FormatInt10] writes a numeral that reads back as the same integer. *)
Lemma FormatInt10_decimal (i : Z) :
  Z.of_int <$> NilZero.int_of_string (FormatInt10 i) = Some i.
Proof.
  unfold FormatInt10. rewrite NilZero.isi.
  - simpl. f_equal. apply DecimalZ.of_to.
  - destruct i; discriminate || (simpl; intros [= Hp]; revert Hp; apply DecimalPos.Unsigned.to_uint_nonnil).
  - destruct i; discriminate || (simpl; intros [= Hp]; revert Hp; apply DecimalPos.Unsigned.to_uint_nonnil).
Qed.

(** ** [float64(i)] is exact below [2^53] *)

Lemma digits2_pos_size (p : positive) : digits2_pos p = Pos.size p.
Proof. induction p; simpl; congruence. Qed.

Lemma digits2_pos_shift (n p : positive) :
  digits2_pos (Pos.iter xO p n) = (digits2_pos p + n)%positive.
Proof.
  induction n using Pos.peano_ind.
  - simpl. lia.
  - rewrite Pos.iter_succ. simpl. rewrite IHn. lia.
Qed.

Lemma digits2_pos_bound (p : positive) (k : Z) :
  0 <= k -> Z.pos p < 2 ^ k -> Z.pos (digits2_pos p) <= k.
Proof.
  intros Hk Hp. rewrite digits2_pos_size.
  pose proof (Pos.size_le p) as Hle.
  destruct (Z.le_gt_cases (Z.pos (Pos.size p)) k) as [|Hgt]; [done|].
  exfalso.
  assert (2 ^ (k + 1) <= 2 ^ Z.pos (Pos.size p)) by (apply Z.pow_le_mono_r; lia).
  assert (Z.pos (2 ^ Pos.size p) <= Z.pos p~0) by lia.
  rewrite Pos2Z.inj_pow in *. rewrite Z.pow_add_r in * by lia. lia.
Qed.

(** A mantissa that fits the 53 bits of precision is only renormalised. *)
Lemma binary_round_small (s : bool) (p : positive) :
  Z.pos p < 2 ^ 53 ->
  exists m e, binary_round 53 1024 s p 0 = S754_finite s m e
              /\ e <= 0 /\ Z.pos m = Z.pos p * 2 ^ (- e).
Proof.
  intros Hp.
  pose proof (digits2_pos_bound p 53 ltac:(lia) Hp) as Hd.
  unfold binary_round.
  assert (Hfexp : forall d, 0 < d <= 53 -> fexp 53 1024 d = d - 53).
  { intros d Hd'. unfold fexp, emin. lia. }
  rewrite Z.add_0_r, Hfexp by lia.
  unfold shl_align.
  assert (Haux : forall mz ez, Z.pos (digits2_pos mz) = 53 -> -53 < ez <= 0 ->
            binary_round_aux 53 1024 s (Z.pos mz) ez loc_Exact = S754_finite s mz ez).
  { intros mz ez Hmz Hez. unfold binary_round_aux, shr_fexp.
    cbn [Zdigits2 shr_record_of_loc]. rewrite Hmz.
    unfold fexp, emin.
    replace (Z.max (53 + ez - 53) (3 - 1024 - 53) - ez) with 0 by lia.
    cbn [shr shr_m loc_of_shr_record round_nearest_even Zdigits2 shr_record_of_loc].
    rewrite Hmz.
    replace (Z.max (53 + ez - 53) (3 - 1024 - 53) - ez) with 0 by lia.
    cbn [shr shr_m].
    destruct (Z.leb_spec ez (1024 - 53)); [done | lia]. }
  destruct (Z.pos (digits2_pos p) - 53 - 0) as [|q|q] eqn:Hq; try lia.
  - exists p, 0. rewrite Haux by lia. split; [done|]. split; [lia|]. simpl. lia.
  - exists (Pos.iter xO p q), (Z.pos (digits2_pos p) - 53).
    rewrite Haux; [| rewrite digits2_pos_shift; lia | lia].
    split; [done|]. split; [lia|].
    change (Pos.iter xO p q) with (shift_pos q p). rewrite shift_pos_correct.
    rewrite Z.pow_pos_fold. replace (- (Z.pos (digits2_pos p) - 53)) with (Z.pos q) by lia. lia.
Qed.

(** The conversion of an integer of magnitude below [2^53] denotes that
    integer. *)
Lemma float64_of_int64_exact (x : Z) :
  - 2 ^ 53 < x < 2 ^ 53 ->
  exists q, float64_toQ (float64_of_int64 x) = Some q /\ (q == inject_Z x)%Q.
Proof.
  intros Hx. unfold float64_of_int64, binary_normalize.
  assert (Hq : forall (s : bool) (m : positive) (e k : Z),
             e <= 0 -> Z.pos m = k * 2 ^ (- e) ->
             exists q, float64_toQ (S754_finite s m e) = Some q
                       /\ (q == inject_Z (if s then - k else k))%Q).
  { intros s m e k He Hm. eexists. split; [reflexivity|].
    assert (Hm' : (if s then Z.neg m else Z.pos m) = (if s then - k else k) * 2 ^ (- e)).
    { destruct s; lia. }
    rewrite Hm'. set (k' := if s then - k else k).
    pose proof (Z.pow_pos_nonneg 2 (- e) ltac:(lia) ltac:(lia)) as Hpow.
    destruct (Z.leb_spec 0 e).
    - replace e with 0 by lia. simpl. unfold Qeq. simpl. lia.
    - rewrite inject_Z_mult. field.
      intros Hz. unfold Qeq in Hz. simpl in Hz. lia. }
  destruct x as [|p|p].
  - exists 0%Q. split; reflexivity.
  - destruct (binary_round_small false p ltac:(lia)) as (m & e & -> & He & Hm).
    apply (Hq false m e (Z.pos p) He Hm).
  - destruct (binary_round_small true p ltac:(lia)) as (m & e & -> & He & Hm).
    apply (Hq true m e (Z.pos p) He Hm).
Qed.

(** ** value/value.go: [TimeValue] *)

Lemma TimeValue_Int_quot (t : Time) : TimeValue_Int t = Z.quot (UnixNano t) 1000000.
Proof. unfold TimeValue_Int. apply int64_quo_million, int64_wrap_range. Qed.

Lemma TimeValue_Int_small (t : Time) : - 2 ^ 53 < TimeValue_Int t < 2 ^ 53.
Proof.
  rewrite TimeValue_Int_quot.
  pose proof (int64_wrap_range (unixSec t * 1000000000 + nsec t)) as Hr.
  fold (UnixNano t) in Hr. unfold int64_min, int64_max in Hr.
  destruct (Z.le_gt_cases 0 (UnixNano t)) as [Hpos | Hneg].
  - pose proof (Z.quot_pos (UnixNano t) 1000000 Hpos ltac:(lia)).
    pose proof (Z.quot_le_upper_bound (UnixNano t) 1000000 (2 ^ 52) ltac:(lia) ltac:(lia)). lia.
  - assert (Hopp : Z.quot (UnixNano t) 1000000 = - Z.quot (- UnixNano t) 1000000).
    { rewrite Z.quot_opp_l by lia. lia. }
    pose proof (Z.quot_pos (- UnixNano t) 1000000 ltac:(lia) ltac:(lia)).
    pose proof (Z.quot_le_upper_bound (- UnixNano t) 1000000 (2 ^ 52) ltac:(lia) ltac:(lia)). lia.
Qed.

(** C9, amended: for every time [t] whose nanoseconds since the epoch fit
    an [int64], [t.UnixNano()] is that number and [TimeValue(t).Int()] is
    the whole milliseconds since the epoch, the fraction dropped toward
    zero (for an instant at or after the epoch that is the floor);
    [TimeValue(t).Float()] is the conversion of that same integer to
    [float64], and the conversion is exact; [TimeValue(t).ToString()] is
    the base-10 numeral of that millisecond count, which reads back as it.
    For [t = 1970-01-01T00:00:01.234Z], [Int()] is 1234 and [ToString()] is
    "1234". *)
Theorem TimeValue_is_unix_milliseconds `{Host} (t : Time) :
  int64_min <= nanoseconds_since_epoch t <= int64_max ->
  UnixNano t = nanoseconds_since_epoch t
  /\ TimeValue_Int t = milliseconds_since_epoch t
  /\ (0 <= nanoseconds_since_epoch t -> TimeValue_Int t = nanoseconds_since_epoch t / 1000000)
  /\ TimeValue_Float t = float64_of_int64 (milliseconds_since_epoch t)
  /\ (exists q, float64_toQ (TimeValue_Float t) = Some q
                /\ (q == inject_Z (milliseconds_since_epoch t))%Q)
  /\ ToString (TimeValue t) = FormatInt10 (milliseconds_since_epoch t)
  /\ Z.of_int <$> NilZero.int_of_string (ToString (TimeValue t))
     = Some (milliseconds_since_epoch t)
  /\ TimeValue_Int scenario.t_1234ms = 1234
  /\ ToString (TimeValue scenario.t_1234ms) = "1234"%string.
Proof.
  intros Hfits.
  assert (Hnano : UnixNano t = nanoseconds_since_epoch t).
  { unfold UnixNano. by apply int64_wrap_id. }
  assert (Hint : TimeValue_Int t = milliseconds_since_epoch t).
  { rewrite TimeValue_Int_quot, Hnano. reflexivity. }
  split; [exact Hnano|]. split; [exact Hint|]. split.
  { intros Hpos. rewrite Hint. unfold milliseconds_since_epoch.
    apply Z.quot_div_nonneg; lia. }
  split; [unfold TimeValue_Float; fold (TimeValue_Int t); by rewrite Hint|].
  split.
  { unfold TimeValue_Float. fold (TimeValue_Int t). rewrite <- Hint.
    apply float64_of_int64_exact, TimeValue_Int_small. }
  split; [cbn; unfold TimeValue_ToString; by rewrite Hint|].
  split; [cbn; unfold TimeValue_ToString; rewrite <- Hint; apply FormatInt10_decimal|].
  split; reflexivity.
Qed.

(** The instant 1.234 s after the epoch. *)
Lemma TimeValue_is_unix_milliseconds_witness :
  TimeValue_Int scenario.t_1234ms = milliseconds_since_epoch scenario.t_1234ms
  /\ milliseconds_since_epoch scenario.t_1234ms = 1234
  /\ @ToString scenario.host (TimeValue scenario.t_1234ms) = "1234"%string.
Proof.
  destruct (@TimeValue_is_unix_milliseconds scenario.host scenario.t_1234ms)
    as (_ & Hint & _ & _ & _ & _ & _ & _ & Hstr).
  - vm_compute. split; discriminate.
  - split; [exact Hint|]. split; [reflexivity | exact Hstr].
Defined.

(** C9 as stated fails for the zero time, which [TimeZeroValue] holds: its
    nanoseconds since the epoch do not fit an [int64], [UnixNano()] wraps,
    and [Int()] is not the milliseconds since the epoch. *)
Lemma TimeValue_Int_of_zero_time_is_not_its_milliseconds :
  TimeValue_Int zeroTime = -6795364578871
  /\ milliseconds_since_epoch zeroTime = -62135596800000
  /\ TimeValue_Int zeroTime <> milliseconds_since_epoch zeroTime.
Proof. split; [reflexivity|]. split; [reflexivity|]. vm_compute. discriminate. Qed.

(** ** exec/join.go: [valIndexing], [mergeValueMessages] and the emission loop *)

Section JoinMergeFacts.
Context `{host : Host} `{collaborators : !Collaborators}.

Lemma index_None {A : Type} (s : list A) (i : Z) :
  index s i = None <-> ~ (0 <= i < Z.of_nat (length s)).
Proof.
  unfold index. destruct (Z.ltb_spec i 0).
  - split; [lia | done].
  - rewrite lookup_ge_None. lia.
Qed.


Lemma valIndexing_skip (valOut valSource : list Raw) col cols :
  ~ writes (length valOut) col ->
  fst <$> valIndexing valOut valSource (col :: cols) = fst <$> valIndexing valOut valSource cols.
Proof.
  unfold writes. intros Hw. cbn [valIndexing].
  destruct (Z.ltb_spec (ParentIndex col) 0); [done|].
  destruct (Z.geb_spec (ParentIndex col) (Z.of_nat (length valOut))); [|lia].
  destruct (valIndexing valOut valSource cols) as [[out log]|]; done.
Qed.

Lemma valIndexing_write (valOut valSource : list Raw) col cols :
  writes (length valOut) col ->
  valIndexing valOut valSource (col :: cols) =
    v ← index valSource (SourceIndex col);
    valIndexing (<[Z.to_nat (ParentIndex col) := v]> valOut) valSource cols.
Proof.
  unfold writes. intros Hw. cbn [valIndexing].
  destruct (Z.ltb_spec (ParentIndex col) 0); [lia|].
  destruct (Z.geb_spec (ParentIndex col) (Z.of_nat (length valOut))); [lia|done].
Qed.

Lemma valIndexing_panics (valSource : list Raw) cols : forall valOut : list Raw,
  valIndexing valOut valSource cols = None <->
  Exists (fun col => writes (length valOut) col /\ ~ reads_inside (length valSource) col) cols.
Proof.
  induction cols as [|col cols IH]; intros valOut.
  - simpl. split; [done|]. intros Hex. inversion Hex.
  - rewrite Exists_cons.
    destruct (decide (writes (length valOut) col)) as [Hw|Hw].
    + rewrite valIndexing_write by done.
      destruct (index valSource (SourceIndex col)) as [v|] eqn:Hv; simpl.
      * rewrite IH, length_insert. split; [tauto|].
        intros [[_ Hr]|Hex]; [|done]. apply index_None in Hr. congruence.
      * split; [|done]. intros _. left. split; [done|]. by apply index_None.
    + pose proof (valIndexing_skip valOut valSource col cols Hw) as Hskip.
      rewrite <- IH.
      destruct (valIndexing valOut valSource (col :: cols)),
               (valIndexing valOut valSource cols); simpl in Hskip; try done; intuition congruence.
Qed.

Lemma valIndexing_length (valSource : list Raw) cols : forall (valOut out : list Raw) log,
  valIndexing valOut valSource cols = Some (out, log) -> length out = length valOut.
Proof.
  induction cols as [|col cols IH]; intros valOut out log; cbn [valIndexing].
  - by intros [= <- _].
  - destruct (Z.ltb_spec (ParentIndex col) 0); [apply IH|].
    destruct (Z.geb_spec (ParentIndex col) (Z.of_nat (length valOut))).
    + destruct (valIndexing valOut valSource cols) as [[out' log']|] eqn:Hrec; [|done].
      simpl. intros [= <- _]. by eapply IH.
    + destruct (index valSource (SourceIndex col)) as [v|]; [|done]. simpl.
      intros Hrec. apply IH in Hrec. by rewrite length_insert in Hrec.
Qed.


Lemma valIndexing_total (valOut valSource : list Raw) cols :
  is_Some (valIndexing valOut valSource cols) <->
  Forall (fun col => writes (length valOut) col -> reads_inside (length valSource) col) cols.
Proof.
  rewrite <- not_eq_None_Some, valIndexing_panics, <- Forall_Exists_neg.
  apply Forall_iff. intros col. split.
  - intros Hn Hw. destruct (decide (reads_inside (length valSource) col)); tauto.
  - tauto.
Qed.

Lemma mergePair_indexable (m : JoinMerge) lm rm :
  indexable (size (jm_colIndex m)) (Columns (Source (leftStmt m))) lm ->
  indexable (size (jm_colIndex m)) (Columns (Source (rightStmt m))) rm ->
  is_Some (mergePair m lm rm).
Proof.
  unfold indexable, mergePair. intros Hl Hr.
  destruct (valIndexing (replicate (size (jm_colIndex m)) RawNil) (Values lm)
              (Columns (Source (leftStmt m)))) as [[vals log1]|] eqn:Hleft.
  - simpl. apply valIndexing_length in Hleft as Hlen. rewrite length_replicate in Hlen.
    destruct (valIndexing vals (Values rm) (Columns (Source (rightStmt m))))
      as [[vals' log2]|] eqn:Hright; [done|].
    exfalso. apply eq_None_not_Some in Hright. apply Hright, valIndexing_total. by rewrite Hlen.
  - exfalso. apply eq_None_not_Some in Hleft. apply Hleft, valIndexing_total.
    by rewrite length_replicate.
Qed.

Lemma mergeRight_length (m : JoinMerge) lm rmsgs :
  indexable (size (jm_colIndex m)) (Columns (Source (leftStmt m))) lm ->
  Forall (indexable (size (jm_colIndex m)) (Columns (Source (rightStmt m)))) rmsgs ->
  exists out log, mergeRight m lm rmsgs = Some (out, log) /\ length out = length rmsgs.
Proof.
  intros Hl. induction 1 as [|rm rmsgs Hr _ IH]; cbn [mergeRight].
  - by exists [], [].
  - destruct (mergePair_indexable m lm rm Hl Hr) as [[newMsg log1] ->].
    destruct IH as (out & log2 & -> & Hlen). simpl.
    eexists _, _. split; [done|]. simpl. by rewrite Hlen.
Qed.

Lemma mergeValueMessages_length (m : JoinMerge) lmsgs rmsgs :
  Forall (indexable (size (jm_colIndex m)) (Columns (Source (leftStmt m)))) lmsgs ->
  Forall (indexable (size (jm_colIndex m)) (Columns (Source (rightStmt m)))) rmsgs ->
  exists out log, mergeValueMessages m lmsgs rmsgs = Some (out, log)
                  /\ length out = (length lmsgs * length rmsgs)%nat.
Proof.
  intros Hl Hr. induction Hl as [|lm lmsgs Hlm _ IH]; cbn [mergeValueMessages].
  - by exists [], [].
  - destruct (mergeRight_length m lm rmsgs Hlm Hr) as (out1 & log1 & -> & Hlen1).
    destruct IH as (out2 & log2 & -> & Hlen2). simpl.
    eexists _, _. split; [done|]. rewrite length_app. simpl. lia.
Qed.

Lemma length_number (msgs : list SqlDriverMessageMap) : forall i,
  length (number i msgs) = length msgs.
Proof. induction msgs as [|msg msgs IH]; intros i; simpl; [done | by rewrite IH]. Qed.

Lemma emitKey_length (m : JoinMerge) lh rh i keyLeft valLeft :
  tables_indexable m lh rh ->
  lh !! keyLeft = Some valLeft ->
  exists msgs, emitKey m rh i keyLeft valLeft = Some (msgs, advance i (length msgs))
               /\ length msgs = (length valLeft * length (rh !!! keyLeft))%nat.
Proof.
  intros [Hlh Hrh] Hk. unfold emitKey. rewrite lookup_total_alt.
  destruct (rh !! keyLeft) as [valRight|] eqn:Hright; simpl.
  - destruct (mergeValueMessages_length m valLeft valRight) as (out & log & -> & Hlen).
    { by apply (Hlh keyLeft). }
    { by apply (Hrh keyLeft). }
    simpl. exists (number i out). rewrite length_number. done.
  - exists []. split; [done|]. simpl. lia.
Qed.

Lemma emitLoop_length (m : JoinMerge) lh rh order : forall i,
  tables_indexable m lh rh ->
  Forall (fun entry => lh !! entry.1 = Some entry.2) order ->
  exists out, emitLoop m rh i order = (out, true)
              /\ length out = sum_list_with (pairs_of rh) order.
Proof.
  induction order as [|[keyLeft valLeft] order IH]; intros i Hidx Hin; cbn [emitLoop].
  - by exists [].
  - apply Forall_cons in Hin as [Hk Hin]. simpl in Hk.
    destruct (emitKey_length m lh rh i keyLeft valLeft Hidx Hk) as (msgs & -> & Hlen).
    destruct (IH (advance i (length msgs)) Hidx Hin) as (rest & -> & Hrest).
    exists (msgs ++ rest). split; [done|].
    rewrite length_app, Hlen, Hrest. done.
Qed.

Lemma sum_pairs_inner_join (lh rh : gmap string (list SqlDriverMessageMap)) :
  sum_list_with (pairs_of rh) (map_to_list lh) =
  sum_list_with (fun k => (length (lh !!! k) * length (rh !!! k))%nat) (elements (dom lh ∩ dom rh)).
Proof.
  induction lh as [|k valLeft lh Hk IH] using map_ind.
  - rewrite map_to_list_empty, dom_empty_L, intersection_empty_l_L, elements_empty. done.
  - rewrite map_to_list_insert by done. cbn [sum_list_with]. rewrite IH.
    rewrite dom_insert_L.
    assert (Hext : forall X : list string, k ∉ X ->
              sum_list_with (fun k' => (length (<[k:=valLeft]> lh !!! k') * length (rh !!! k'))%nat) X
              = sum_list_with (fun k' => (length (lh !!! k') * length (rh !!! k'))%nat) X).
    { induction X as [|k' X IHX]; intros HX; [done|].
      apply not_elem_of_cons in HX as [Hne HX]. cbn [sum_list_with].
      rewrite IHX by done. rewrite lookup_total_insert_ne by done. done. }
    assert (Hnotin : k ∉ dom lh ∩ dom rh).
    { rewrite elem_of_intersection, elem_of_dom, Hk. intros [[? [=]] _]. }
    destruct (decide (k ∈ dom rh)) as [Hin | Hout].
    + replace (({[k]} ∪ dom lh) ∩ dom rh) with ({[k]} ∪ (dom lh ∩ dom rh))
        by (apply set_eq; intros j; rewrite !elem_of_intersection, !elem_of_union,
              !elem_of_intersection, !elem_of_singleton; intuition (subst; done)).
      rewrite elements_union_singleton by done. cbn [sum_list_with].
      rewrite Hext by (by rewrite elem_of_elements).
      rewrite lookup_total_insert_eq. done.
    + replace (({[k]} ∪ dom lh) ∩ dom rh) with (dom lh ∩ dom rh)
        by (apply set_eq; intros j; rewrite !elem_of_intersection, !elem_of_union,
              !elem_of_singleton; intuition (subst; done)).
      rewrite Hext by (rewrite elem_of_elements; done). unfold pairs_of. simpl.
      apply not_elem_of_dom in Hout. rewrite (lookup_total_alt rh), Hout. simpl. lia.
Qed.

(** C10: [valIndexing] checks [ParentIndex] against both bounds and
    [SourceIndex] against none.  A column whose [ParentIndex] is negative or
    at least [len(valOut)] is skipped: the values computed are those of the
    remaining columns.  A column whose [ParentIndex] is in range is not
    skipped: the call continues with [valOut[ParentIndex]] set to
    [valSource[SourceIndex]] when that read is in range, and panics when it
    is not.  So the call returns exactly when every column with an in-range
    [ParentIndex] has [0 <= SourceIndex < len(valSource)], and panics
    exactly when some column violates that. *)
Theorem valIndexing_checks_ParentIndex_only
    (valOut valSource : list Raw) (col : Column Node) (cols : list (Column Node)) :
  (~ writes (length valOut) col ->
     fst <$> valIndexing valOut valSource (col :: cols)
     = fst <$> valIndexing valOut valSource cols)
  /\ (writes (length valOut) col ->
        valIndexing valOut valSource (col :: cols)
        = v ← index valSource (SourceIndex col);
          valIndexing (<[Z.to_nat (ParentIndex col) := v]> valOut) valSource cols)
  /\ (writes (length valOut) col -> ~ reads_inside (length valSource) col ->
        valIndexing valOut valSource (col :: cols) = None)
  /\ (is_Some (valIndexing valOut valSource cols) <->
        Forall (fun col => writes (length valOut) col -> reads_inside (length valSource) col) cols)
  /\ (valIndexing valOut valSource cols = None <->
        Exists (fun col => writes (length valOut) col /\ ~ reads_inside (length valSource) col) cols).
Proof.
  split; [apply valIndexing_skip|].
  split; [apply valIndexing_write|].
  split.
  { intros Hw Hr. rewrite valIndexing_write by done.
    apply index_None in Hr. by rewrite Hr. }
  split; [apply valIndexing_total | apply valIndexing_panics].
Qed.

End JoinMergeFacts.

(** ** exec/join.go: [JoinKey.Run] *)

Section JoinKeyFacts.
Context `{host : Host} `{collaborators : !Collaborators}.

Lemma joinVals_ok (mt : SqlDriverMessageMap) (joinNodes : list Node) (vs : list Value) :
  Forall2 (evaluates mt) joinNodes vs ->
  joinVals mt joinNodes = JoinValsOk (ToString <$> vs).
Proof.
  induction 1 as [|node v joinNodes vs Hv _ IH]; cbn [joinVals]; [done|].
  unfold evaluates in Hv. rewrite Hv. simpl. by rewrite IH.
Qed.

Lemma joinVals_not_ok (mt : SqlDriverMessageMap) (pre post : list Node) (node : Node)
    (vs : list Value) :
  Forall2 (evaluates mt) pre vs ->
  fails mt node ->
  joinVals mt (pre ++ node :: post) = JoinValsNotOk.
Proof.
  intros Hpre Hfail. induction Hpre as [|n v pre vs Hv _ IH]; cbn [joinVals app].
  - unfold fails in Hfail. destruct (Eval _ (Some node)) as [joinVal ok].
    simpl in Hfail. by rewrite Hfail.
  - unfold evaluates in Hv. rewrite Hv. simpl. by rewrite IH.
Qed.

Lemma recv_cons (msg : Message) (rest : list Message) (c : Chan) :
  buf c = msg :: rest ->
  recv c = Some (Some msg, tail_of c rest).
Proof. unfold recv. by intros ->. Qed.

Lemma joinVals_panics (mt : SqlDriverMessageMap) (pre post : list Node) (node : Node)
    (vs : list Value) :
  Forall2 (evaluates mt) pre vs ->
  Eval (MsgSqlDriverMessageMap mt) (Some node) = (None, true) ->
  joinVals mt (pre ++ node :: post) = JoinValsPanic.
Proof.
  intros Hpre Hnil. induction Hpre as [|n v pre vs Hv _ IH]; cbn [joinVals app].
  - by rewrite Hnil.
  - unfold evaluates in Hv. rewrite Hv. simpl. by rewrite IH.
Qed.

(** C2, on the code: when [JoinKey] receives a [SqlDriverMessageMap] each
    of whose join nodes evaluates to a value, the message's key becomes the
    [ToString()] forms of those values, in join-node order, joined by the
    single byte 0, nothing else of the message changes, and as soon as
    [outCh] has room that same message is the one appended to it; [Run] is
    then back at its [select] with the rest of the input still to read.
    When instead a join node evaluates with [ok] true to the [nil] value
    (the nodes before it having evaluated to values), [joinVal.ToString()]
    of line 93 panics: the deferred recover ends [Run], [outCh] is closed
    with nothing sent for the row, and the rest of the input is never
    read. *)
Theorem JoinKey_keys_and_forwards_unless_a_value_is_nil (from : SqlSource Node)
    (task : TaskBase) (log : list LogLine) (mt : SqlDriverMessageMap) (rest : list Message) :
  buf (msgInCh task) = MsgSqlDriverMessageMap mt :: rest ->
  (forall (vs : list Value) (arm : Arm),
     Forall2 (evaluates mt) (JoinNodes from) vs ->
     (length (buf (msgOutCh task)) < cap (msgOutCh task))%nat ->
     JoinKey_exec from [ArmMsg; arm] {| jk_task := task; jk_pc := JK_Select; jk_log := log |}
     = {| jk_task :=
            {| msgInCh := {| buf := rest; cap := cap (msgInCh task);
                             closed := closed (msgInCh task) |};
               msgOutCh :=
                 {| buf := buf (msgOutCh task)
                           ++ [MsgSqlDriverMessageMap
                                 {| IdVal := IdVal mt; Vals := Vals mt; colIndex := colIndex mt;
                                    keyVal := String.concat (String (ascii_of_nat 0) EmptyString)
                                                            (ToString <$> vs) |}];
                    cap := cap (msgOutCh task);
                    closed := closed (msgOutCh task) |};
               sigCh := sigCh task |};
          jk_pc := JK_Select;
          jk_log := log |})
  /\ (forall (pre post : list Node) (node : Node) (vs : list Value),
        JoinNodes from = pre ++ node :: post ->
        Forall2 (evaluates mt) pre vs ->
        Eval (MsgSqlDriverMessageMap mt) (Some node) = (None, true) ->
        JoinKey_Run from ArmMsg {| jk_task := task; jk_pc := JK_Select; jk_log := log |}
        = Stepped
            {| jk_task :=
                 {| msgInCh := {| buf := rest; cap := cap (msgInCh task);
                                  closed := closed (msgInCh task) |};
                    msgOutCh := {| buf := buf (msgOutCh task); cap := cap (msgOutCh task);
                                   closed := true |};
                    sigCh := sigCh task |};
               jk_pc := JK_Returned None true;
               jk_log := log |}
        /\ forall sched,
             JoinKey_exec from (ArmMsg :: sched)
               {| jk_task := task; jk_pc := JK_Select; jk_log := log |}
             = {| jk_task :=
                    {| msgInCh := {| buf := rest; cap := cap (msgInCh task);
                                     closed := closed (msgInCh task) |};
                       msgOutCh := {| buf := buf (msgOutCh task); cap := cap (msgOutCh task);
                                      closed := true |};
                       sigCh := sigCh task |};
                  jk_pc := JK_Returned None true;
                  jk_log := log |}).
Proof.
  intros Hin. split.
  - intros vs arm Hvs Hroom. unfold JoinKey_exec. cbn [foldl].
    unfold JoinKey_Run at 2. cbn [jk_pc jk_task jk_log].
    rewrite (recv_cons _ _ _ Hin), (joinVals_ok _ _ _ Hvs).
    unfold JoinKey_Run. cbn [jk_pc jk_task jk_log with_in msgOutCh].
    unfold can_send. apply Nat.ltb_lt in Hroom. rewrite Hroom. reflexivity.
  - intros pre post node vs Hnodes Hpre Hnil.
    assert (Hstep : JoinKey_Run from ArmMsg
                      {| jk_task := task; jk_pc := JK_Select; jk_log := log |}
                    = Stepped
                        {| jk_task :=
                             {| msgInCh := {| buf := rest; cap := cap (msgInCh task);
                                              closed := closed (msgInCh task) |};
                                msgOutCh := {| buf := buf (msgOutCh task);
                                               cap := cap (msgOutCh task); closed := true |};
                                sigCh := sigCh task |};
                           jk_pc := JK_Returned None true;
                           jk_log := log |}).
    { unfold JoinKey_Run. cbn [jk_pc jk_task jk_log].
      rewrite (recv_cons _ _ _ Hin), Hnodes, (joinVals_panics _ _ _ _ _ Hpre Hnil).
      reflexivity. }
    split; [exact Hstep|]. intros sched. unfold JoinKey_exec. cbn [foldl]. rewrite Hstep.
    induction sched as [|arm sched IH]; [reflexivity|]. cbn [foldl]. exact IH.
Qed.

(** C7: when [JoinKey] receives a row and its loop over the join nodes
    meets a node whose evaluation fails (the nodes before it having
    evaluated to values), the row is dropped: an error line is logged,
    nothing is sent on [outCh], [Run] does not return but is back at its
    [select], and the next message on the input is received from there. *)
Theorem JoinKey_drops_row_on_failed_evaluation (from : SqlSource Node) (task : TaskBase)
    (log : list LogLine) (mt : SqlDriverMessageMap) (rest : list Message)
    (pre post : list Node) (node : Node) (vs : list Value) :
  buf (msgInCh task) = MsgSqlDriverMessageMap mt :: rest ->
  JoinNodes from = pre ++ node :: post ->
  Forall2 (evaluates mt) pre vs ->
  fails mt node ->
  let after := {| jk_task := with_in (tail_of (msgInCh task) rest) task;
                  jk_pc := JK_Select;
                  jk_log := log ++ [Errorf "could not evaluate: %T %#v   %v"] |} in
  JoinKey_Run from ArmMsg {| jk_task := task; jk_pc := JK_Select; jk_log := log |}
  = Stepped after
  /\ msgOutCh (jk_task after) = msgOutCh task
  /\ (forall next rest', rest = next :: rest' ->
        exists s, JoinKey_Run from ArmMsg after = Stepped s
                  /\ buf (msgInCh (jk_task s)) = rest').
Proof.
  intros Hin Hnodes Hpre Hfail after. split; [|split; [done|]].
  - unfold JoinKey_Run. cbn [jk_pc jk_task jk_log].
    rewrite (recv_cons _ _ _ Hin), Hnodes, (joinVals_not_ok _ _ _ _ _ Hpre Hfail). done.
  - intros next rest' ->. unfold JoinKey_Run, after. cbn [jk_pc jk_task jk_log].
    unfold recv. cbn [msgInCh with_in tail_of buf].
    destruct next as [mt'| | | |]; try (eexists; split; [reflexivity | done]).
    destruct (joinVals mt' (JoinNodes from)); eexists; (split; [reflexivity | done]).
Qed.
End JoinKeyFacts.

(** Scenario 3 of the spec: the row [{first: ann, last: lee}] with join
    nodes [first, last] is sent on with the key [ann], byte 0, [lee].  The
    row [{first: ann, last: NULL}], under an evaluator that reads NULL as
    the [nil] value, ends [Run]: nothing is sent and the row [ann, lee]
    behind it is never read. *)
Lemma JoinKey_keys_and_forwards_unless_a_value_is_nil_witness :
  buf (msgOutCh (jk_task
         (@JoinKey_exec scenario.host scenario.collaborators scenario.from_first_last
            [ArmMsg; ArmSig]
            {| jk_task := scenario.task_ann_lee; jk_pc := JK_Select; jk_log := [] |})))
  = [MsgSqlDriverMessageMap
       {| IdVal := 7;
          Vals := [RawString "ann"; RawString "lee"];
          colIndex := <["last"%string := 1]> {[ "first"%string := 0 ]};
          keyVal := String "a" (String "n" (String "n" (String (ascii_of_nat 0) "lee"))) |}]
  /\ (forall sched,
        let s := @JoinKey_exec scenario.host scenario.collaborators_null_is_nil
                   scenario.from_first_last (ArmMsg :: sched)
                   {| jk_task := scenario.task_ann_null; jk_pc := JK_Select; jk_log := [] |} in
        jk_pc s = JK_Returned None true
        /\ buf (msgOutCh (jk_task s)) = []
        /\ closed (msgOutCh (jk_task s)) = true
        /\ buf (msgInCh (jk_task s)) = [MsgSqlDriverMessageMap scenario.row_ann_lee]).
Proof.
  split.
  - destruct (@JoinKey_keys_and_forwards_unless_a_value_is_nil scenario.host
                scenario.collaborators scenario.from_first_last scenario.task_ann_lee []
                scenario.row_ann_lee [] eq_refl) as [Hkeyed _].
    rewrite (Hkeyed [StringValue "ann"; StringValue "lee"] ArmSig).
    + reflexivity.
    + repeat constructor.
    + vm_compute. lia.
  - intros sched.
    destruct (@JoinKey_keys_and_forwards_unless_a_value_is_nil scenario.host
                scenario.collaborators_null_is_nil scenario.from_first_last
                scenario.task_ann_null [] scenario.row_ann_null
                [MsgSqlDriverMessageMap scenario.row_ann_lee] eq_refl) as [_ Hnil].
    destruct (Hnil [scenario.Ident "first"] [] (scenario.Ident "last") [StringValue "ann"])
      as [_ Hexec].
    + reflexivity.
    + repeat constructor.
    + reflexivity.
    + cbn zeta. rewrite Hexec. repeat split.
Defined.

(** A join on [first, missing]: [first] evaluates, [missing] does not, and
    the row is dropped. *)
Lemma JoinKey_drops_row_on_failed_evaluation_witness :
  @JoinKey_Run scenario.host scenario.collaborators scenario.from_first_missing ArmMsg
    {| jk_task := scenario.task_ann_lee; jk_pc := JK_Select; jk_log := [] |}
  = Stepped {| jk_task := with_in (tail_of (msgInCh scenario.task_ann_lee) [])
                                  scenario.task_ann_lee;
               jk_pc := JK_Select;
               jk_log := [Errorf "could not evaluate: %T %#v   %v"] |}.
Proof.
  destruct (@JoinKey_drops_row_on_failed_evaluation scenario.host scenario.collaborators
              scenario.from_first_missing scenario.task_ann_lee [] scenario.row_ann_lee []
              [scenario.Ident "first"] [] (scenario.Ident "missing") [StringValue "ann"])
    as (Hstep & _).
  - reflexivity.
  - reflexivity.
  - repeat constructor.
  - reflexivity.
  - exact Hstep.
Defined.

(** ** exec/join.go: [JoinMerge.Run] *)

Section JoinMergeRun.
Context `{host : Host} `{collaborators : !Collaborators}.

Lemma JoinMerge_start_consistent (outCh leftIn rightIn : Chan) :
  wg_consistent (JoinMerge_start outCh leftIn rightIn).
Proof. split; [reflexivity | done]. Qed.

(** What a turn of an ingest goroutine can change. *)
Lemma JoinMerge_worker_effect (side : Side) (arm : Arm) (s s' : JoinMergeState) :
  JoinMerge_worker side arm s = Stepped s' ->
  worker (side_of side s) = W_Running
  /\ jm_pc s' = jm_pc s
  /\ side_of (other side) s' = side_of (other side) s
  /\ jm_wg s' = jm_wg s + owes (worker (side_of side s')) - 1.
Proof.
  unfold JoinMerge_worker. intros Hstep.
  destruct (jm_crashed s); [done|].
  destruct (worker (side_of side s)) eqn:Hw; try done.
  split; [done|].
  destruct (ingest _ arm _); try done; injection Hstep as <-;
    destruct side; cbn; rewrite ?Hw; repeat split; lia.
Qed.

Lemma JoinMerge_main_effect (m : JoinMerge) (pick : string) (s s' : JoinMergeState) :
  JoinMerge_main m pick s = Stepped s' ->
  jm_left s' = jm_left s /\ jm_right s' = jm_right s /\ jm_wg s' = jm_wg s
  /\ jm_fatalErr s' = jm_fatalErr s
  /\ (jm_pc s = M_Wait -> jm_wg s = 0)
  /\ (forall err recovered, jm_pc s' = M_Returned err recovered -> err = None).
Proof.
  unfold JoinMerge_main. intros Hstep.
  destruct (jm_crashed s); [done|].
  destruct (jm_pc s) as [|todo i|msgs todo i|err recovered] eqn:Hpc.
  - destruct (Z.eqb_spec (jm_wg s) 0); [|done]. injection Hstep as <-.
    cbn. repeat split; done.
  - destruct (bool_decide (todo = ∅)).
    { injection Hstep as <-. cbn. repeat split; try done. by intros ? ? [= <- _]. }
    destruct (todo !! pick); [|done].
    destruct (table (jm_right s) !! pick).
    + destruct (mergeValueMessages m _ _) as [[msgs log]|]; injection Hstep as <-;
        cbn; repeat split; try done. by intros ? ? [= <- _].
    + injection Hstep as <-. cbn. repeat split; done.
  - destruct msgs as [|msg msgs].
    + injection Hstep as <-. cbn. repeat split; done.
    + destruct (can_send _); [|done]. injection Hstep as <-. cbn. repeat split; done.
  - done.
Qed.

Lemma JoinMerge_Run_consistent (m : JoinMerge) (a : Action) (s s' : JoinMergeState) :
  JoinMerge_Run m a s = Stepped s' -> wg_consistent s -> wg_consistent s'.
Proof.
  intros Hstep [Hwg Hpc]. destruct a as [side arm|pick| |]; cbn [JoinMerge_Run] in Hstep.
  - apply JoinMerge_worker_effect in Hstep as (Hrun & Hpc' & Hother & Hwg').
    assert (Hwait : jm_pc s = M_Wait).
    { destruct (jm_pc s) eqn:Hs; [done| | |];
        (assert (Hzero : jm_wg s = 0) by (apply Hpc; congruence));
        destruct side; cbn in Hrun; rewrite Hrun in Hwg;
        destruct (worker (jm_left s)), (worker (jm_right s)); cbn in Hwg; lia. }
    split; [|by rewrite Hpc', Hwait].
    rewrite Hwg', Hwg. destruct side; cbn in *; rewrite Hother, Hrun; cbn; lia.
  - apply JoinMerge_main_effect in Hstep as (Hl & Hr & Hwg' & _ & Hwait & _).
    unfold wg_consistent. rewrite Hl, Hr, Hwg'. split; [done|]. intros _.
    destruct (jm_pc s) eqn:Hs; [by apply Hwait | | |]; by apply Hpc.
  - destruct (_ || _); [done|]. injection Hstep as <-. by split.
  - destruct (recv _) as [[[msg|] outCh]|]; try done. injection Hstep as <-. by split.
Qed.

(** [Run] has no [return] that carries an error. *)
Lemma JoinMerge_Run_returns_nil (m : JoinMerge) (a : Action) (s s' : JoinMergeState) :
  JoinMerge_Run m a s = Stepped s' ->
  (forall err recovered, jm_pc s = M_Returned err recovered -> err = None) ->
  forall err recovered, jm_pc s' = M_Returned err recovered -> err = None.
Proof.
  intros Hstep Hs. destruct a as [side arm|pick| |]; cbn [JoinMerge_Run] in Hstep.
  - apply JoinMerge_worker_effect in Hstep as (_ & -> & _). done.
  - by apply JoinMerge_main_effect in Hstep as (_ & _ & _ & _ & _ & Hret).
  - destruct (_ || _); [done|]. by injection Hstep as <-.
  - destruct (recv _) as [[[msg|] outCh]|]; try done. by injection Hstep as <-.
Qed.

(** Once an ingest goroutine has returned without [wg.Done()], [Run] stays
    at [wg.Wait()]. *)
Lemma JoinMerge_Run_abandoned (m : JoinMerge) (a : Action) (s s' : JoinMergeState) :
  JoinMerge_Run m a s = Stepped s' -> abandoned s -> abandoned s'.
Proof.
  intros Hstep (Hcons & Hquit & Hwait).
  split; [by eapply JoinMerge_Run_consistent|].
  destruct a as [side arm|pick| |]; cbn [JoinMerge_Run] in Hstep.
  - apply JoinMerge_worker_effect in Hstep as (Hrun & Hpc' & Hother & _).
    split; [|by rewrite Hpc'].
    destruct side; cbn in *; rewrite Hother; destruct Hquit as [Hq|Hq]; auto; congruence.
  - apply JoinMerge_main_effect in Hstep as (_ & _ & _ & _ & Hzero & _).
    destruct Hcons as [Hwg _]. specialize (Hzero Hwait).
    destruct Hquit as [Hq|Hq]; rewrite Hq in Hwg;
      destruct (worker (jm_left s)), (worker (jm_right s)); cbn in Hwg; lia.
  - destruct (_ || _); [done|]. by injection Hstep as <-.
  - destruct (recv _) as [[[msg|] outCh]|]; try done. by injection Hstep as <-.
Qed.

Lemma JoinMerge_exec_abandoned (m : JoinMerge) (sched : list Action) : forall s,
  abandoned s -> abandoned (JoinMerge_exec m sched s).
Proof.
  induction sched as [|a sched IH]; intros s Hs; [done|].
  unfold JoinMerge_exec. cbn [foldl]. apply IH.
  destruct (JoinMerge_Run m a s) eqn:Hstep; [by eapply JoinMerge_Run_abandoned | done | done].
Qed.

Lemma JoinMerge_exec_consistent (m : JoinMerge) (sched : list Action) : forall s,
  wg_consistent s -> wg_consistent (JoinMerge_exec m sched s).
Proof.
  induction sched as [|a sched IH]; intros s Hs; [done|].
  unfold JoinMerge_exec. cbn [foldl]. apply IH.
  destruct (JoinMerge_Run m a s) eqn:Hstep; [by eapply JoinMerge_Run_consistent | done | done].
Qed.

Lemma JoinMerge_exec_returns_nil (m : JoinMerge) (sched : list Action) : forall s,
  (forall err recovered, jm_pc s = M_Returned err recovered -> err = None) ->
  forall err recovered, jm_pc (JoinMerge_exec m sched s) = M_Returned err recovered -> err = None.
Proof.
  induction sched as [|a sched IH]; intros s Hs; [done|].
  unfold JoinMerge_exec. cbn [foldl]. apply IH.
  destruct (JoinMerge_Run m a s) eqn:Hstep; [by eapply JoinMerge_Run_returns_nil | done | done].
Qed.


Lemma running_means_waiting (side : Side) (s : JoinMergeState) :
  wg_consistent s -> worker (side_of side s) = W_Running -> jm_pc s = M_Wait.
Proof.
  intros [Hwg Hpc] Hrun.
  destruct (jm_pc s) eqn:Hs; [done| | |];
    (assert (Hzero : jm_wg s = 0) by (apply Hpc; congruence));
    destruct side; cbn in Hrun; rewrite Hrun in Hwg;
    destruct (worker (jm_left s)), (worker (jm_right s)); cbn in Hwg; lia.
Qed.

(** C1, on the code: when a row whose [Key()] is empty is received by
    either ingest goroutine, [sigCh] is closed and [fatalErr] is set to the
    error that carries the row, but the goroutine returns without
    [wg.Done()], so under every schedule [Run] stays at [wg.Wait()] and
    never returns; and under no schedule at all does [Run] return an
    error. *)
Theorem JoinMerge_empty_key_closes_sigCh_and_hangs (m : JoinMerge) (side : Side)
    (s : JoinMergeState) (mt : SqlDriverMessageMap) (rest : list Message) :
  wg_consistent s ->
  jm_crashed s = false ->
  worker (side_of side s) = W_Running ->
  buf (in_ch (side_of side s)) = MsgSqlDriverMessageMap mt :: rest ->
  Key mt = EmptyString ->
  (exists s1, JoinMerge_Run m (ActWorker side ArmMsg) s = Stepped s1
              /\ sigCh (jm_task s1) = true
              /\ jm_fatalErr s1 = Some (Errorf_row no_key_format (Row mt))
              /\ forall sched, jm_pc (JoinMerge_exec m sched s1) = M_Wait)
  /\ (forall outCh leftIn rightIn sched err recovered,
        jm_pc (JoinMerge_exec m sched (JoinMerge_start outCh leftIn rightIn))
        = M_Returned err recovered -> err = None).
Proof.
  intros Hcons Hlive Hrun Hin Hkey. split.
  - pose proof (running_means_waiting side s Hcons Hrun) as Hwait.
    assert (Hstep : exists s1, JoinMerge_Run m (ActWorker side ArmMsg) s = Stepped s1
                      /\ sigCh (jm_task s1) = true
                      /\ jm_fatalErr s1 = Some (Errorf_row no_key_format (Row mt))
                      /\ worker (side_of side s1) = W_Quit).
    { cbn [JoinMerge_Run]. unfold JoinMerge_worker, ingest.
      rewrite Hlive, Hrun, (recv_cons _ _ _ Hin), Hkey. cbn.
      eexists. split; [reflexivity|]. destruct side; done. }
    destruct Hstep as (s1 & Hstep & Hsig & Hfatal & Hquit).
    exists s1. repeat split; try done.
    intros sched. apply JoinMerge_exec_abandoned.
    split; [by eapply JoinMerge_Run_consistent|].
    cbn [JoinMerge_Run] in Hstep.
    apply JoinMerge_worker_effect in Hstep as (_ & Hpc' & _).
    split; [destruct side; auto | by rewrite Hpc'].
  - intros outCh leftIn rightIn sched. by apply JoinMerge_exec_returns_nil.
Qed.

Lemma JoinMerge_exec_app (m : JoinMerge) (sched1 sched2 : list Action) (s : JoinMergeState) :
  JoinMerge_exec m (sched1 ++ sched2) s = JoinMerge_exec m sched2 (JoinMerge_exec m sched1 s).
Proof. unfold JoinMerge_exec. apply foldl_app. Qed.

Lemma JoinMerge_exec_step (m : JoinMerge) (a : Action) (s s' : JoinMergeState) :
  JoinMerge_Run m a s = Stepped s' -> JoinMerge_exec m [a] s = s'.
Proof. unfold JoinMerge_exec. cbn. by intros ->. Qed.

(** The inner loop of lines 268-274, given room on [outCh]. *)
Lemma Run_sends_numbered (m : JoinMerge) (msgs : list SqlDriverMessageMap) :
  forall (s : JoinMergeState) todo i,
    jm_crashed s = false ->
    jm_pc s = M_Send msgs todo i ->
    (length (buf (msgOutCh (jm_task s))) + length msgs <= cap (msgOutCh (jm_task s)))%nat ->
    exists sched,
      let s' := JoinMerge_exec m sched s in
      jm_pc s' = M_Range todo (advance i (length msgs))
      /\ buf (msgOutCh (jm_task s'))
         = buf (msgOutCh (jm_task s)) ++ (MsgSqlDriverMessageMap <$> number i msgs)
      /\ same_surroundings s s'.
Proof.
  induction msgs as [|msg msgs IH]; intros s todo i Hlive Hpc Hroom.
  - exists [ActMain EmptyString].
    assert (Hstep : JoinMerge_Run m (ActMain EmptyString) s
                    = Stepped (after_main (jm_task s) (M_Range todo i) (jm_log s) s)).
    { cbn [JoinMerge_Run]. unfold JoinMerge_main. by rewrite Hlive, Hpc. }
    rewrite (JoinMerge_exec_step _ _ _ _ Hstep). cbn.
    rewrite app_nil_r. done.
  - cbn [length] in Hroom.
    set (s1 := after_main
                 (with_out (send (MsgSqlDriverMessageMap (SetIdVal i msg)) (msgOutCh (jm_task s)))
                           (jm_task s))
                 (M_Send msgs todo (uint64_wrap (i + 1))) (jm_log s) s).
    assert (Hstep : JoinMerge_Run m (ActMain EmptyString) s = Stepped s1).
    { cbn [JoinMerge_Run]. unfold JoinMerge_main. rewrite Hlive, Hpc.
      unfold can_send. destruct (Nat.ltb_spec (length (buf (msgOutCh (jm_task s))))
                                              (cap (msgOutCh (jm_task s)))); [done | lia]. }
    destruct (IH s1 todo (uint64_wrap (i + 1))) as (sched & Hpc' & Hbuf & Hsame).
    + done.
    + done.
    + subst s1. cbn. rewrite length_app. cbn. lia.
    + exists (ActMain EmptyString :: sched).
      change (ActMain EmptyString :: sched) with ([ActMain EmptyString] ++ sched).
      rewrite JoinMerge_exec_app, (JoinMerge_exec_step _ _ _ _ Hstep).
      cbn zeta in *. split; [|split].
      * rewrite Hpc'. cbn [length]. f_equal. unfold advance.
        exact (Nat.iter_swap (length msgs) _ (fun i => uint64_wrap (i + 1)) i).
      * rewrite Hbuf. subst s1. cbn. by rewrite <- app_assoc.
      * destruct Hsame as (Hc & Hr & Hcap). subst s1. cbn in *. done.
Qed.


(** The emission loop of [Run], visiting the left table in [order], with
    room on [outCh] for what it sends: it sends what [emitLoop] computes and
    returns [nil], after a recovered panic when [emitLoop] did not
    complete. *)
Lemma Run_emits_emitLoop (m : JoinMerge) (order : list (string * list SqlDriverMessageMap)) :
  forall (s : JoinMergeState) todo i,
    jm_crashed s = false ->
    jm_pc s = M_Range todo i ->
    order ≡ₚ map_to_list todo ->
    (length (buf (msgOutCh (jm_task s)))
     + length (emitLoop m (table (jm_right s)) i order).1 <= cap (msgOutCh (jm_task s)))%nat ->
    exists sched,
      let s' := JoinMerge_exec m sched s in
      jm_pc s' = M_Returned None (negb (emitLoop m (table (jm_right s)) i order).2)
      /\ buf (msgOutCh (jm_task s'))
         = buf (msgOutCh (jm_task s))
           ++ (MsgSqlDriverMessageMap <$> (emitLoop m (table (jm_right s)) i order).1)
      /\ closed (msgOutCh (jm_task s')) = true.
Proof.
  induction order as [|[keyLeft valLeft] order IH]; intros s todo i Hlive Hpc Hperm Hroom.
  - apply Permutation_nil in Hperm. apply map_to_list_empty_iff in Hperm.
    subst todo. exists [ActMain EmptyString].
    erewrite JoinMerge_exec_step; last first.
    { cbn [JoinMerge_Run]. unfold JoinMerge_main. rewrite Hlive, Hpc.
      rewrite bool_decide_eq_true_2 by done. reflexivity. }
    cbn. by rewrite app_nil_r.
  - assert (Hk : todo !! keyLeft = Some valLeft).
    { apply elem_of_map_to_list. rewrite <- Hperm. left. }
    assert (Hne : todo <> ∅).
    { intros ->. by rewrite lookup_empty in Hk. }
    assert (Hperm' : order ≡ₚ map_to_list (delete keyLeft todo)).
    { apply (Permutation_cons_inv (a := (keyLeft, valLeft))).
      rewrite Hperm. symmetry. by apply map_to_list_delete. }
    cbn [emitLoop] in *. unfold emitKey in *.
    destruct (table (jm_right s) !! keyLeft) as [valRight|] eqn:Hright.
    + destruct (mergeValueMessages m valLeft valRight) as [[msgs log]|] eqn:Hmerge; cbn in *.
      * set (s1 := after_main (jm_task s) (M_Send msgs (delete keyLeft todo) i)
                              (jm_log s ++ log) s).
        assert (Hstep : JoinMerge_Run m (ActMain keyLeft) s = Stepped s1).
        { cbn [JoinMerge_Run]. unfold JoinMerge_main. rewrite Hlive, Hpc.
          rewrite bool_decide_eq_false_2 by done. by rewrite Hk, Hright, Hmerge. }
        destruct (emitLoop m (table (jm_right s)) (advance i (length msgs)) order)
          as [rest completed] eqn:Hloop.
        cbn in Hroom. rewrite length_app in Hroom.
        destruct (Run_sends_numbered m msgs s1 (delete keyLeft todo) i)
          as (sched1 & Hpc1 & Hbuf1 & Hlive1 & Hright1 & Hcap1).
        { done. }
        { done. }
        { subst s1. cbn. rewrite length_number in Hroom. lia. }
        cbn zeta in *.
        destruct (IH (JoinMerge_exec m sched1 s1) (delete keyLeft todo)
                     (advance i (length msgs)))
          as (sched2 & Hpc2 & Hbuf2 & Hclosed2).
        { by rewrite Hlive1. }
        { done. }
        { done. }
        { rewrite Hright1, Hcap1, Hbuf1. subst s1. cbn.
          rewrite Hloop. cbn.
          rewrite length_app, length_fmap. lia. }
        exists ([ActMain keyLeft] ++ sched1 ++ sched2).
        rewrite !JoinMerge_exec_app, (JoinMerge_exec_step _ _ _ _ Hstep).
        cbn zeta in *. rewrite Hright1 in *. subst s1. cbn in *.
        rewrite Hloop in *. cbn in *.
        split; [done|]. split; [|done].
        rewrite Hbuf2, Hbuf1, fmap_app. by rewrite <- app_assoc.
      * exists [ActMain keyLeft].
        erewrite JoinMerge_exec_step; last first.
        { cbn [JoinMerge_Run]. unfold JoinMerge_main. rewrite Hlive, Hpc.
          rewrite bool_decide_eq_false_2 by done. rewrite Hk, Hright, Hmerge. reflexivity. }
        cbn. by rewrite app_nil_r.
    + cbn in *.
      set (s1 := after_main (jm_task s) (M_Range (delete keyLeft todo) i) (jm_log s) s).
      assert (Hstep : JoinMerge_Run m (ActMain keyLeft) s = Stepped s1).
      { cbn [JoinMerge_Run]. unfold JoinMerge_main. rewrite Hlive, Hpc.
        rewrite bool_decide_eq_false_2 by done. by rewrite Hk, Hright. }
      destruct (emitLoop m (table (jm_right s)) i order) as [rest completed] eqn:Hloop.
      destruct (IH s1 (delete keyLeft todo) i) as (sched & Hpc' & Hbuf & Hclosed).
      { done. }
      { done. }
      { done. }
      { subst s1. cbn. rewrite Hloop. done. }
      exists ([ActMain keyLeft] ++ sched).
      rewrite JoinMerge_exec_app, (JoinMerge_exec_step _ _ _ _ Hstep).
      cbn zeta in *. subst s1. cbn in *. rewrite Hloop in *. done.
Qed.

Lemma mergePair_is_Some (m : JoinMerge) (lm rm : SqlDriverMessageMap) :
  is_Some (mergePair m lm rm) <->
  indexable (size (jm_colIndex m)) (Columns (Source (leftStmt m))) lm
  /\ indexable (size (jm_colIndex m)) (Columns (Source (rightStmt m))) rm.
Proof.
  split; [|intros [Hl Hr]; by apply mergePair_indexable].
  unfold mergePair, indexable. intros Hsome.
  destruct (valIndexing (replicate (size (jm_colIndex m)) RawNil) (Values lm)
              (Columns (Source (leftStmt m)))) as [[vals log1]|] eqn:Hleft;
    [|by destruct Hsome].
  cbn in Hsome.
  destruct (valIndexing vals (Values rm) (Columns (Source (rightStmt m))))
    as [[vals' log2]|] eqn:Hright; [|by destruct Hsome].
  apply valIndexing_length in Hleft as Hlen. rewrite length_replicate in Hlen.
  split.
  - rewrite <- (length_replicate (size (jm_colIndex m)) (RawNil : Raw)).
    apply valIndexing_total. by rewrite Hleft.
  - rewrite <- Hlen. apply valIndexing_total. by rewrite Hright.
Qed.

Lemma mergeRight_is_Some (m : JoinMerge) (lm : SqlDriverMessageMap)
    (rmsgs : list SqlDriverMessageMap) :
  is_Some (mergeRight m lm rmsgs) <-> mergeable m [lm] rmsgs.
Proof.
  unfold mergeable. induction rmsgs as [|rm rmsgs IH]; cbn [mergeRight].
  - split; [done | by eexists].
  - rewrite Forall_singleton, Forall_cons.
    destruct (mergePair m lm rm) as [[newMsg log1]|] eqn:Hpair; cbn.
    + assert (Hp : is_Some (mergePair m lm rm)) by by rewrite Hpair.
      apply mergePair_is_Some in Hp as [Hl Hr].
      destruct (mergeRight m lm rmsgs) as [[out log2]|] eqn:Hrest; cbn.
      * split; [|by eexists]. intros _. split; [done|]. split; [done|].
        destruct rmsgs as [|rm' rmsgs]; [constructor|].
        apply IH. by eexists.
      * split; [by intros []|]. intros (_ & _ & Hall). apply IH.
        destruct rmsgs as [|rm' rmsgs]; [done|]. rewrite Forall_singleton. done.
    + split; [by intros []|]. intros (Hl & Hr & _).
      assert (Hp : is_Some (mergePair m lm rm)) by by apply mergePair_is_Some.
      rewrite Hpair in Hp. by destruct Hp.
Qed.

Lemma mergeRight_Some_length (m : JoinMerge) (lm : SqlDriverMessageMap)
    (rmsgs : list SqlDriverMessageMap) : forall out log,
  mergeRight m lm rmsgs = Some (out, log) -> length out = length rmsgs.
Proof.
  induction rmsgs as [|rm rmsgs IH]; intros out log; cbn [mergeRight].
  - by intros [= <- _].
  - destruct (mergePair m lm rm) as [[newMsg log1]|]; [|done]. cbn.
    destruct (mergeRight m lm rmsgs) as [[out' log2]|]; [|done]. cbn.
    intros [= <- _]. cbn. by rewrite (IH out' log2).
Qed.

Lemma mergeValueMessages_Some_length (m : JoinMerge)
    (lmsgs rmsgs : list SqlDriverMessageMap) : forall out log,
  mergeValueMessages m lmsgs rmsgs = Some (out, log) ->
  length out = (length lmsgs * length rmsgs)%nat.
Proof.
  induction lmsgs as [|lm lmsgs IH]; intros out log; cbn [mergeValueMessages].
  - by intros [= <- _].
  - destruct (mergeRight m lm rmsgs) as [[out1 log1]|] eqn:Hright; [|done]. cbn.
    destruct (mergeValueMessages m lmsgs rmsgs) as [[out2 log2]|]; [|done]. cbn.
    intros [= <- _]. rewrite length_app, (mergeRight_Some_length _ _ _ _ _ Hright),
      (IH out2 log2) by done. cbn. lia.
Qed.

Lemma mergeValueMessages_is_Some (m : JoinMerge) (lmsgs rmsgs : list SqlDriverMessageMap) :
  is_Some (mergeValueMessages m lmsgs rmsgs) <-> mergeable m lmsgs rmsgs.
Proof.
  induction lmsgs as [|lm lmsgs IH]; cbn [mergeValueMessages].
  - split; [done | by eexists].
  - destruct (mergeRight m lm rmsgs) as [[out1 log1]|] eqn:Hright; cbn.
    + assert (Hr : mergeable m [lm] rmsgs) by (apply mergeRight_is_Some; by rewrite Hright).
      destruct (mergeValueMessages m lmsgs rmsgs) as [[out2 log2]|] eqn:Hrest; cbn.
      * split; [|by eexists]. intros _.
        assert (Hl : mergeable m lmsgs rmsgs) by (apply IH; by eexists).
        unfold mergeable in *. destruct rmsgs as [|rm rmsgs]; [done|].
        rewrite Forall_singleton in Hr. destruct Hr as [Hlm Hrs].
        split; [|done]. constructor; [done|].
        destruct lmsgs as [|lm' lmsgs]; [constructor | by destruct Hl].
      * split; [by intros []|]. intros Hall. apply IH.
        unfold mergeable in *. destruct rmsgs as [|rm rmsgs]; [by destruct lmsgs|].
        destruct Hall as [Hls Hrs]. apply Forall_cons in Hls as [_ Hls].
        destruct lmsgs as [|lm' lmsgs]; done.
    + split; [by intros []|]. intros Hall.
      assert (Hr : is_Some (mergeRight m lm rmsgs)).
      { apply mergeRight_is_Some. unfold mergeable in *.
        destruct rmsgs as [|rm rmsgs]; [done|]. destruct Hall as [Hls Hrs].
        apply Forall_cons in Hls as [Hlm _]. rewrite Forall_singleton. done. }
      rewrite Hright in Hr. by destruct Hr.
Qed.

Lemma not_mergeable_pairs (m : JoinMerge) (valLeft valRight : list SqlDriverMessageMap) :
  ~ mergeable m valLeft valRight -> (0 < length valLeft * length valRight)%nat.
Proof.
  unfold mergeable. destruct valLeft, valRight; try done. cbn. lia.
Qed.

(** The emission loop runs to its end exactly when every key it visits has
    mergeable buckets; it then sends the product of the bucket sizes for
    every key, and fewer rows than that when it does not. *)
Lemma emitLoop_completes (m : JoinMerge) (rh : gmap string (list SqlDriverMessageMap))
    (order : list (string * list SqlDriverMessageMap)) : forall i,
  exists out completed,
    emitLoop m rh i order = (out, completed)
    /\ (completed = true <-> Forall (fun entry => key_mergeable m rh entry.1 entry.2) order)
    /\ (completed = true -> length out = sum_list_with (pairs_of rh) order)
    /\ (completed = false -> (length out < sum_list_with (pairs_of rh) order)%nat).
Proof.
  induction order as [|[keyLeft valLeft] order IH]; intros i; cbn [emitLoop].
  - exists [], true. repeat split; done.
  - assert (Hp : pairs_of rh (keyLeft, valLeft)
                 = (length valLeft * match rh !! keyLeft with
                                     | Some valRight => length valRight
                                     | None => 0
                                     end)%nat).
    { unfold pairs_of. cbn [fst snd]. rewrite lookup_total_alt.
      by destruct (rh !! keyLeft). }
    assert (Hk : key_mergeable m rh keyLeft valLeft
                 <-> match rh !! keyLeft with
                     | Some valRight => mergeable m valLeft valRight
                     | None => True
                     end) by done.
    unfold emitKey.
    destruct (rh !! keyLeft) as [valRight|] eqn:Hright; cbn beta iota in Hp, Hk.
    + destruct (mergeValueMessages m valLeft valRight) as [[msgs log]|] eqn:Hmerge;
        cbn -[pairs_of key_mergeable length].
      * assert (Hm : mergeable m valLeft valRight)
          by (apply mergeValueMessages_is_Some; by rewrite Hmerge).
        apply mergeValueMessages_Some_length in Hmerge as Hlen.
        destruct (IH (advance i (length msgs))) as (rest & completed & -> & Hiff & Hall & Hless).
        exists (number i msgs ++ rest), completed. split; [done|].
        rewrite Forall_cons, Hp, length_app, length_number, Hlen. cbn [fst snd].
        split; [|split].
        -- rewrite Hiff. tauto.
        -- intros Hc. by rewrite (Hall Hc).
        -- intros Hc. specialize (Hless Hc). lia.
      * assert (Hm : ~ mergeable m valLeft valRight).
        { intros Hm. apply mergeValueMessages_is_Some in Hm. rewrite Hmerge in Hm.
          by destruct Hm. }
        exists [], false. split; [done|]. rewrite Forall_cons, Hp. cbn [fst snd].
        split; [|split]; [split; [done | tauto] | done |].
        intros _. apply not_mergeable_pairs in Hm. cbn [length]. lia.
    + cbn -[pairs_of key_mergeable length].
      destruct (IH i) as (rest & completed & -> & Hiff & Hall & Hless).
      exists rest, completed. split; [done|]. rewrite Forall_cons, Hp. cbn [fst snd].
      split; [|split].
      * rewrite Hiff. tauto.
      * intros Hc. rewrite (Hall Hc). lia.
      * intros Hc. specialize (Hless Hc). lia.
Qed.

(** C3, on the code: the emission loop forms the pairs of every left key
    that the right table has too, and none for a key on one side only.
    [mergeValueMessages] returns one row for every pair of its two buckets
    exactly when no row it pairs is too short for a column that is written;
    otherwise [valIndexing], which tests [ParentIndex] against the output
    and logs "not enough values to read col?" but reads
    [valSource[col.SourceIndex]] untested, panics.  So, whatever order the
    range visits the left table in, the loop runs to its end exactly when
    every key present in both tables has mergeable buckets, and then the
    rows sent number the sum of [|left[k]| * |right[k]|] over those keys;
    when it does not, fewer rows than that are sent.  The goroutine of
    [Run], past [wg.Wait()] with room on [outCh], sends what the loop
    computes, closes [outCh] and returns [nil], the panic swallowed by the
    deferred recover. *)
Theorem emission_is_inner_join_unless_a_read_is_out_of_range (m : JoinMerge)
    (lh rh : gmap string (list SqlDriverMessageMap)) :
  (forall valLeft valRight : list SqlDriverMessageMap,
     (mergeable m valLeft valRight ->
      exists out log, mergeValueMessages m valLeft valRight = Some (out, log)
                      /\ length out = (length valLeft * length valRight)%nat)
     /\ (~ mergeable m valLeft valRight ->
         mergeValueMessages m valLeft valRight = None
         /\ (0 < length valLeft * length valRight)%nat))
  /\ (forall i keyLeft valLeft, rh !! keyLeft = None ->
        emitKey m rh i keyLeft valLeft = Some ([], i))
  /\ (forall i order, order ≡ₚ map_to_list lh ->
        exists out completed,
          emitLoop m rh i order = (out, completed)
          /\ (completed = true <-> matched_mergeable m lh rh)
          /\ (completed = true -> length out = inner_join_size lh rh)
          /\ (completed = false -> (length out < inner_join_size lh rh)%nat))
  /\ (forall s order,
        jm_crashed s = false ->
        jm_pc s = M_Range lh 0 ->
        table (jm_right s) = rh ->
        order ≡ₚ map_to_list lh ->
        (length (buf (msgOutCh (jm_task s))) + inner_join_size lh rh
         <= cap (msgOutCh (jm_task s)))%nat ->
        exists sched out completed,
          emitLoop m rh 0 order = (out, completed)
          /\ jm_pc (JoinMerge_exec m sched s) = M_Returned None (negb completed)
          /\ buf (msgOutCh (jm_task (JoinMerge_exec m sched s)))
             = buf (msgOutCh (jm_task s)) ++ (MsgSqlDriverMessageMap <$> out)
          /\ closed (msgOutCh (jm_task (JoinMerge_exec m sched s))) = true).
Proof.
  assert (Hloop : forall i order, order ≡ₚ map_to_list lh ->
            exists out completed,
              emitLoop m rh i order = (out, completed)
              /\ (completed = true <-> matched_mergeable m lh rh)
              /\ (completed = true -> length out = inner_join_size lh rh)
              /\ (completed = false -> (length out < inner_join_size lh rh)%nat)).
  { intros i order Hperm.
    destruct (emitLoop_completes m rh order i) as (out & completed & Hout & Hiff & Hall & Hless).
    exists out, completed. split; [done|].
    assert (Hsum : sum_list_with (pairs_of rh) order = inner_join_size lh rh).
    { unfold inner_join_size. by rewrite Hperm, sum_pairs_inner_join. }
    rewrite <- Hsum. split; [|done].
    rewrite Hiff, Hperm. unfold matched_mergeable. rewrite map_Forall_to_list.
    apply Forall_iff. by intros [k vl]. }
  split; [|split; [|split; [exact Hloop|]]].
  - intros valLeft valRight. split.
    + intros Hm. apply mergeValueMessages_is_Some in Hm as [[out log] Hmerge].
      exists out, log. split; [done|]. by eapply mergeValueMessages_Some_length.
    + intros Hm. split; [|by apply (not_mergeable_pairs m)].
      destruct (mergeValueMessages m valLeft valRight) as [[out log]|] eqn:Hmerge; [|done].
      exfalso. apply Hm. apply (mergeValueMessages_is_Some m valLeft valRight).
      by rewrite Hmerge.
  - intros i keyLeft valLeft Hk. unfold emitKey. by rewrite Hk.
  - intros s order Hlive Hpc Hright Hperm Hroom.
    destruct (Hloop 0 order Hperm) as (out & completed & Hout & _ & Hall & Hless).
    destruct (Run_emits_emitLoop m order s lh 0 Hlive Hpc Hperm) as (sched & Hret & Hbuf & Hcl).
    { rewrite Hright, Hout. cbn. destruct completed; [rewrite Hall by done; lia|].
      specialize (Hless eq_refl). lia. }
    cbn zeta in *. rewrite Hright, Hout in *. cbn in *.
    by exists sched, out, completed.
Qed.


(** C8, on the code: the send of line 97 in [JoinKey.Run] and the send of
    line 273 in [JoinMerge.Run] are not in a [select]: with no room on the
    output channel neither task can take a step, whether [sigCh] is closed
    or not and whichever arm the scheduler offers.  The projection handler,
    whose send is in a [select], does return once [sigCh] is closed.  Both
    blocked sends are reached: by a [JoinKey] that keys a row while its
    output has no room, and by a [JoinMerge] that has read one matching row
    from each side. *)
Theorem bare_sends_wait_despite_sigCh :
  (forall (from : SqlSource Node) (task : TaskBase) (mt : SqlDriverMessageMap)
          (log : list LogLine) (arm : Arm),
      can_send (msgOutCh task) = false ->
      JoinKey_Run from arm {| jk_task := with_sig true task; jk_pc := JK_Send mt; jk_log := log |}
      = Blocked)
  /\ (forall (m : JoinMerge) (s : JoinMergeState) msg msgs todo i (pick : string),
        jm_pc s = M_Send (msg :: msgs) todo i ->
        can_send (msgOutCh (jm_task s)) = false ->
        JoinMerge_main m pick (after_main (with_sig true (jm_task s)) (jm_pc s) (jm_log s) s)
        = Blocked)
  /\ (forall (sql : SqlSelect Node) (task : TaskBase) (msg outMsg : Message) log,
        project (Columns sql) msg = Some (outMsg, log) ->
        projectionEvaluator sql (with_sig true task) ArmSig msg
        = Stepped {| h_task := with_sig true task; h_log := log; h_result := false |})
  /\ (exists mt,
        @JoinKey_Run scenario.host scenario.collaborators scenario.from_first_last ArmMsg
          {| jk_task := scenario.task_no_room; jk_pc := JK_Select; jk_log := [] |}
        = Stepped {| jk_task := with_in (tail_of (msgInCh scenario.task_no_room) [])
                                        scenario.task_no_room;
                     jk_pc := JK_Send mt; jk_log := [] |}
        /\ forall arm,
             @JoinKey_Run scenario.host scenario.collaborators scenario.from_first_last arm
               {| jk_task := with_sig true (with_in (tail_of (msgInCh scenario.task_no_room) [])
                                                    scenario.task_no_room);
                  jk_pc := JK_Send mt; jk_log := [] |}
             = Blocked)
  /\ (let s := @JoinMerge_exec scenario.host scenario.collaborators scenario.join_kv
                 scenario.schedule_to_send scenario.start_no_room in
      sigCh (jm_task s) = true
      /\ (exists msg todo i, jm_pc s = M_Send [msg] todo i)
      /\ forall pick,
           @JoinMerge_Run scenario.host scenario.collaborators scenario.join_kv (ActMain pick) s
           = Blocked).
Proof.
  split; [|split; [|split; [|split]]].
  - intros from task mt log arm Hfull. unfold JoinKey_Run.
    cbn [jk_pc jk_task jk_log with_sig msgOutCh]. by rewrite Hfull.
  - intros m s msg msgs todo i pick Hpc Hfull. unfold JoinMerge_main.
    cbn [after_main jm_crashed jm_task jm_pc with_sig msgOutCh].
    rewrite Hpc, Hfull. by destruct (jm_crashed s).
  - intros sql task msg outMsg log Hproj. unfold projectionEvaluator. by rewrite Hproj.
  - eexists. split; [vm_compute; reflexivity|]. intros arm. by destruct arm.
  - vm_compute. split; [reflexivity|]. split; [by eexists _, _, _|]. done.
Qed.

End JoinMergeRun.

(** Scenario 4 of the spec: two left rows and two right rows under key
    [x], one right row under [y]; four rows are sent.  A left and a right
    row under key [x] that hold no values, with a left column that reads
    position 0: one pair is due, the read of line 312 is out of range, and
    the loop ends having sent nothing. *)
Lemma emission_is_inner_join_unless_a_read_is_out_of_range_witness :
  (exists out, emitLoop scenario.join_kv scenario.right_kv 0 (map_to_list scenario.left_kv)
               = (out, true)
               /\ length out = 4%nat)
  /\ (exists out, emitLoop scenario.join_short_rows scenario.short_rows 0
                    (map_to_list scenario.short_rows)
                  = (out, false)
                  /\ (length out < 1)%nat
                  /\ (length (scenario.short_rows !!! "x"%string)
                      * length (scenario.short_rows !!! "x"%string))%nat = 1%nat).
Proof.
  split.
  - destruct (emission_is_inner_join_unless_a_read_is_out_of_range
                scenario.join_kv scenario.left_kv scenario.right_kv) as (_ & _ & Hloop & _).
    destruct (Hloop 0 (map_to_list scenario.left_kv)) as (out & completed & Hout & Hiff & Hall & _);
      [done|].
    assert (Hc : completed = true).
    { apply Hiff. apply (bool_decide_unpack _). vm_compute. exact I. }
    subst completed. exists out. split; [done|]. rewrite (Hall eq_refl).
    vm_compute. reflexivity.
  - destruct (emission_is_inner_join_unless_a_read_is_out_of_range
                scenario.join_short_rows scenario.short_rows scenario.short_rows)
      as (_ & _ & Hloop & _).
    destruct (Hloop 0 (map_to_list scenario.short_rows))
      as (out & completed & Hout & Hiff & _ & Hless); [done|].
    assert (Hc : completed = false).
    { destruct completed; [|done]. exfalso.
      assert (Hnot : ~ matched_mergeable scenario.join_short_rows scenario.short_rows
                       scenario.short_rows).
      { apply (bool_decide_eq_false_1 _). vm_compute. reflexivity. }
      apply Hnot. by apply Hiff. }
    subst completed. exists out. split; [done|]. split; [|vm_compute; reflexivity].
    specialize (Hless eq_refl).
    replace (inner_join_size scenario.short_rows scenario.short_rows) with 1%nat in Hless
      by (vm_compute; reflexivity).
    exact Hless.
Defined.

(** A left input whose first row has an empty key: [sigCh] is closed,
    [fatalErr] is set, and [Run] waits for ever. *)
Lemma JoinMerge_empty_key_closes_sigCh_and_hangs_witness :
  exists s1,
    @JoinMerge_Run scenario.host scenario.collaborators scenario.join_kv
      (ActWorker SideLeft ArmMsg) scenario.start_empty_key = Stepped s1
    /\ sigCh (jm_task s1) = true
    /\ jm_fatalErr s1
       = Some (Errorf_row no_key_format
                          (Row (scenario.keyed EmptyString [RawString "x"])))
    /\ forall sched, jm_pc (JoinMerge_exec scenario.join_kv sched s1) = M_Wait.
Proof.
  destruct (@JoinMerge_empty_key_closes_sigCh_and_hangs scenario.host scenario.collaborators
              scenario.join_kv SideLeft scenario.start_empty_key
              (scenario.keyed EmptyString [RawString "x"]) [])
    as [Hhang _].
  - apply JoinMerge_start_consistent.
  - reflexivity.
  - reflexivity.
  - reflexivity.
  - reflexivity.
  - exact Hhang.
Defined.

(** ** exec/projection.go *)

Section ProjectionFacts.
Context `{host : Host} `{collaborators : !Collaborators}.

Lemma projectColumns_panicked {M : Type}
    (body : M -> ProjState -> Column Node -> option ProjState) (mt : M)
    (columns : list (Column Node)) :
  foldl (fun acc col => match acc with Some st => body mt st col | None => None end)
        None columns = None.
Proof. induction columns as [|col columns IH]; [done | apply IH]. Qed.

Lemma projectColumnSql_skip (mt : SqlDriverMessageMap) (st : ProjState) (col : Column Node) :
  ParentIndex col < 0 -> projectColumnSql mt st col = Some st.
Proof.
  intros Hneg. unfold projectColumnSql. destruct st as [writeContext log].
  destruct (Z.ltb_spec (ParentIndex col) 0); [done | lia].
Qed.

Lemma projectColumns_projected (mt : SqlDriverMessageMap) (columns : list (Column Node)) :
  forall st, projectColumns projectColumnSql mt columns st
             = projectColumns projectColumnSql mt (projected columns) st.
Proof.
  unfold projectColumns, projected.
  induction columns as [|col columns IH]; intros st; [done|].
  cbn [foldl]. destruct (decide (0 <= ParentIndex col)) as [Hin|Hout].
  - rewrite filter_cons_True by done. cbn [foldl].
    destruct (projectColumnSql mt st col) as [st'|]; [apply IH|].
    by rewrite !projectColumns_panicked.
  - rewrite filter_cons_False by done.
    rewrite projectColumnSql_skip by lia. apply IH.
Qed.

Lemma projectColumnUrl_writes_pruned (mt : ContextUrlValues) (writeContext : ContextSimple)
    (log : list LogLine) (col : Column Node) (v : IValue) :
  ParentIndex col < 0 -> Guard col = None -> Star col = false ->
  (Eval (MsgContextUrlValues mt) (Expr col)) = (v, true) ->
  projectColumnUrl mt (writeContext, log) col
  = Some (Put col (MsgContextUrlValues mt) v writeContext, log)
  /\ Data (Put col (MsgContextUrlValues mt) v writeContext) !! ColumnKey col = Some v.
Proof.
  intros _ Hguard Hstar Heval. split.
  - unfold projectColumnUrl, writeColumnUrl, guardFilters. rewrite Hguard, Hstar, Heval.
    by rewrite app_nil_r.
  - cbn. apply lookup_insert_eq.
Qed.

(** C4, on the code: for a [SqlDriverMessageMap] a column with
    [ParentIndex < 0] is skipped, so that projecting all columns is
    projecting those with [ParentIndex >= 0]; for a [ContextUrlValues] the
    loop has no such test, and an unguarded, non-star column with
    [ParentIndex < 0] whose expression evaluates is written to the output
    like any other.  With the one column [a] at [ParentIndex = -1] and the
    row [{a: 1, b: 2}], the output is empty for the first body and
    [{a: 1}] for the second. *)
Theorem Projection_skips_pruned_columns_of_sql_rows_only :
  (forall (mt : SqlDriverMessageMap) (st : ProjState) (col : Column Node),
      ParentIndex col < 0 -> projectColumnSql mt st col = Some st)
  /\ (forall (mt : SqlDriverMessageMap) (columns : list (Column Node)),
        project columns (MsgSqlDriverMessageMap mt)
        = project (projected columns) (MsgSqlDriverMessageMap mt))
  /\ (forall (mt : ContextUrlValues) (writeContext : ContextSimple) (log : list LogLine)
             (col : Column Node) (v : IValue),
        ParentIndex col < 0 -> Guard col = None -> Star col = false ->
        (Eval (MsgContextUrlValues mt) (Expr col)) = (v, true) ->
        projectColumnUrl mt (writeContext, log) col
        = Some (Put col (MsgContextUrlValues mt) v writeContext, log)
        /\ Data (Put col (MsgContextUrlValues mt) v writeContext) !! ColumnKey col = Some v)
  /\ @project scenario.host scenario.collaborators scenario.columns_a_pruned
       (MsgSqlDriverMessageMap scenario.row_a1_b2)
     = Some (MsgContextSimple {| Data := ∅ |}, [])
  /\ @project scenario.host scenario.collaborators scenario.columns_a_pruned
       (MsgContextUrlValues scenario.url_a1_b2)
     = Some (MsgContextSimple {| Data := {[ "a"%string := Some (IntValue 1) ]} |}, []).
Proof.
  split; [apply projectColumnSql_skip|].
  split; [intros mt columns; unfold project; by rewrite projectColumns_projected|].
  split; [apply projectColumnUrl_writes_pruned|].
  split; vm_compute; reflexivity.
Qed.

(** C5, on the code: for a message that is neither a
    [SqlDriverMessageMap] nor a [ContextUrlValues] the handler logs an
    error and leaves [outMsg] at [nil]; it then goes on to the [select],
    where, the output channel having room, it sends that [nil] message
    downstream and returns [true]. *)
Theorem Projection_sends_nil_for_unknown_body (sql : SqlSelect Node) (task : TaskBase)
    (msg : Message) :
  unknown_body msg ->
  project (Columns sql) msg = Some (MsgNil, [Errorf "could not project msg:  %T"])
  /\ (can_send (msgOutCh task) = true ->
      projectionEvaluator sql task ArmMsg msg
      = Stepped {| h_task := with_out (send MsgNil (msgOutCh task)) task;
                   h_log := [Errorf "could not project msg:  %T"];
                   h_result := true |}).
Proof.
  intros Hunknown.
  assert (Hproj : project (Columns sql) msg
                  = Some (MsgNil, [Errorf "could not project msg:  %T"])).
  { by destruct msg. }
  split; [done|]. intros Hroom. unfold projectionEvaluator. by rewrite Hproj, Hroom.
Qed.




End ProjectionFacts.

(** A message of a type the projection does not know: [nil] is sent. *)
Lemma Projection_sends_nil_for_unknown_body_witness :
  @projectionEvaluator scenario.host scenario.collaborators
    {| Columns := scenario.columns_a_b |} scenario.task_with_room ArmMsg (MsgOther "*other.Message")
  = Stepped {| h_task := with_out (send MsgNil (msgOutCh scenario.task_with_room))
                                  scenario.task_with_room;
               h_log := [Errorf "could not project msg:  %T"];
               h_result := true |}.
Proof.
  destruct (@Projection_sends_nil_for_unknown_body scenario.host scenario.collaborators
              {| Columns := scenario.columns_a_b |} scenario.task_with_room
              (MsgOther "*other.Message") I)
    as [_ Hsend].
  exact (Hsend eq_refl).
Defined.



(** ** value/value.go: types, integers, string lists *)

(** X1: no two value types share a numeric tag or a name, every tag fits a
    [uint8], and [String()] answers "invalid" exactly for the numbers that
    are the tag of no type. *)
Theorem ValueType_names_and_tags :
  (forall t1 t2 : ValueType, ValueType_tag t1 = ValueType_tag t2 -> t1 = t2)
  /\ (forall t : ValueType, 0 <= ValueType_tag t < 256)
  /\ (forall t1 t2 : ValueType,
        ValueType_String (ValueType_tag t1) = ValueType_String (ValueType_tag t2) -> t1 = t2)
  /\ (forall m : Z,
        ValueType_String m = "invalid"%string <-> forall t : ValueType, ValueType_tag t <> m).
Proof.
  split; [|split; [|split]].
  - intros [] []; cbn; intros Heq; try reflexivity; discriminate Heq.
  - intros []; cbn; lia.
  - intros [] []; cbn; intros Heq; try reflexivity; discriminate Heq.
  - intros m. split.
    + intros Hinv [] <-; discriminate Hinv.
    + intros Hnone.
      destruct (decide (ValueType_String m = "invalid"%string)) as [|Hne]; [done|].
      exfalso. unfold ValueType_String in Hne.
      repeat match type of Hne with
             | context [match ?x with _ => _ end] => destruct x; try done
             end;
        first [ by apply (Hnone NilType) | by apply (Hnone ErrorType)
              | by apply (Hnone UnknownType) | by apply (Hnone NumberType)
              | by apply (Hnone IntType) | by apply (Hnone BoolType)
              | by apply (Hnone TimeType) | by apply (Hnone ByteSliceType)
              | by apply (Hnone StringType) | by apply (Hnone StringsType)
              | by apply (Hnone MapValueType) | by apply (Hnone MapIntType)
              | by apply (Hnone MapStringType) | by apply (Hnone MapFloatType)
              | by apply (Hnone SliceValueType) | by apply (Hnone StructType) ].
Qed.

(** X2: [ValueTypeFromRT] applied to a struct type of this package gives
    what the [Type()] method of that struct gives, for each of the ten
    structs that implement [Value] and for [SliceValue].  A [Value] may
    also be held as a pointer to one of those structs; for a pointer type
    [ValueTypeFromRT] takes its default case and gives [NilType], while
    [Type()] called through the pointer still gives the tag of the struct:
    the two agree on a pointer only for [*NilValue].  [ValueTypeFromRT]
    gives [NilType] only for [NilValue], for the [Value] interface type,
    for pointer types and for types it does not know. *)
Theorem ValueTypeFromRT_knows_structs_not_pointers `{Host} :
  (forall m : Value, ValueTypeFromRT (TypeOf ByValue m) = Type_of ByValue m)
  /\ (forall m : Value, ValueTypeFromRT (TypeOf ByPointer m) = NilType)
  /\ (forall (held : Held) (m : Value),
        ValueTypeFromRT (TypeOf held m) = Type_of held m <-> held = ByValue \/ m = NilValue)
  /\ ValueTypeFromRT (TypeOf ByPointer (StringsValue ["a"%string])) = NilType
  /\ Type_of ByPointer (StringsValue ["a"%string]) = StringsType
  /\ ValueTypeFromRT RT_SliceValue = SliceValue_Type
  /\ (forall rt : GoType,
        ValueTypeFromRT rt = NilType <->
        rt = RT_NilValue \/ rt = RT_Value \/ (exists elem, rt = RT_ptr elem)
        \/ exists name, rt = RT_other name).
Proof.
  split; [by intros []|]. split; [done|]. split.
  { intros held m. split.
    - destruct held; [by left|]. destruct m; cbn; intros Heq; try discriminate Heq. by right.
    - intros [-> | ->]; [by destruct m | by destruct held]. }
  split; [done|]. split; [done|]. split; [done|].
  intros rt. split.
  - destruct rt; cbn; intros Heq; try discriminate Heq; eauto.
  - intros [-> | [-> | [[elem ->] | [name ->]]]]; reflexivity.
Qed.

(** X3: [IntValue.Float()] denotes the integer without rounding whenever
    its magnitude is at most [2^53].
    The bound cannot be raised: [2^53 + 1] is rounded to [2^53], and
    [-2^53 - 1] to [-2^53]. *)
Theorem IntValue_Float_exact_up_to_2_53 (V : Z) :
  - 2 ^ 53 <= V <= 2 ^ 53 ->
  (exists q, float64_toQ (IntValue_Float V) = Some q /\ (q == inject_Z V)%Q)
  /\ (exists q, float64_toQ (IntValue_Float (2 ^ 53 + 1)) = Some q
                /\ (q == inject_Z (2 ^ 53))%Q /\ ~ (q == inject_Z (2 ^ 53 + 1))%Q)
  /\ (exists q, float64_toQ (IntValue_Float (- 2 ^ 53 - 1)) = Some q
                /\ (q == inject_Z (- 2 ^ 53))%Q /\ ~ (q == inject_Z (- 2 ^ 53 - 1))%Q).
Proof.
  intros HV. split; [|split].
  - destruct (Z.eq_dec V (2 ^ 53)) as [-> | Hhi].
    { eexists. split; [vm_compute; reflexivity | vm_compute; reflexivity]. }
    destruct (Z.eq_dec V (- 2 ^ 53)) as [-> | Hlo].
    { eexists. split; [vm_compute; reflexivity | vm_compute; reflexivity]. }
    apply float64_of_int64_exact. lia.
  - eexists. split; [vm_compute; reflexivity|]. split; [vm_compute; reflexivity|].
    vm_compute. discriminate.
  - eexists. split; [vm_compute; reflexivity|]. split; [vm_compute; reflexivity|].
    vm_compute. discriminate.
Qed.

(** The integer 1234 is converted without rounding. *)
Lemma IntValue_Float_exact_up_to_2_53_witness :
  exists q, float64_toQ (IntValue_Float 1234) = Some q /\ (q == inject_Z 1234)%Q.
Proof.
  destruct (IntValue_Float_exact_up_to_2_53 1234) as [Hexact _]; [lia | exact Hexact].
Defined.

Lemma FormatInt10_inj (a b : Z) : FormatInt10 a = FormatInt10 b -> a = b.
Proof.
  intros Heq. pose proof (FormatInt10_decimal a) as Ha.
  rewrite Heq, FormatInt10_decimal in Ha. by injection Ha.
Qed.

(** X4: [IntValue.ToString()] is injective; a [TimeValue] renders as the
    [IntValue] of its [Int()], so two [TimeValue]s render to the same string
    exactly when their [Int()] are equal.  That is coarser than falling in
    the same millisecond: [Int()] drops the fraction toward zero, so the
    instants half a millisecond before and half a millisecond after the
    epoch both render as 0. *)
Theorem ToString_of_integers_is_injective `{Host} :
  (forall a b : Z, ToString (IntValue a) = ToString (IntValue b) -> a = b)
  /\ (forall t : Time, ToString (TimeValue t) = ToString (IntValue (TimeValue_Int t)))
  /\ (forall t1 t2 : Time,
        ToString (TimeValue t1) = ToString (TimeValue t2) <-> TimeValue_Int t1 = TimeValue_Int t2)
  /\ ToString (TimeValue {| unixSec := -1; nsec := 999500000 |}) = "0"%string
  /\ ToString (TimeValue {| unixSec := 0; nsec := 500000 |}) = "0"%string
  /\ nanoseconds_since_epoch {| unixSec := -1; nsec := 999500000 |} = -500000
  /\ nanoseconds_since_epoch {| unixSec := 0; nsec := 500000 |} = 500000.
Proof.
  split; [|split; [done|split; [|repeat split; reflexivity]]].
  - intros a b. apply FormatInt10_inj.
  - intros t1 t2. cbn. unfold TimeValue_ToString. split.
    + apply FormatInt10_inj.
    + by intros ->.
Qed.

Lemma int64_wrap_fixed (z : Z) : int64_wrap z = z <-> int64_min <= z <= int64_max.
Proof.
  split; [|apply int64_wrap_id].
  intros Heq. rewrite <- Heq. apply int64_wrap_range.
Qed.

(** X5: [TimeValue.Int()] truncates toward zero, so the two milliseconds
    around the epoch both give 0; it is the true millisecond count of the
    instant exactly when the instant's nanoseconds fit an [int64]; the zero
    time, which is [Nil], lies outside that range and its [Int()] is a
    wrapped number. *)
Theorem TimeValue_Int_truncates_and_wraps `{Host} (t : Time) :
  (0 <= UnixNano t ->
     0 <= TimeValue_Int t /\ 1000000 * TimeValue_Int t <= UnixNano t < 1000000 * (TimeValue_Int t + 1))
  /\ (UnixNano t <= 0 ->
        TimeValue_Int t <= 0
        /\ 1000000 * (TimeValue_Int t - 1) < UnixNano t <= 1000000 * TimeValue_Int t)
  /\ (TimeValue_Int t = Z.quot (unixSec t * 1000000000 + nsec t) 1000000 <->
        int64_min <= unixSec t * 1000000000 + nsec t <= int64_max)
  /\ Nil TimeZeroValue = true
  /\ TimeValue_Int zeroTime = -6795364578871.
Proof.
  rewrite TimeValue_Int_quot.
  pose proof (Z.quot_rem' (UnixNano t) 1000000) as Hqr.
  split; [|split; [|split; [|split; reflexivity]]].
  - intros Hpos. pose proof (Z.rem_bound_pos_pos (UnixNano t) 1000000 ltac:(lia) Hpos).
    pose proof (Z.quot_pos (UnixNano t) 1000000 Hpos ltac:(lia)). lia.
  - intros Hneg. pose proof (Z.rem_bound_pos_neg (UnixNano t) 1000000 ltac:(lia) Hneg).
    assert (Z.quot (UnixNano t) 1000000 <= 0); [|lia].
    destruct (Z.le_gt_cases (Z.quot (UnixNano t) 1000000) 0); [done | lia].
  - set (n := unixSec t * 1000000000 + nsec t). split.
    + intros Heq. apply int64_wrap_fixed. change (UnixNano t = n).
      pose proof (Z.quot_rem' n 1000000) as Hqn. rewrite <- Heq in Hqn.
      pose proof (Z.rem_bound_abs (UnixNano t) 1000000 ltac:(lia)).
      pose proof (Z.rem_bound_abs n 1000000 ltac:(lia)).
      assert (Hk : UnixNano t = n - 2 ^ 64 * ((n + 2 ^ 63) / 2 ^ 64)).
      { unfold UnixNano, int64_wrap. fold n. rewrite Z.mod_eq by lia. lia. }
      lia.
    + intros Hrange. unfold UnixNano. fold n. by rewrite int64_wrap_id.
Qed.

Lemma StringsValue_Set_list_to_set (V : list string) :
  StringsValue_Set V = list_to_set V.
Proof.
  unfold StringsValue_Set.
  assert (Hgen : forall acc : gset string,
            foldl (fun setvals sv => {[sv]} ∪ setvals) acc V = list_to_set V ∪ acc).
  { induction V as [|sv V IH]; intros acc; cbn [foldl list_to_set].
    - by rewrite union_empty_l_L.
    - rewrite IH. apply set_eq. intros x.
      rewrite !elem_of_union, !elem_of_singleton. tauto. }
  rewrite Hgen. by rewrite union_empty_r_L.
Qed.

Lemma size_list_to_set_le (V : list string) :
  (size (list_to_set V : gset string) <= length V)%nat
  /\ (size (list_to_set V : gset string) = length V -> NoDup V).
Proof.
  induction V as [|sv V [IHle IHeq]]; cbn [list_to_set length].
  - split; [by rewrite size_empty | intros _; constructor].
  - destruct (decide (sv ∈ V)) as [Hin | Hout].
    + replace ({[sv]} ∪ list_to_set V : gset string) with (list_to_set V : gset string).
      * split; [lia | intros Heq; lia].
      * apply set_eq. intros x. rewrite elem_of_union, elem_of_singleton, elem_of_list_to_set.
        split; [tauto | intros [->|?]; done].
    + rewrite size_union, size_singleton
        by (apply disjoint_singleton_l; by rewrite elem_of_list_to_set).
      split; [lia|]. intros Heq. constructor; [done|]. apply IHeq. lia.
Qed.

(** X6: [StringsValue.Set()] holds exactly the strings of the slice, case
    preserved; it is no larger than the slice, as large exactly when the
    slice has no duplicate, and empty exactly when the slice is. *)
Theorem StringsValue_Set_deduplicates (V : list string) :
  (forall sv : string, sv ∈ StringsValue_Set V <-> sv ∈ V)
  /\ (size (StringsValue_Set V) <= length V)%nat
  /\ (size (StringsValue_Set V) = length V <-> NoDup V)
  /\ (StringsValue_Set V = ∅ <-> V = []).
Proof.
  rewrite StringsValue_Set_list_to_set.
  split; [intros sv; apply elem_of_list_to_set|].
  split; [apply size_list_to_set_le|].
  split.
  - split; [apply size_list_to_set_le | apply size_list_to_set].
  - split.
    + destruct V as [|sv V]; [done|]. intros Hempty.
      assert (Hin : sv ∈ (list_to_set (sv :: V) : gset string)).
      { apply elem_of_list_to_set. left. }
      rewrite Hempty in Hin. by apply not_elem_of_empty in Hin.
    + by intros ->.
Qed.

Lemma string_app_assoc (a b c : string) : ((a +:+ b) +:+ c = a +:+ (b +:+ c))%string.
Proof.
  induction a as [|x a IH]; [done|].
  change (String x ((a +:+ b) +:+ c) = String x (a +:+ (b +:+ c)))%string.
  by rewrite IH.
Qed.

Lemma Join_snoc (V : list string) (sv sep : string) :
  Join (V ++ [sv]) sep
  = match V with
    | [] => sv
    | _ => (Join V sep +:+ sep +:+ sv)%string
    end.
Proof.
  unfold Join. induction V as [|a V IH]; [done|].
  destruct V as [|b V]; [done|].
  change (String.concat sep ((a :: b :: V) ++ [sv]))
    with (a +:+ sep +:+ String.concat sep ((b :: V) ++ [sv]))%string.
  rewrite IH.
  change (String.concat sep (a :: b :: V)) with (a +:+ sep +:+ String.concat sep (b :: V))%string.
  by rewrite !string_app_assoc.
Qed.

(** X7: after [Append(sv)] a [StringsValue] is one longer and not [Nil],
    its set gains [sv], and its [ToString()] is [sv] alone if it was empty
    and the old rendering, a comma and [sv] otherwise.  The rendering does
    not tell a comma inside a string from a separator. *)
Theorem StringsValue_Append_grows `{Host} (sv : string) (V : list string) :
  StringsValue_Len (StringsValue_Append sv V) = StringsValue_Len V + 1
  /\ Nil (StringsValue (StringsValue_Append sv V)) = false
  /\ (forall x : string, x ∈ StringsValue_Set (StringsValue_Append sv V)
                         <-> x = sv \/ x ∈ StringsValue_Set V)
  /\ ToString (StringsValue (StringsValue_Append sv V))
     = (if Nil (StringsValue V) then sv
        else ToString (StringsValue V) +:+ "," +:+ sv)%string
  /\ ToString (StringsValue ["a,b"%string]) = ToString (StringsValue ["a"; "b"]%string).
Proof.
  unfold StringsValue_Append, StringsValue_Len. split; [|split; [|split; [|split]]].
  - rewrite length_app. cbn. lia.
  - cbn. rewrite length_app. cbn. apply Nat.eqb_neq. lia.
  - intros x. rewrite !StringsValue_Set_list_to_set, !elem_of_list_to_set, elem_of_app.
    rewrite list_elem_of_singleton. tauto.
  - cbn [ToString Nil]. rewrite Join_snoc. by destruct V.
  - reflexivity.
Qed.

(** ** exec/join.go: the composite key *)

Section CompositeKey.
Context `{host : Host} `{collaborators : !Collaborators}.

(** What follows a component in a joined key: nothing, or NUL and more. *)
Lemma Join_cons (a : string) (l : list string) :
  Join (a :: l) NUL
  = (a +:+ match l with [] => EmptyString | _ => NUL +:+ Join l NUL end)%string.
Proof.
  unfold Join. destruct l as [|b l]; cbn [String.concat].
  - induction a as [|x a IH]; [done|].
    change (String x a = String x (a +:+ EmptyString))%string. by rewrite <- IH.
  - done.
Qed.

Lemma NUL_free_split (a b x y : string) :
  NUL_free a -> NUL_free b ->
  (x = EmptyString \/ exists x', x = String (ascii_of_nat 0) x') ->
  (y = EmptyString \/ exists y', y = String (ascii_of_nat 0) y') ->
  (a +:+ x = b +:+ y)%string -> a = b /\ x = y.
Proof.
  revert b. induction a as [|c a IH]; intros [|d b] Ha Hb Hx Hy Heq.
  - done.
  - change (x = String d (b +:+ y))%string in Heq. destruct Hb as [Hd _].
    destruct Hx as [-> | [x' ->]]; [done|]. injection Heq as <- _. done.
  - change (String c (a +:+ x) = y)%string in Heq. destruct Ha as [Hc _].
    destruct Hy as [-> | [y' ->]]; [done|]. injection Heq as -> _. done.
  - change (String c (a +:+ x) = String d (b +:+ y))%string in Heq.
    injection Heq as -> Heq. destruct Ha as [_ Ha], Hb as [_ Hb].
    destruct (IH b Ha Hb Hx Hy Heq) as [-> ->]. done.
Qed.

Lemma Join_NUL_inj (l1 : list string) : forall l2 : list string,
  length l1 = length l2 ->
  Forall NUL_free l1 -> Forall NUL_free l2 ->
  Join l1 NUL = Join l2 NUL -> l1 = l2.
Proof.
  induction l1 as [|a l1 IH]; intros [|b l2] Hlen H1 H2 Heq; try done.
  apply Forall_cons in H1 as [Ha H1]. apply Forall_cons in H2 as [Hb H2].
  injection Hlen as Hlen. rewrite !Join_cons in Heq.
  apply NUL_free_split in Heq as [-> Hrest]; try done.
  - f_equal. apply IH; try done.
    destruct l1 as [|a1 l1], l2 as [|b2 l2]; try done.
    by injection Hrest.
  - destruct l1; [by left | right; by eexists].
  - destruct l2; [by left | right; by eexists].
Qed.

Lemma joinVals_length (mt : SqlDriverMessageMap) (joinNodes : list Node) : forall vals,
  joinVals mt joinNodes = JoinValsOk vals -> length vals = length joinNodes.
Proof.
  induction joinNodes as [|node joinNodes IH]; intros vals; cbn [joinVals].
  - by intros [= <-].
  - destruct (Eval _ (Some node)) as [joinVal ok]. destruct ok; cbn; [|done].
    destruct joinVal as [joinVal|]; [|done].
    destruct (joinVals mt joinNodes) as [vals'| |]; try done.
    intros [= <-]. cbn. by rewrite (IH vals').
Qed.

(** X8: for rows keyed on the same join nodes, whose join values hold no
    NUL byte, the composite key of line 95 is equal exactly when the lists
    of join values are equal.  A value that does hold a NUL byte breaks
    this: [a\0, b] and [a, \0b] get the same key. *)
Theorem composite_key_is_collision_free (from : SqlSource Node)
    (mt1 mt2 : SqlDriverMessageMap) (vals1 vals2 : list string) :
  joinVals mt1 (JoinNodes from) = JoinValsOk vals1 ->
  joinVals mt2 (JoinNodes from) = JoinValsOk vals2 ->
  Forall NUL_free vals1 -> Forall NUL_free vals2 ->
  (Join vals1 NUL = Join vals2 NUL <-> vals1 = vals2)
  /\ Join ["a" +:+ NUL; "b"]%string NUL = Join ["a"; NUL +:+ "b"]%string NUL.
Proof.
  intros Hv1 Hv2 Hfree1 Hfree2. split; [|reflexivity]. split; [|by intros ->].
  apply Join_NUL_inj; try done.
  by rewrite (joinVals_length _ _ _ Hv1), (joinVals_length _ _ _ Hv2).
Qed.

Lemma Join_empty (vals : list string) :
  Join vals NUL = EmptyString <-> vals = [] \/ vals = [EmptyString].
Proof.
  split.
  - destruct vals as [|a vals]; [by left|]. rewrite Join_cons.
    destruct a as [|c a]; [|done]. destruct vals as [|b vals]; [by right | done].
  - by intros [-> | ->].
Qed.

(** X9: [JoinKey.Run] forwards a row whose join values it could evaluate
    whatever the key it computed; that key is empty exactly when there is no
    join node or when the only join value renders as the empty string; and
    an ingest goroutine of [JoinMerge.Run] that receives such a row takes
    the fatal missing-key branch. *)
Theorem JoinKey_can_hand_JoinMerge_an_empty_key (from : SqlSource Node) (task : TaskBase)
    (log : list LogLine) (mt : SqlDriverMessageMap) (rest : list Message)
    (vals : list string) (ing : Ingest) (sig : bool) :
  buf (msgInCh task) = MsgSqlDriverMessageMap mt :: rest ->
  joinVals mt (JoinNodes from) = JoinValsOk vals ->
  let keyed := SetKeyHashed (Join vals NUL) mt in
  JoinKey_Run from ArmMsg {| jk_task := task; jk_pc := JK_Select; jk_log := log |}
  = Stepped {| jk_task := with_in (tail_of (msgInCh task) rest) task;
               jk_pc := JK_Send keyed; jk_log := log |}
  /\ (Key keyed = EmptyString <-> vals = [] \/ vals = [EmptyString])
  /\ (vals = [] \/ vals = [EmptyString] ->
      forall inCh, buf (in_ch ing) = MsgSqlDriverMessageMap keyed :: inCh ->
        ingest sig ArmMsg ing
        = I_Fatal (tail_of (in_ch ing) inCh) (Errorf_row no_key_format (Row keyed))).
Proof.
  intros Hin Hvals keyed. split; [|split].
  - unfold JoinKey_Run. cbn [jk_pc jk_task jk_log].
    by rewrite (recv_cons _ _ _ Hin), Hvals.
  - apply Join_empty.
  - intros Hempty inCh Hbuf. unfold ingest. rewrite (recv_cons _ _ _ Hbuf).
    assert (Hkey : Key keyed = EmptyString) by by apply Join_empty.
    by rewrite Hkey.
Qed.

End CompositeKey.

(** The rows [ann, lee] and [ann, ray], joined on [first] and [last], get
    different keys. *)
Lemma composite_key_is_collision_free_witness :
  (Join ["ann"; "lee"]%string NUL = Join ["ann"; "ray"]%string NUL
   <-> ["ann"; "lee"]%string = ["ann"; "ray"]%string)
  /\ Join ["a" +:+ NUL; "b"]%string NUL = Join ["a"; NUL +:+ "b"]%string NUL.
Proof.
  apply (@composite_key_is_collision_free scenario.host scenario.collaborators
           scenario.from_first_last scenario.row_ann_lee scenario.row_ann_ray).
  - reflexivity.
  - reflexivity.
  - repeat constructor; done.
  - repeat constructor; done.
Defined.

(** A row whose [first] is the empty string, joined on [first], is
    forwarded with an empty key. *)
Lemma JoinKey_can_hand_JoinMerge_an_empty_key_witness :
  @JoinKey_Run scenario.host scenario.collaborators scenario.from_first ArmMsg
    {| jk_task := scenario.task_blank; jk_pc := JK_Select; jk_log := [] |}
  = Stepped {| jk_task := with_in (tail_of (msgInCh scenario.task_blank) []) scenario.task_blank;
               jk_pc := JK_Send (SetKeyHashed (Join [EmptyString] NUL) scenario.row_blank);
               jk_log := [] |}
  /\ (Key (SetKeyHashed (Join [EmptyString] NUL) scenario.row_blank) = EmptyString
      <-> [EmptyString] = [] \/ [EmptyString] = [EmptyString]).
Proof.
  destruct (@JoinKey_can_hand_JoinMerge_an_empty_key scenario.host scenario.collaborators
              scenario.from_first scenario.task_blank [] scenario.row_blank []
              [EmptyString] (jm_left scenario.start_empty_key) false)
    as (Hstep & Hkey & _).
  - reflexivity.
  - reflexivity.
  - split; [exact Hstep | exact Hkey].
Defined.

(** ** exec/join.go: [JoinKey.Run] over a whole input *)

Section JoinKeyRuns.
Context `{host : Host} `{collaborators : !Collaborators}.

Lemma JoinKey_forward_snoc (from : SqlSource Node) (taken : list Message) (msg : Message) :
  (JoinKey_forward from taken).2 = None ->
  JoinKey_forward from (taken ++ [msg])
  = ((JoinKey_forward from taken).1 ++ (JoinKey_forward from [msg]).1,
     (JoinKey_forward from [msg]).2).
Proof.
  induction taken as [|m taken IH]; intros Hnone.
  - cbn [app]. by destruct (JoinKey_forward from [msg]).
  - cbn [app]. cbn [JoinKey_forward] in *.
    destruct m as [mt| | | |]; try done.
    destruct (joinVals mt (JoinNodes from)) as [vals| |]; try done.
    + destruct (JoinKey_forward from taken) as [out ending] eqn:Hfw. cbn in Hnone.
      rewrite IH by done. done.
    + by apply IH.
Qed.

Lemma JoinKey_Run_follows (from : SqlSource Node) (input out0 taken : list Message)
    (arm : Arm) (s s' : JoinKeyState) :
  JoinKey_Run from arm s = Stepped s' ->
  JoinKey_follows from input out0 taken s ->
  exists taken', JoinKey_follows from input out0 taken' s'.
Proof.
  intros Hstep (Hin & Hout & Hpc). unfold JoinKey_Run in Hstep.
  destruct (jk_pc s) as [|mt|err recovered] eqn:Hs; [| |done].
  - destruct arm.
    + destruct (recv (msgInCh (jk_task s))) as [[[msg|] inCh]|] eqn:Hrecv; [| |done].
      * unfold recv in Hrecv.
        destruct (buf (msgInCh (jk_task s))) as [|msg' rest] eqn:Hbuf;
          [by destruct (closed _)|].
        injection Hrecv as -> <-.
        assert (Hsnoc := JoinKey_forward_snoc from taken msg Hpc).
        exists (taken ++ [msg]).
        unfold in_hand in Hout. rewrite Hs, app_nil_r in Hout.
        destruct msg as [mt| | | |].
        2-5: injection Hstep as <-; unfold JoinKey_follows, in_hand; cbn;
             rewrite Hsnoc; cbn; rewrite <- app_assoc, app_nil_r, app_nil_r;
             (split; [done|]); (split; [done|]); split; [done | by left].
        cbn [JoinKey_forward] in Hsnoc.
        destruct (joinVals mt (JoinNodes from)) as [vals| |] eqn:Hvals;
          injection Hstep as <-; unfold JoinKey_follows, in_hand; cbn;
          rewrite Hsnoc; cbn; rewrite <- ?app_assoc, ?app_nil_r.
        -- split; [done|]. split; [|done]. rewrite fmap_app, app_assoc. by rewrite Hout.
        -- split; [by rewrite Hin|]. split; done.
        -- split; [by rewrite Hin|]. split; [done|]. split; [done | by left].
      * unfold recv in Hrecv.
        destruct (buf (msgInCh (jk_task s))) as [|msg' rest] eqn:Hbuf; [|done].
        destruct (closed _); [|done]. injection Hstep as <-.
        exists taken. unfold JoinKey_follows, in_hand in *. cbn. rewrite Hs in Hout.
        split; [by rewrite Hbuf|]. split; [done|]. split; [done | by right].
    + destruct (sigCh (jk_task s)); [|done]. injection Hstep as <-.
      exists taken. unfold JoinKey_follows, in_hand in *. cbn. rewrite Hs in Hout.
      split; [done|]. split; [done|]. split; [done | by right].
  - destruct (can_send _); [|done]. injection Hstep as <-.
    exists taken. unfold JoinKey_follows, in_hand in *. cbn. rewrite Hs in Hout.
    rewrite app_nil_r. done.
Qed.

Lemma JoinKey_exec_follows (from : SqlSource Node) (input out0 : list Message)
    (sched : list Arm) : forall (s : JoinKeyState) taken,
  JoinKey_follows from input out0 taken s ->
  exists taken', JoinKey_follows from input out0 taken' (JoinKey_exec from sched s).
Proof.
  induction sched as [|arm sched IH]; intros s taken Hs; [by exists taken|].
  unfold JoinKey_exec. cbn [foldl].
  destruct (JoinKey_Run from arm s) as [s'| |] eqn:Hstep; [|by eapply IH..].
  destruct (JoinKey_Run_follows _ _ _ _ _ _ _ Hstep Hs) as [taken' Hs'].
  by eapply IH.
Qed.


Lemma JoinKey_forward_sublist (from : SqlSource Node) (msgs : list Message) :
  exists kept : list SqlDriverMessageMap,
    (MsgSqlDriverMessageMap <$> kept) `sublist_of` msgs
    /\ (JoinKey_forward from msgs).1 = (fun mt => SetKeyHashed (keyOf from mt) mt) <$> kept.
Proof.
  induction msgs as [|msg msgs (kept & Hsub & Hfw)]; [by exists []|].
  cbn [JoinKey_forward].
  destruct msg as [mt| | | |]; try (exists []; split; [apply sublist_nil_l | done]).
  destruct (joinVals mt (JoinNodes from)) as [vals| |] eqn:Hvals.
  - exists (mt :: kept). destruct (JoinKey_forward from msgs) as [out ending].
    cbn in *. split; [by apply sublist_skip|]. unfold keyOf at 1. by rewrite Hvals, Hfw.
  - exists kept. split; [by apply sublist_cons | done].
  - exists []. split; [apply sublist_nil_l | done].
Qed.

Lemma JoinKey_forward_ending (from : SqlSource Node) (msgs : list Message)
    (err : option Error) (recovered : bool) :
  (JoinKey_forward from msgs).2 = Some (err, recovered) ->
  (exists msg, msg ∈ msgs /\ not_a_row msg /\ recovered = false
               /\ err = Some (Errorf_T "To use JoinKey must use SqlDriverMessageMap but got %T"
                                       (typeName_of msg)))
  \/ (exists mt, MsgSqlDriverMessageMap mt ∈ msgs
                 /\ joinVals mt (JoinNodes from) = JoinValsPanic
                 /\ recovered = true /\ err = None).
Proof.
  induction msgs as [|msg msgs IH]; [done|]. cbn [JoinKey_forward].
  destruct msg as [mt| | | |].
  2-5: intros [= <- <-]; left; eexists; (split; [left|]); done.
  destruct (joinVals mt (JoinNodes from)) as [vals| |] eqn:Hvals.
  - destruct (JoinKey_forward from msgs) as [out ending]. cbn. intros Hend.
    destruct (IH Hend) as [(msg & Hin & H)|(mt' & Hin & H)];
      [left | right]; eexists; (split; [right; exact Hin | done]).
  - intros Hend.
    destruct (IH Hend) as [(msg & Hin & H)|(mt' & Hin & H)];
      [left | right]; eexists; (split; [right; exact Hin | done]).
  - intros [= <- <-]. right. exists mt. split; [left | done].
Qed.

(** X10: under every schedule, what [JoinKey.Run] has put on its output
    (with the row it holds at the send of line 97) is what was there before
    followed by rows of a prefix of its input, in arrival order, none twice,
    each with its key set to the composite key of its join values. *)
Theorem JoinKey_forwards_in_arrival_order (from : SqlSource Node) (task : TaskBase)
    (log : list LogLine) (sched : list Arm) :
  exists (taken : list Message) (kept : list SqlDriverMessageMap),
    taken `prefix_of` buf (msgInCh task)
    /\ (MsgSqlDriverMessageMap <$> kept) `sublist_of` taken
    /\ let s := JoinKey_exec from sched {| jk_task := task; jk_pc := JK_Select; jk_log := log |} in
       buf (msgOutCh (jk_task s)) ++ in_hand s
       = buf (msgOutCh task)
         ++ (MsgSqlDriverMessageMap <$> ((fun mt => SetKeyHashed (keyOf from mt) mt) <$> kept)).
Proof.
  destruct (JoinKey_exec_follows from (buf (msgInCh task)) (buf (msgOutCh task)) sched
              {| jk_task := task; jk_pc := JK_Select; jk_log := log |} [])
    as (taken & Hin & Hout & _).
  { split; [done|]. split; [|done]. cbn. by rewrite !app_nil_r. }
  destruct (JoinKey_forward_sublist from taken) as (kept & Hsub & Hfw).
  exists taken, kept. split; [by eexists|]. split; [done|].
  cbn zeta. by rewrite Hout, Hfw.
Qed.

(** X11: whenever [JoinKey.Run] has returned, [msgOutCh] is closed; an
    error is returned only for an input message that is not a
    [*SqlDriverMessageMap], and names that message's type; a return through
    the deferred recover only follows a row for which a join node evaluated
    to the [nil] value with [ok] true. *)
Theorem JoinKey_return_closes_output (from : SqlSource Node) (task : TaskBase)
    (log : list LogLine) (sched : list Arm) (err : option Error) (recovered : bool) :
  jk_pc (JoinKey_exec from sched {| jk_task := task; jk_pc := JK_Select; jk_log := log |})
  = JK_Returned err recovered ->
  closed (msgOutCh (jk_task (JoinKey_exec from sched
                               {| jk_task := task; jk_pc := JK_Select; jk_log := log |}))) = true
  /\ (forall e, err = Some e ->
        recovered = false
        /\ exists msg, msg ∈ buf (msgInCh task) /\ not_a_row msg
                       /\ e = Errorf_T "To use JoinKey must use SqlDriverMessageMap but got %T"
                                       (typeName_of msg))
  /\ (recovered = true ->
        exists mt, MsgSqlDriverMessageMap mt ∈ buf (msgInCh task)
                   /\ joinVals mt (JoinNodes from) = JoinValsPanic).
Proof.
  intros Hret.
  destruct (JoinKey_exec_follows from (buf (msgInCh task)) (buf (msgOutCh task)) sched
              {| jk_task := task; jk_pc := JK_Select; jk_log := log |} [])
    as (taken & Hin & _ & Hpc).
  { split; [done|]. split; [|done]. cbn. by rewrite !app_nil_r. }
  rewrite Hret in Hpc. destruct Hpc as [Hclosed Hend]. split; [done|].
  assert (Hsub : forall msg, msg ∈ taken -> msg ∈ buf (msgInCh task)).
  { intros msg Hmsg. rewrite Hin. apply elem_of_app. by left. }
  split.
  - intros e ->. destruct Hend as [Hend | (_ & [=] & _)].
    apply JoinKey_forward_ending in Hend as [(msg & Hmsg & Hnot & -> & [= ->])|(_ & _ & _ & _ & [=])].
    split; [done|]. exists msg. auto.
  - intros ->. destruct Hend as [Hend | (_ & _ & [=])].
    apply JoinKey_forward_ending in Hend as [(_ & _ & _ & [=] & _)|(mt & Hmt & Hpanic & _)].
    exists mt. auto.
Qed.

Lemma JoinKey_exec_app (from : SqlSource Node) (sched1 sched2 : list Arm) (s : JoinKeyState) :
  JoinKey_exec from (sched1 ++ sched2) s = JoinKey_exec from sched2 (JoinKey_exec from sched1 s).
Proof. unfold JoinKey_exec. apply foldl_app. Qed.

(** X12: on a closed input of rows whose join nodes all evaluate, and with
    room on [outCh], [JoinKey.Run] has a schedule under which it forwards
    every row, keyed, in order, logs nothing, closes [outCh] and returns
    [nil]. *)
Theorem JoinKey_keys_closed_input (from : SqlSource Node) (rows : list SqlDriverMessageMap) :
  forall (task : TaskBase) (log : list LogLine),
    buf (msgInCh task) = MsgSqlDriverMessageMap <$> rows ->
    closed (msgInCh task) = true ->
    Forall (fun mt => exists vals, joinVals mt (JoinNodes from) = JoinValsOk vals) rows ->
    (length (buf (msgOutCh task)) + length rows <= cap (msgOutCh task))%nat ->
    exists sched,
      let s := JoinKey_exec from sched {| jk_task := task; jk_pc := JK_Select; jk_log := log |} in
      jk_pc s = JK_Returned None false
      /\ buf (msgOutCh (jk_task s))
         = buf (msgOutCh task)
           ++ (MsgSqlDriverMessageMap <$> ((fun mt => SetKeyHashed (keyOf from mt) mt) <$> rows))
      /\ closed (msgOutCh (jk_task s)) = true
      /\ jk_log s = log.
Proof.
  induction rows as [|mt rows IH]; intros task log Hin Hclosed Hok Hroom.
  - exists [ArmMsg]. cbn. unfold JoinKey_Run, recv. cbn. rewrite Hin, Hclosed. cbn.
    by rewrite app_nil_r.
  - apply Forall_cons in Hok as [[vals Hvals] Hok]. cbn [length] in Hroom.
    rewrite fmap_cons in Hin.
    set (task1 := with_in (tail_of (msgInCh task) (MsgSqlDriverMessageMap <$> rows)) task).
    set (keyed := SetKeyHashed (Join vals NUL) mt).
    set (task2 := with_out (send (MsgSqlDriverMessageMap keyed) (msgOutCh task1)) task1).
    assert (Hstep1 : JoinKey_Run from ArmMsg {| jk_task := task; jk_pc := JK_Select; jk_log := log |}
                     = Stepped {| jk_task := task1; jk_pc := JK_Send keyed; jk_log := log |}).
    { unfold JoinKey_Run. cbn [jk_pc jk_task jk_log].
      by rewrite (recv_cons _ _ _ Hin), Hvals. }
    assert (Hstep2 : JoinKey_Run from ArmMsg {| jk_task := task1; jk_pc := JK_Send keyed; jk_log := log |}
                     = Stepped {| jk_task := task2; jk_pc := JK_Select; jk_log := log |}).
    { assert (Hcan : can_send (msgOutCh task1) = true).
      { unfold can_send. change (msgOutCh task1) with (msgOutCh task). apply Nat.ltb_lt. lia. }
      unfold JoinKey_Run. cbn [jk_pc jk_task jk_log]. by rewrite Hcan. }
    destruct (IH task2 log) as (sched & Hpc & Hbuf & Hcl & Hlog).
    { done. }
    { done. }
    { done. }
    { subst task2 task1. cbn. rewrite length_app. cbn. lia. }
    exists ([ArmMsg; ArmMsg] ++ sched). rewrite JoinKey_exec_app.
    assert (Hexec : JoinKey_exec from [ArmMsg; ArmMsg]
                      {| jk_task := task; jk_pc := JK_Select; jk_log := log |}
                    = {| jk_task := task2; jk_pc := JK_Select; jk_log := log |}).
    { unfold JoinKey_exec. cbn [foldl]. by rewrite Hstep1, Hstep2. }
    rewrite Hexec. cbn zeta in *. split; [done|]. split; [|done].
    rewrite Hbuf. subst task2 task1 keyed. cbn. rewrite <- app_assoc. cbn.
    unfold keyOf at 2. by rewrite Hvals.
Qed.

End JoinKeyRuns.

(** A [nil] message on the input: [Run] returns the error naming [<nil>],
    and [msgOutCh] is closed. *)
Lemma JoinKey_return_closes_output_witness :
  closed (msgOutCh (jk_task (@JoinKey_exec scenario.host scenario.collaborators
                               scenario.from_first_last [ArmMsg]
                               {| jk_task := scenario.task_nil_message;
                                  jk_pc := JK_Select; jk_log := [] |}))) = true.
Proof.
  destruct (@JoinKey_return_closes_output scenario.host scenario.collaborators
              scenario.from_first_last scenario.task_nil_message [] [ArmMsg]
              (Some (Errorf_T "To use JoinKey must use SqlDriverMessageMap but got %T" "<nil>"))
              false)
    as (Hclosed & _).
  - reflexivity.
  - exact Hclosed.
Defined.

(** The rows [ann, lee] and [ann, ray] on a closed input: both are
    forwarded, keyed, and [Run] returns [nil]. *)
Lemma JoinKey_keys_closed_input_witness :
  exists sched,
    let s := @JoinKey_exec scenario.host scenario.collaborators scenario.from_first_last sched
               {| jk_task := scenario.task_two_rows; jk_pc := JK_Select; jk_log := [] |} in
    jk_pc s = JK_Returned None false
    /\ buf (msgOutCh (jk_task s))
       = buf (msgOutCh scenario.task_two_rows)
         ++ (MsgSqlDriverMessageMap
               <$> ((fun mt => SetKeyHashed (@keyOf scenario.host scenario.collaborators
                                                     scenario.from_first_last mt) mt)
                      <$> [scenario.row_ann_lee; scenario.row_ann_ray]))
    /\ closed (msgOutCh (jk_task s)) = true
    /\ jk_log s = [].
Proof.
  apply (@JoinKey_keys_closed_input scenario.host scenario.collaborators
           scenario.from_first_last [scenario.row_ann_lee; scenario.row_ann_ray]
           scenario.task_two_rows []).
  - reflexivity.
  - reflexivity.
  - repeat constructor; eexists; reflexivity.
  - vm_compute. lia.
Defined.

(** ** exec/join.go: [JoinMerge.Run] from its inputs to its output *)

Section Ingest.
Context `{host : Host} `{collaborators : !Collaborators}.

Lemma store_lookup_total (h : gmap string (list SqlDriverMessageMap))
    (mt : SqlDriverMessageMap) (k : string) :
  store h mt !!! k = h !!! k ++ (if decide (Key mt = k) then [mt] else []).
Proof.
  unfold store. destruct (decide (Key mt = k)) as [<- | Hne].
  - rewrite lookup_total_insert_eq. by rewrite lookup_total_alt.
  - rewrite lookup_total_insert_ne by done. by rewrite app_nil_r.
Qed.

Lemma store_all_lookup_total (msgs : list SqlDriverMessageMap) :
  forall (h : gmap string (list SqlDriverMessageMap)) (k : string),
    store_all msgs h !!! k = h !!! k ++ filter (fun mt => Key mt = k) msgs.
Proof.
  unfold store_all.
  induction msgs as [|mt msgs IH]; intros h k; cbn [foldl].
  - by rewrite app_nil_r.
  - rewrite IH, store_lookup_total, <- app_assoc. f_equal.
    rewrite filter_cons. by destruct (decide (Key mt = k)).
Qed.

Lemma store_all_Forall (P : SqlDriverMessageMap -> Prop) (msgs : list SqlDriverMessageMap) :
  forall h : gmap string (list SqlDriverMessageMap),
    map_Forall (fun _ bucket => Forall P bucket) h ->
    Forall P msgs ->
    map_Forall (fun _ bucket => Forall P bucket) (store_all msgs h).
Proof.
  unfold store_all.
  induction msgs as [|mt msgs IH]; intros h Hh Hmsgs; cbn [foldl]; [done|].
  apply Forall_cons in Hmsgs as [Hmt Hmsgs]. apply IH; [|done].
  unfold store. apply map_Forall_insert_2; [|done].
  apply Forall_app. split; [|by constructor].
  destruct (h !! Key mt) as [bucket|] eqn:Hk; cbn; [by apply (Hh (Key mt)) | constructor].
Qed.

(** No bucket of a table built by [store_all] is empty. *)
Lemma store_all_nonempty (msgs : list SqlDriverMessageMap) :
  forall h : gmap string (list SqlDriverMessageMap),
    map_Forall (fun _ bucket => bucket <> []) h ->
    map_Forall (fun _ bucket => bucket <> []) (store_all msgs h).
Proof.
  unfold store_all.
  induction msgs as [|mt msgs IH]; intros h Hh; cbn [foldl]; [done|].
  apply IH. unfold store. apply map_Forall_insert_2; [|done].
  by destruct (default [] (h !! Key mt)).
Qed.

Lemma length_filter_pair (l : SqlDriverMessageMap) (rmsgs : list SqlDriverMessageMap) :
  length (filter (fun p : SqlDriverMessageMap * SqlDriverMessageMap => Key p.1 = Key p.2)
                 (map (pair l) rmsgs))
  = length (filter (fun r => Key r = Key l) rmsgs).
Proof.
  induction rmsgs as [|r rmsgs IH]; [done|]. cbn [map].
  rewrite !filter_cons. cbn [fst snd].
  destruct (decide (Key l = Key r)), (decide (Key r = Key l)); cbn; try congruence.
Qed.

Lemma matching_pairs_sum (lmsgs rmsgs : list SqlDriverMessageMap) :
  matching_pairs lmsgs rmsgs
  = sum_list_with (fun l => length (filter (fun r => Key r = Key l) rmsgs)) lmsgs.
Proof.
  unfold matching_pairs. induction lmsgs as [|l lmsgs IH]; [done|].
  cbn [list_prod sum_list_with]. rewrite filter_app, length_app, IH.
  by rewrite length_filter_pair.
Qed.

Lemma sum_pairs_store (rh h : gmap string (list SqlDriverMessageMap))
    (mt : SqlDriverMessageMap) :
  sum_list_with (pairs_of rh) (map_to_list (store h mt))
  = (sum_list_with (pairs_of rh) (map_to_list h) + length (rh !!! Key mt))%nat.
Proof.
  unfold store. destruct (h !! Key mt) as [bucket|] eqn:Hk; cbn [default].
  - rewrite <- (insert_delete_eq h (Key mt) (bucket ++ [mt])).
    rewrite <- (insert_delete_id h (Key mt) bucket Hk) at 2.
    rewrite !map_to_list_insert by apply lookup_delete_eq.
    cbn [sum_list_with]. unfold pairs_of at 1 3. cbn [fst snd].
    rewrite length_app. cbn. lia.
  - rewrite map_to_list_insert by done. cbn [sum_list_with].
    unfold pairs_of at 1. cbn. lia.
Qed.

Lemma sum_pairs_store_all (rh : gmap string (list SqlDriverMessageMap))
    (msgs : list SqlDriverMessageMap) : forall h,
  sum_list_with (pairs_of rh) (map_to_list (store_all msgs h))
  = (sum_list_with (pairs_of rh) (map_to_list h)
     + sum_list_with (fun l => length (rh !!! Key l)) msgs)%nat.
Proof.
  unfold store_all. induction msgs as [|mt msgs IH]; intros h; cbn [foldl sum_list_with].
  - lia.
  - rewrite IH, sum_pairs_store. lia.
Qed.

Lemma inner_join_size_store_all (lmsgs rmsgs : list SqlDriverMessageMap) :
  inner_join_size (store_all lmsgs ∅) (store_all rmsgs ∅) = matching_pairs lmsgs rmsgs.
Proof.
  unfold inner_join_size. rewrite <- sum_pairs_inner_join, sum_pairs_store_all.
  rewrite map_to_list_empty. cbn [sum_list_with]. rewrite matching_pairs_sum.
  induction lmsgs as [|l lmsgs IH]; [done|]. cbn [sum_list_with].
  rewrite store_all_lookup_total, lookup_total_empty. cbn in *. lia.
Qed.


(** A turn of an ingest goroutine that meets a keyed row stores it. *)
Lemma JoinMerge_worker_stores (side : Side) (s : JoinMergeState)
    (mt : SqlDriverMessageMap) (rest : list Message) :
  jm_crashed s = false ->
  worker (side_of side s) = W_Running ->
  buf (in_ch (side_of side s)) = MsgSqlDriverMessageMap mt :: rest ->
  Key mt <> EmptyString ->
  JoinMerge_worker side ArmMsg s
  = Stepped (after_worker side
               {| in_ch := tail_of (in_ch (side_of side s)) rest;
                  table := store (table (side_of side s)) mt;
                  worker := W_Running |}
               (jm_task s) (jm_wg s) (jm_fatalErr s) (jm_log s) false s).
Proof.
  intros Hlive Hrun Hbuf Hkey. unfold JoinMerge_worker, ingest.
  rewrite Hlive, Hrun, (recv_cons _ _ _ Hbuf).
  apply String.eqb_neq in Hkey. by rewrite Hkey.
Qed.

(** An ingest goroutine left alone with a closed input of keyed rows reads
    them all, files each under its key, calls [wg.Done()] and returns. *)
Lemma JoinMerge_worker_reads_all (m : JoinMerge) (side : Side)
    (msgs : list SqlDriverMessageMap) : forall s : JoinMergeState,
  jm_crashed s = false ->
  worker (side_of side s) = W_Running ->
  buf (in_ch (side_of side s)) = MsgSqlDriverMessageMap <$> msgs ->
  closed (in_ch (side_of side s)) = true ->
  Forall (fun mt => Key mt <> EmptyString) msgs ->
  JoinMerge_exec m (replicate (S (length msgs)) (ActWorker side ArmMsg)) s
  = after_worker side
      {| in_ch := tail_of (in_ch (side_of side s)) [];
         table := store_all msgs (table (side_of side s));
         worker := W_Done |}
      (jm_task s) (jm_wg s - 1) (jm_fatalErr s) (jm_log s) false s.
Proof.
  induction msgs as [|mt msgs IH]; intros s Hlive Hrun Hbuf Hclosed Hkeys.
  - cbn [length replicate]. apply JoinMerge_exec_step. cbn [JoinMerge_Run].
    destruct s as [task [[lbuf lcap lclosed] lh lworker] [[rbuf rcap rclosed] rh rworker]
                     wg fatalErr pc log crashed].
    destruct side; cbn in *; subst; reflexivity.
  - apply Forall_cons in Hkeys as [Hkey Hkeys].
    replace (replicate (S (length (mt :: msgs))) (ActWorker side ArmMsg))
      with ([ActWorker side ArmMsg] ++ replicate (S (length msgs)) (ActWorker side ArmMsg))
      by reflexivity.
    rewrite JoinMerge_exec_app.
    pose proof (JoinMerge_worker_stores side s mt _ Hlive Hrun Hbuf Hkey) as Hstep.
    rewrite (JoinMerge_exec_step m (ActWorker side ArmMsg) s _ Hstep).
    rewrite IH; [by destruct side | by destruct side..| done].
Qed.

(** X13: on two closed inputs of keyed rows that are long enough for the
    columns, and with room on [outCh], [JoinMerge.Run] has a schedule under
    which it returns [nil] having sent one row for every pair of a left and
    a right row with the same key, and closed [outCh]. *)
Theorem JoinMerge_joins_closed_inputs (m : JoinMerge)
    (lmsgs rmsgs : list SqlDriverMessageMap) (outCh : Chan) (lcap rcap : nat) :
  Forall (fun mt => Key mt <> EmptyString) lmsgs ->
  Forall (fun mt => Key mt <> EmptyString) rmsgs ->
  Forall (indexable (size (jm_colIndex m)) (Columns (Source (leftStmt m)))) lmsgs ->
  Forall (indexable (size (jm_colIndex m)) (Columns (Source (rightStmt m)))) rmsgs ->
  (length (buf outCh) + matching_pairs lmsgs rmsgs <= cap outCh)%nat ->
  exists sched out,
    let s := JoinMerge_exec m sched
               (JoinMerge_start outCh (closed_input lmsgs lcap) (closed_input rmsgs rcap)) in
    jm_pc s = M_Returned None false
    /\ buf (msgOutCh (jm_task s)) = buf outCh ++ (MsgSqlDriverMessageMap <$> out)
    /\ closed (msgOutCh (jm_task s)) = true
    /\ length out = matching_pairs lmsgs rmsgs.
Proof.
  intros Hlkeys Hrkeys Hlidx Hridx Hroom.
  set (s0 := JoinMerge_start outCh (closed_input lmsgs lcap) (closed_input rmsgs rcap)).
  set (lh := store_all lmsgs ∅). set (rh := store_all rmsgs ∅).
  pose proof (JoinMerge_worker_reads_all m SideLeft lmsgs s0
                eq_refl eq_refl eq_refl eq_refl Hlkeys) as Hleft.
  set (s1 := JoinMerge_exec m (replicate (S (length lmsgs)) (ActWorker SideLeft ArmMsg)) s0) in *.
  pose proof (JoinMerge_worker_reads_all m SideRight rmsgs s1) as Hright.
  rewrite Hleft in Hright. specialize (Hright eq_refl eq_refl eq_refl eq_refl Hrkeys).
  rewrite <- Hleft in Hright.
  set (s2 := JoinMerge_exec m (replicate (S (length rmsgs)) (ActWorker SideRight ArmMsg)) s1) in *.
  assert (Hs2 : jm_crashed s2 = false /\ jm_pc s2 = M_Wait /\ jm_wg s2 = 0
                /\ table (jm_left s2) = lh /\ table (jm_right s2) = rh
                /\ msgOutCh (jm_task s2) = outCh).
  { rewrite Hright, Hleft. cbn. done. }
  destruct Hs2 as (Hlive & Hwait & Hwg & Hlh & Hrh & Hout).
  set (s3 := after_main (jm_task s2) (M_Range lh 0) (jm_log s2) s2).
  assert (Hstep : JoinMerge_Run m (ActMain EmptyString) s2 = Stepped s3).
  { cbn [JoinMerge_Run]. unfold JoinMerge_main. by rewrite Hlive, Hwait, Hwg, Hlh. }
  assert (Hidx : tables_indexable m lh rh).
  { split; by apply store_all_Forall. }
  destruct (emitLoop_length m lh rh (map_to_list lh) 0 Hidx) as (out & Hloop & Hlen).
  { apply Forall_forall. intros [k vl] Hin. by apply elem_of_map_to_list in Hin. }
  assert (Hlen' : length out = matching_pairs lmsgs rmsgs).
  { rewrite Hlen, sum_pairs_inner_join. apply inner_join_size_store_all. }
  clear Hlen. rename Hlen' into Hlen.
  destruct (Run_emits_emitLoop m (map_to_list lh) s3 lh 0) as (sched & Hret & Hbuf & Hclosed).
  { done. }
  { done. }
  { done. }
  { change (table (jm_right s3)) with (table (jm_right s2)).
    change (msgOutCh (jm_task s3)) with (msgOutCh (jm_task s2)).
    rewrite Hrh, Hout, Hloop. cbn [fst]. by rewrite Hlen. }
  cbn zeta in *.
  change (table (jm_right s3)) with (table (jm_right s2)) in Hret, Hbuf.
  change (msgOutCh (jm_task s3)) with (msgOutCh (jm_task s2)) in Hbuf.
  rewrite Hrh, Hloop in Hret, Hbuf. rewrite Hout in Hbuf. cbn [fst snd negb] in Hret, Hbuf.
  exists (replicate (S (length lmsgs)) (ActWorker SideLeft ArmMsg)
          ++ replicate (S (length rmsgs)) (ActWorker SideRight ArmMsg)
          ++ [ActMain EmptyString] ++ sched), out.
  cbn zeta. rewrite !JoinMerge_exec_app. fold s0 s1 s2.
  rewrite (JoinMerge_exec_step _ _ _ _ Hstep). done.
Qed.

End Ingest.

(** Scenario 4 of the spec from its inputs: two left rows under [x], two
    right rows under [x] and one under [y]; four rows are sent. *)
Lemma JoinMerge_joins_closed_inputs_witness :
  exists sched out,
    let s := JoinMerge_exec scenario.join_kv sched
               (JoinMerge_start (scenario.chan_of [] 4)
                                (closed_input scenario.left_rows 1)
                                (closed_input scenario.right_rows 1)) in
    jm_pc s = M_Returned None false
    /\ buf (msgOutCh (jm_task s)) = [] ++ (MsgSqlDriverMessageMap <$> out)
    /\ closed (msgOutCh (jm_task s)) = true
    /\ length out = 4%nat.
Proof.
  apply (@JoinMerge_joins_closed_inputs scenario.host scenario.collaborators
           scenario.join_kv scenario.left_rows scenario.right_rows (scenario.chan_of [] 4) 1 1).
  - repeat constructor; done.
  - repeat constructor; done.
  - apply (bool_decide_unpack _). vm_compute. exact I.
  - apply (bool_decide_unpack _). vm_compute. exact I.
  - vm_compute. lia.
Defined.

(** ** exec/join.go: the ways [JoinMerge.Run] does not return *)

Section JoinMergeFailures.
Context `{host : Host} `{collaborators : !Collaborators}.

(** While [Run] is held at [wg.Wait()] by a goroutine that returned without
    [wg.Done()], no step closes [msgOutCh]. *)
Lemma JoinMerge_Run_abandoned_output (m : JoinMerge) (a : Action) (s s' : JoinMergeState) :
  JoinMerge_Run m a s = Stepped s' -> abandoned s ->
  closed (msgOutCh (jm_task s')) = closed (msgOutCh (jm_task s)).
Proof.
  intros Hstep ([Hwg _] & Hquit & Hwait).
  destruct a as [side arm|pick| |]; cbn [JoinMerge_Run] in Hstep.
  - unfold JoinMerge_worker in Hstep.
    destruct (jm_crashed s); [done|].
    destruct (worker (side_of side s)); try done.
    destruct (ingest _ arm _); try done; by injection Hstep as <-.
  - unfold JoinMerge_main in Hstep. destruct (jm_crashed s); [done|].
    rewrite Hwait in Hstep. destruct (Z.eqb_spec (jm_wg s) 0) as [Hzero|]; [|done].
    exfalso. destruct Hquit as [Hq|Hq]; rewrite Hq in Hwg;
      destruct (worker (jm_left s)), (worker (jm_right s)); cbn in Hwg; lia.
  - destruct (_ || _); [done|]. by injection Hstep as <-.
  - unfold recv in Hstep. destruct (buf (msgOutCh (jm_task s))) as [|msg rest].
    + by destruct (closed (msgOutCh (jm_task s))).
    + by injection Hstep as <-.
Qed.

Lemma JoinMerge_exec_abandoned_output (m : JoinMerge) (sched : list Action) : forall s,
  abandoned s ->
  closed (msgOutCh (jm_task (JoinMerge_exec m sched s))) = closed (msgOutCh (jm_task s)).
Proof.
  induction sched as [|a sched IH]; intros s Hs; [done|].
  unfold JoinMerge_exec. cbn [foldl].
  destruct (JoinMerge_Run m a s) as [s'| |] eqn:Hstep; [|by apply IH..].
  fold (JoinMerge_exec m sched s'). rewrite IH by (by eapply JoinMerge_Run_abandoned).
  by eapply JoinMerge_Run_abandoned_output.
Qed.

(** A goroutine that leaves its loop without [wg.Done()] leaves [Run]
    abandoned. *)
Lemma JoinMerge_worker_quits_abandoned (m : JoinMerge) (side : Side) (arm : Arm)
    (s s1 : JoinMergeState) :
  wg_consistent s ->
  JoinMerge_Run m (ActWorker side arm) s = Stepped s1 ->
  worker (side_of side s1) = W_Quit ->
  abandoned s1.
Proof.
  intros Hcons Hstep Hquit.
  split; [by eapply JoinMerge_Run_consistent|].
  cbn [JoinMerge_Run] in Hstep.
  apply JoinMerge_worker_effect in Hstep as (Hrun & Hpc' & _).
  split; [destruct side; auto|].
  rewrite Hpc'. by eapply running_means_waiting.
Qed.

(** X14: when an ingest goroutine of [JoinMerge.Run] receives a message
    that is not a [*SqlDriverMessageMap] (lines 215-218 and 249-252), it
    sets [fatalErr] to the error naming the message's type, closes [sigCh]
    and returns without [wg.Done()], leaving its table as it was; from then
    on, under every schedule, [Run] stays at [wg.Wait()] and [msgOutCh] is
    never closed. *)
Theorem JoinMerge_wrong_type_is_fatal_and_hangs (m : JoinMerge) (side : Side)
    (s : JoinMergeState) (msg : Message) (rest : list Message) :
  wg_consistent s ->
  jm_crashed s = false ->
  worker (side_of side s) = W_Running ->
  buf (in_ch (side_of side s)) = msg :: rest ->
  not_a_row msg ->
  exists s1,
    JoinMerge_Run m (ActWorker side ArmMsg) s = Stepped s1
    /\ jm_fatalErr s1
       = Some (Errorf_T "To use Join must use SqlDriverMessageMap but got %T" (typeName_of msg))
    /\ sigCh (jm_task s1) = true
    /\ table (side_of side s1) = table (side_of side s)
    /\ forall sched,
         jm_pc (JoinMerge_exec m sched s1) = M_Wait
         /\ closed (msgOutCh (jm_task (JoinMerge_exec m sched s1)))
            = closed (msgOutCh (jm_task s)).
Proof.
  intros Hcons Hlive Hrun Hin Hmsg.
  assert (Hstep : exists s1, JoinMerge_Run m (ActWorker side ArmMsg) s = Stepped s1
                    /\ jm_fatalErr s1
                       = Some (Errorf_T "To use Join must use SqlDriverMessageMap but got %T"
                                        (typeName_of msg))
                    /\ sigCh (jm_task s1) = true
                    /\ table (side_of side s1) = table (side_of side s)
                    /\ worker (side_of side s1) = W_Quit
                    /\ msgOutCh (jm_task s1) = msgOutCh (jm_task s)).
  { cbn [JoinMerge_Run]. unfold JoinMerge_worker, ingest.
    rewrite Hlive, Hrun, (recv_cons _ _ _ Hin).
    destruct msg; try done; (eexists; split; [reflexivity|]); destruct side; done. }
  destruct Hstep as (s1 & Hstep & Hfatal & Hsig & Htable & Hquit & Hout).
  exists s1. repeat split; try done.
  - apply JoinMerge_exec_abandoned. by eapply JoinMerge_worker_quits_abandoned.
  - rewrite <- Hout. apply JoinMerge_exec_abandoned_output.
    by eapply JoinMerge_worker_quits_abandoned.
Qed.

(** X15: when [sigCh] is closed and an ingest goroutine of
    [JoinMerge.Run] takes that case of its [select] (lines 197-199 and
    231-233), it logs its warning and returns without [wg.Done()]; from
    then on, under every schedule, [Run] stays at [wg.Wait()] and
    [msgOutCh] is never closed. *)
Theorem JoinMerge_quit_signal_hangs (m : JoinMerge) (side : Side) (s : JoinMergeState) :
  wg_consistent s ->
  jm_crashed s = false ->
  worker (side_of side s) = W_Running ->
  sigCh (jm_task s) = true ->
  exists s1,
    JoinMerge_Run m (ActWorker side ArmSig) s = Stepped s1
    /\ jm_log s1 = jm_log s ++ [quit_warning side]
    /\ side_of side s1 = {| in_ch := in_ch (side_of side s);
                            table := table (side_of side s);
                            worker := W_Quit |}
    /\ jm_wg s1 = jm_wg s
    /\ forall sched,
         jm_pc (JoinMerge_exec m sched s1) = M_Wait
         /\ closed (msgOutCh (jm_task (JoinMerge_exec m sched s1)))
            = closed (msgOutCh (jm_task s)).
Proof.
  intros Hcons Hlive Hrun Hsig.
  assert (Hstep : exists s1, JoinMerge_Run m (ActWorker side ArmSig) s = Stepped s1
                    /\ jm_log s1 = jm_log s ++ [quit_warning side]
                    /\ side_of side s1 = {| in_ch := in_ch (side_of side s);
                                            table := table (side_of side s);
                                            worker := W_Quit |}
                    /\ jm_wg s1 = jm_wg s
                    /\ msgOutCh (jm_task s1) = msgOutCh (jm_task s)).
  { cbn [JoinMerge_Run]. unfold JoinMerge_worker, ingest.
    rewrite Hlive, Hrun, Hsig. eexists. split; [reflexivity|]. destruct side; done. }
  destruct Hstep as (s1 & Hstep & Hlog & Hside & Hwg & Hout).
  assert (Hab : abandoned s1).
  { eapply JoinMerge_worker_quits_abandoned; [done..|]. by rewrite Hside. }
  exists s1. repeat split; try done.
  - by apply JoinMerge_exec_abandoned.
  - rewrite <- Hout. by apply JoinMerge_exec_abandoned_output.
Qed.

(** Once the process has crashed, none of its goroutines moves. *)
Lemma JoinMerge_crashed_stays (m : JoinMerge) (sched : list Action) : forall s,
  jm_crashed s = true ->
  jm_crashed (JoinMerge_exec m sched s) = true
  /\ jm_pc (JoinMerge_exec m sched s) = jm_pc s.
Proof.
  induction sched as [|a sched IH]; intros s Hs; [done|].
  unfold JoinMerge_exec. cbn [foldl].
  destruct (JoinMerge_Run m a s) as [s'| |] eqn:Hstep; [|by apply IH..].
  fold (JoinMerge_exec m sched s').
  assert (Hs' : jm_crashed s' = true /\ jm_pc s' = jm_pc s).
  { destruct a as [side arm|pick| |]; cbn [JoinMerge_Run] in Hstep.
    - unfold JoinMerge_worker in Hstep. by rewrite Hs in Hstep.
    - unfold JoinMerge_main in Hstep. by rewrite Hs in Hstep.
    - by rewrite Hs in Hstep.
    - destruct (recv _) as [[[msg|] outCh]|]; try done. by injection Hstep as <-. }
  destruct Hs' as [Hc Hpc]. rewrite <- Hpc. by apply IH.
Qed.

(** X16: when [sigCh] is already closed and an ingest goroutine of
    [JoinMerge.Run] receives a message that is not a row, or a row with an
    empty key, its [close(m.TaskBase.sigCh)] closes a closed channel: the
    goroutine panics with no recover, and nothing moves afterwards. *)
Theorem JoinMerge_fatal_on_closed_sigCh_crashes (m : JoinMerge) (side : Side)
    (s : JoinMergeState) (msg : Message) (rest : list Message) :
  wg_consistent s ->
  jm_crashed s = false ->
  worker (side_of side s) = W_Running ->
  sigCh (jm_task s) = true ->
  buf (in_ch (side_of side s)) = msg :: rest ->
  (not_a_row msg \/ exists mt, msg = MsgSqlDriverMessageMap mt /\ Key mt = EmptyString) ->
  exists s1,
    JoinMerge_Run m (ActWorker side ArmMsg) s = Stepped s1
    /\ jm_crashed s1 = true
    /\ forall sched,
         jm_crashed (JoinMerge_exec m sched s1) = true
         /\ jm_pc (JoinMerge_exec m sched s1) = M_Wait.
Proof.
  intros Hcons Hlive Hrun Hsig Hin Hmsg.
  pose proof (running_means_waiting side s Hcons Hrun) as Hwait.
  assert (Hstep : exists s1, JoinMerge_Run m (ActWorker side ArmMsg) s = Stepped s1
                    /\ jm_crashed s1 = true /\ jm_pc s1 = M_Wait).
  { cbn [JoinMerge_Run]. unfold JoinMerge_worker, ingest.
    rewrite Hlive, Hrun, (recv_cons _ _ _ Hin), Hsig.
    destruct Hmsg as [Hmsg | (mt & -> & Hkey)].
    - destruct msg; try done; by eexists.
    - rewrite Hkey. by eexists. }
  destruct Hstep as (s1 & Hstep & Hcrash & Hpc).
  exists s1. split; [done|]. split; [done|]. intros sched.
  rewrite <- Hpc. by apply JoinMerge_crashed_stays.
Qed.

End JoinMergeFailures.

(** A message of another type on the left input. *)
Lemma JoinMerge_wrong_type_is_fatal_and_hangs_witness :
  exists s1,
    JoinMerge_Run scenario.join_kv (ActWorker SideLeft ArmMsg) scenario.start_other_message
    = Stepped s1
    /\ jm_fatalErr s1
       = Some (Errorf_T "To use Join must use SqlDriverMessageMap but got %T" "*other.Message")
    /\ sigCh (jm_task s1) = true
    /\ table (side_of SideLeft s1) = ∅
    /\ forall sched,
         jm_pc (JoinMerge_exec scenario.join_kv sched s1) = M_Wait
         /\ closed (msgOutCh (jm_task (JoinMerge_exec scenario.join_kv sched s1))) = false.
Proof.
  apply (@JoinMerge_wrong_type_is_fatal_and_hangs scenario.host scenario.collaborators
           scenario.join_kv SideLeft scenario.start_other_message
           (MsgOther "*other.Message") []).
  - apply JoinMerge_start_consistent.
  - reflexivity.
  - reflexivity.
  - reflexivity.
  - exact I.
Defined.

(** [sigCh] closed from outside while the right goroutine is in its
    loop. *)
Lemma JoinMerge_quit_signal_hangs_witness :
  exists s1,
    JoinMerge_Run scenario.join_kv (ActWorker SideRight ArmSig)
      scenario.start_other_message_cancelled = Stepped s1
    /\ jm_log s1 = [] ++ [Warnf "got quit signal join source 1"]
    /\ side_of SideRight s1
       = {| in_ch := scenario.chan_of [] 1; table := ∅; worker := W_Quit |}
    /\ jm_wg s1 = 2
    /\ forall sched,
         jm_pc (JoinMerge_exec scenario.join_kv sched s1) = M_Wait
         /\ closed (msgOutCh (jm_task (JoinMerge_exec scenario.join_kv sched s1))) = false.
Proof.
  apply (@JoinMerge_quit_signal_hangs scenario.host scenario.collaborators
           scenario.join_kv SideRight scenario.start_other_message_cancelled).
  - split; [reflexivity | done].
  - reflexivity.
  - reflexivity.
  - reflexivity.
Defined.

(** A message of another type received after [sigCh] has been closed. *)
Lemma JoinMerge_fatal_on_closed_sigCh_crashes_witness :
  exists s1,
    JoinMerge_Run scenario.join_kv (ActWorker SideLeft ArmMsg)
      scenario.start_other_message_cancelled = Stepped s1
    /\ jm_crashed s1 = true
    /\ forall sched,
         jm_crashed (JoinMerge_exec scenario.join_kv sched s1) = true
         /\ jm_pc (JoinMerge_exec scenario.join_kv sched s1) = M_Wait.
Proof.
  apply (@JoinMerge_fatal_on_closed_sigCh_crashes scenario.host scenario.collaborators
           scenario.join_kv SideLeft scenario.start_other_message_cancelled
           (MsgOther "*other.Message") []).
  - split; [reflexivity | done].
  - reflexivity.
  - reflexivity.
  - reflexivity.
  - reflexivity.
  - left. exact I.
Defined.

(** ** exec/join.go: the rows [JoinMerge.Run] sends *)

Section EmittedRows.
Context `{host : Host} `{collaborators : !Collaborators}.

Lemma advance_add (i : Z) (a b : nat) : advance i (a + b) = advance (advance i a) b.
Proof. unfold advance. rewrite Nat.add_comm. apply Nat.iter_add. Qed.

Lemma advance_uint64 (i : Z) (n : nat) :
  0 <= i < 2 ^ 64 -> advance i n = uint64_wrap (i + Z.of_nat n).
Proof.
  intros Hi. unfold advance, uint64_wrap. induction n as [|n IH].
  - rewrite Z.add_0_r, Z.mod_small by lia. reflexivity.
  - rewrite Nat.iter_succ, IH.
    rewrite Z.add_mod_idemp_l by lia. f_equal. lia.
Qed.

Lemma IdVal_number (msgs : list SqlDriverMessageMap) : forall i,
  IdVal <$> number i msgs = advance i <$> seq 0 (length msgs).
Proof.
  induction msgs as [|msg msgs IH]; intros i; [done|].
  cbn [number length seq fmap list_fmap]. f_equal. fold (fmap (M := list) IdVal).
  rewrite IH, <- fmap_S_seq, <- list_fmap_compose.
  apply list_fmap_ext. intros _ n _. cbn. unfold advance.
  exact (Nat.iter_swap n _ (fun i => uint64_wrap (i + 1)) i).
Qed.

Lemma IdVal_emitLoop (m : JoinMerge) (rh : gmap string (list SqlDriverMessageMap))
    (order : list (string * list SqlDriverMessageMap)) : forall i,
  IdVal <$> (emitLoop m rh i order).1
  = advance i <$> seq 0 (length (emitLoop m rh i order).1).
Proof.
  induction order as [|[keyLeft valLeft] order IH]; intros i; [done|].
  cbn [emitLoop]. unfold emitKey.
  destruct (rh !! keyLeft) as [valRight|]; cbn.
  - destruct (mergeValueMessages m valLeft valRight) as [[msgs log]|]; cbn; [|done].
    specialize (IH (advance i (length msgs))).
    destruct (emitLoop m rh (advance i (length msgs)) order) as [rest completed]. cbn in *.
    rewrite fmap_app, length_app, seq_app, fmap_app, IdVal_number, IH, length_number.
    f_equal. change (0 + length msgs)%nat with (length msgs).
    rewrite <- (Nat.add_0_r (length msgs)) at 2.
    rewrite <- (fmap_add_seq (length msgs) 0), <- list_fmap_compose.
    apply list_fmap_ext. intros _ n _. cbn. symmetry. apply advance_add.
  - specialize (IH i). by destruct (emitLoop m rh i order) as [rest completed].
Qed.

Lemma mergePair_shape (m : JoinMerge) lm rm r log :
  mergePair m lm rm = Some (r, log) -> IdVal r = 0 /\ merged_shape m r.
Proof.
  unfold mergePair. intros Hpair.
  destruct (valIndexing _ (Values lm) _) as [[vals1 log1]|] eqn:Hleft; [|done].
  cbn in Hpair.
  destruct (valIndexing vals1 (Values rm) _) as [[vals2 log2]|] eqn:Hright; [|done].
  cbn in Hpair. injection Hpair as <- _.
  apply valIndexing_length in Hleft, Hright. rewrite length_replicate in Hleft.
  repeat split. cbn. congruence.
Qed.

Lemma mergeRight_shape (m : JoinMerge) lm rmsgs : forall out log,
  mergeRight m lm rmsgs = Some (out, log) -> Forall (merged_shape m) out.
Proof.
  induction rmsgs as [|rm rmsgs IH]; intros out log; cbn [mergeRight].
  - intros [= <- _]. constructor.
  - destruct (mergePair m lm rm) as [[newMsg log1]|] eqn:Hpair; [|done]. cbn.
    destruct (mergeRight m lm rmsgs) as [[out' log2]|]; [|done]. cbn.
    intros [= <- _]. constructor; [|by eapply IH].
    by apply mergePair_shape in Hpair as [_ ?].
Qed.

Lemma mergeValueMessages_shape (m : JoinMerge) lmsgs rmsgs : forall out log,
  mergeValueMessages m lmsgs rmsgs = Some (out, log) -> Forall (merged_shape m) out.
Proof.
  induction lmsgs as [|lm lmsgs IH]; intros out log; cbn [mergeValueMessages].
  - intros [= <- _]. constructor.
  - destruct (mergeRight m lm rmsgs) as [[out1 log1]|] eqn:Hright; [|done]. cbn.
    destruct (mergeValueMessages m lmsgs rmsgs) as [[out2 log2]|]; [|done]. cbn.
    intros [= <- _]. apply Forall_app. split; [by eapply mergeRight_shape | by eapply IH].
Qed.

Lemma number_shape (m : JoinMerge) (msgs : list SqlDriverMessageMap) : forall i,
  Forall (merged_shape m) msgs -> Forall (merged_shape m) (number i msgs).
Proof.
  induction msgs as [|msg msgs IH]; intros i Hall; [constructor|].
  apply Forall_cons in Hall as [Hmsg Hall]. cbn [number].
  constructor; [exact Hmsg | by apply IH].
Qed.

Lemma emitLoop_shape (m : JoinMerge) (rh : gmap string (list SqlDriverMessageMap))
    (order : list (string * list SqlDriverMessageMap)) : forall i,
  Forall (merged_shape m) (emitLoop m rh i order).1.
Proof.
  induction order as [|[keyLeft valLeft] order IH]; intros i; [constructor|].
  cbn [emitLoop]. unfold emitKey.
  destruct (rh !! keyLeft) as [valRight|]; cbn.
  - destruct (mergeValueMessages m valLeft valRight) as [[msgs log]|] eqn:Hmerge; cbn;
      [|constructor].
    specialize (IH (advance i (length msgs))).
    destruct (emitLoop m rh (advance i (length msgs)) order) as [rest completed]. cbn in *.
    apply Forall_app. split; [|done].
    apply number_shape. by eapply mergeValueMessages_shape.
  - specialize (IH i). by destruct (emitLoop m rh i order) as [rest completed].
Qed.

(** X17: whatever the tables and the order of the range, the rows the
    emission loop of [JoinMerge.Run] sends carry the ids [0, 1, 2, ...] in
    the order sent (in [uint64] arithmetic), the column index of the join,
    one value for every entry of that index, and an empty key; so a
    [JoinMerge] that ingests such a row takes its fatal missing-key
    branch. *)
Theorem emitted_rows_are_numbered_and_keyless (m : JoinMerge)
    (rh : gmap string (list SqlDriverMessageMap))
    (order : list (string * list SqlDriverMessageMap)) :
  let out := (emitLoop m rh 0 order).1 in
  IdVal <$> out = (fun n => uint64_wrap (Z.of_nat n)) <$> seq 0 (length out)
  /\ Forall (fun r => colIndex r = jm_colIndex m
                      /\ length (Values r) = size (jm_colIndex m)
                      /\ Key r = EmptyString) out
  /\ Forall (fun r => ingest false ArmMsg
                        {| in_ch := {| buf := [MsgSqlDriverMessageMap r]; cap := 1;
                                       closed := false |};
                           table := ∅; worker := W_Running |}
                      = I_Fatal {| buf := []; cap := 1; closed := false |}
                                (Errorf_row no_key_format (Row r))) out.
Proof.
  cbn zeta. split; [|split].
  - rewrite IdVal_emitLoop. apply list_fmap_ext. intros _ n _.
    by rewrite advance_uint64 by lia.
  - apply emitLoop_shape.
  - eapply Forall_impl; [apply emitLoop_shape|]. intros r (_ & _ & Hkey).
    unfold ingest, recv. cbn. by rewrite Hkey.
Qed.

End EmittedRows.

Section ValIndexing.
Context `{host : Host} `{collaborators : !Collaborators}.

Lemma last_writer_cons (n : nat) (col : Column Node) (cols : list (Column Node)) (p : nat) :
  last_writer n (col :: cols) p
  = match last_writer n cols p with
    | Some c => Some c
    | None => if decide (writes n col /\ ParentIndex col = Z.of_nat p) then Some col else None
    end.
Proof.
  unfold last_writer. rewrite filter_cons.
  destruct (decide (writes n col /\ ParentIndex col = Z.of_nat p)).
  - by rewrite last_cons.
  - by destruct (last _).
Qed.

Lemma valIndexing_last_writer (valSource : list Raw) (cols : list (Column Node)) :
  forall (valOut out : list Raw) (log : list LogLine),
    valIndexing valOut valSource cols = Some (out, log) ->
    (forall p : nat,
       out !! p = match last_writer (length valOut) cols p with
                  | Some col => index valSource (SourceIndex col)
                  | None => valOut !! p
                  end)
    /\ log = (fun _ => Warnf "not enough values to read col? i=%v len(vals)=%v  %#v")
             <$> beyond (length valOut) cols.
Proof.
  induction cols as [|col cols IH]; intros valOut out log; cbn [valIndexing].
  - intros [= <- <-]. done.
  - unfold beyond. rewrite filter_cons. fold (beyond (length valOut) cols).
    destruct (Z.ltb_spec (ParentIndex col) 0) as [Hneg|Hpos].
    { intros Hrec. apply IH in Hrec as [Hout Hlog]. split.
      - intros p. rewrite last_writer_cons, Hout.
        destruct (last_writer (length valOut) cols p); [done|].
        destruct (decide _) as [[[? ?] ?]|]; [lia | done].
      - destruct (decide _); [lia | done]. }
    destruct (Z.geb_spec (ParentIndex col) (Z.of_nat (length valOut))) as [Hge|Hlt].
    { destruct (valIndexing valOut valSource cols) as [[out' log']|] eqn:Hrec; [|done].
      cbn. intros [= <- <-]. apply IH in Hrec as [Hout Hlog]. split.
      - intros p. rewrite last_writer_cons, Hout.
        destruct (last_writer (length valOut) cols p); [done|].
        destruct (decide _) as [[[? ?] ?]|]; [lia | done].
      - destruct (decide _); [|lia]. cbn. by rewrite Hlog. }
    destruct (index valSource (SourceIndex col)) as [v|] eqn:Hv; [|done]. cbn.
    intros Hrec. apply IH in Hrec as [Hout Hlog]. rewrite length_insert in Hout, Hlog.
    split.
    + intros p. rewrite last_writer_cons, Hout.
      destruct (last_writer (length valOut) cols p); [done|].
      destruct (decide _) as [[_ Hp]|Hnp].
      * rewrite Hp, Nat2Z.id, list_lookup_insert_eq by lia. done.
      * rewrite list_lookup_insert_ne; [done|]. intros <-. apply Hnp.
        unfold writes. lia.
    + destruct (decide _); [lia | done].
Qed.

(** X18: when [valIndexing] returns, its result has the length of
    [valOut]; position [p] holds [valSource[col.SourceIndex]] for the last
    column [col] with [ParentIndex = p] in range, and what [valOut] held
    when there is none; and one warning is logged for every column whose
    [ParentIndex] is at least [len(valOut)]. *)
Theorem valIndexing_last_writer_wins (valOut valSource out : list Raw)
    (cols : list (Column Node)) (log : list LogLine) :
  valIndexing valOut valSource cols = Some (out, log) ->
  length out = length valOut
  /\ (forall p : nat,
        out !! p = match last_writer (length valOut) cols p with
                   | Some col => index valSource (SourceIndex col)
                   | None => valOut !! p
                   end)
  /\ log = (fun _ => Warnf "not enough values to read col? i=%v len(vals)=%v  %#v")
           <$> beyond (length valOut) cols.
Proof.
  intros Hval. split; [by eapply valIndexing_length|].
  by apply valIndexing_last_writer.
Qed.

(** X19: in a row built by [mergeValueMessages] from a left and a right
    row, position [p] holds the value of the last right column with
    [ParentIndex = p]; failing that, of the last left column with
    [ParentIndex = p]; failing that, [nil]. *)
Theorem merged_row_right_overwrites_left (m : JoinMerge) (lm rm r : SqlDriverMessageMap)
    (log : list LogLine) :
  mergePair m lm rm = Some (r, log) ->
  forall p : nat, (p < size (jm_colIndex m))%nat ->
    Values r !! p
    = match last_writer (size (jm_colIndex m)) (Columns (Source (rightStmt m))) p with
      | Some col => index (Values rm) (SourceIndex col)
      | None =>
          match last_writer (size (jm_colIndex m)) (Columns (Source (leftStmt m))) p with
          | Some col => index (Values lm) (SourceIndex col)
          | None => Some RawNil
          end
      end.
Proof.
  unfold mergePair. intros Hpair p Hp.
  destruct (valIndexing _ (Values lm) _) as [[vals1 log1]|] eqn:Hleft; [|done].
  cbn in Hpair.
  destruct (valIndexing vals1 (Values rm) _) as [[vals2 log2]|] eqn:Hright; [|done].
  cbn in Hpair. injection Hpair as <- _. cbn [Values Vals NewSqlDriverMessageMap].
  apply valIndexing_length in Hleft as Hlen1. rewrite length_replicate in Hlen1.
  apply valIndexing_last_writer in Hleft as [Hout1 _], Hright as [Hout2 _].
  rewrite length_replicate in Hout1. rewrite Hlen1 in Hout2.
  rewrite Hout2. destruct (last_writer _ (Columns (Source (rightStmt m))) p); [done|].
  rewrite Hout1. destruct (last_writer _ (Columns (Source (leftStmt m))) p); [done|].
  by apply lookup_replicate_2.
Qed.

End ValIndexing.

(** The left columns of scenario 4 applied to the row [x, 1]: positions 0
    and 1 are written, 2 and 3 are left alone. *)
Lemma valIndexing_last_writer_wins_witness :
  length [@RawString scenario.host "x"; RawInt64 1; RawNil; RawNil] = 4%nat
  /\ (forall p : nat,
        [@RawString scenario.host "x"; RawInt64 1; RawNil; RawNil] !! p
        = match @last_writer scenario.host scenario.collaborators 4
                  [scenario.col "k" 0 0; scenario.col "v" 1 1] p with
          | Some col => index [@RawString scenario.host "x"; RawInt64 1] (SourceIndex col)
          | None => [@RawNil scenario.host; RawNil; RawNil; RawNil] !! p
          end)
  /\ [] = (fun _ => Warnf "not enough values to read col? i=%v len(vals)=%v  %#v")
          <$> @beyond scenario.host scenario.collaborators 4
                [scenario.col "k" 0 0; scenario.col "v" 1 1].
Proof.
  apply (@valIndexing_last_writer_wins scenario.host scenario.collaborators
           [RawNil; RawNil; RawNil; RawNil] [RawString "x"; RawInt64 1]
           [RawString "x"; RawInt64 1; RawNil; RawNil]
           [scenario.col "k" 0 0; scenario.col "v" 1 1] []).
  reflexivity.
Defined.

(** Scenario 4: position 3 of the merged row is the right row's [v]. *)
Lemma merged_row_right_overwrites_left_witness :
  Values (NewSqlDriverMessageMap 0
            [@RawString scenario.host "x"; RawInt64 1; RawString "x"; RawInt64 9]
            (jm_colIndex scenario.join_kv)) !! 3%nat
  = match last_writer (size (jm_colIndex scenario.join_kv))
            (Columns (Source (rightStmt scenario.join_kv))) 3 with
    | Some col => index (Values (scenario.keyed "x" [RawString "x"; RawInt64 9]))
                        (SourceIndex col)
    | None =>
        match last_writer (size (jm_colIndex scenario.join_kv))
                (Columns (Source (leftStmt scenario.join_kv))) 3 with
        | Some col => index (Values (scenario.keyed "x" [RawString "x"; RawInt64 1]))
                            (SourceIndex col)
        | None => Some RawNil
        end
    end.
Proof.
  apply (@merged_row_right_overwrites_left scenario.host scenario.collaborators
           scenario.join_kv (scenario.keyed "x" [RawString "x"; RawInt64 1])
           (scenario.keyed "x" [RawString "x"; RawInt64 9]) _ []).
  - vm_compute. reflexivity.
  - vm_compute. lia.
Defined.

Section ColIndex.
Context `{host : Host} `{collaborators : !Collaborators}.

Lemma foldl_insert_lookup {A : Type} (f : A -> string) (g : A -> Z) (l : list A) (k : string) :
  forall ci : gmap string Z,
    foldl (fun ci e => <[f e := g e]> ci) ci l !! k
    = match last (filter (fun e => f e = k) l) with
      | Some e => Some (g e)
      | None => ci !! k
      end.
Proof.
  induction l as [|e l IH] using rev_ind; intros ci; [done|].
  rewrite foldl_app, filter_app. cbn [foldl]. rewrite filter_cons, filter_nil.
  destruct (decide (f e = k)) as [<-|Hne].
  - by rewrite last_snoc, lookup_insert_eq.
  - rewrite app_nil_r, lookup_insert_ne by done. apply IH.
Qed.

Lemma foldl_insert_dom {A : Type} (f : A -> string) (g : A -> Z) (l : list A) :
  forall ci : gmap string Z,
    dom (foldl (fun ci e => <[f e := g e]> ci) ci l) = list_to_set (f <$> l) ∪ dom ci.
Proof.
  induction l as [|e l IH]; intros ci; cbn [foldl fmap list_fmap list_to_set].
  - by rewrite union_empty_l_L.
  - rewrite IH, dom_insert_L. apply set_eq. intros x.
    rewrite !elem_of_union, elem_of_singleton. tauto.
Qed.

Lemma indexColumns_foldl (stmt : SqlSource Node) (ci : gmap string Z) :
  indexColumns stmt ci
  = foldl (fun ci e => <[e.1 := e.2]> ci) ci
          ((fun col => (qualified stmt col, ParentIndex col)) <$> Columns (Source stmt)).
Proof.
  unfold indexColumns. generalize ci. induction (Columns (Source stmt)) as [|col cols IH];
    intros ci'; [done|]. cbn [foldl fmap list_fmap]. apply IH.
Qed.

Lemma colIndex_foldl (lfrom rfrom : SqlSource Node) :
  jm_colIndex (NewJoinNaiveMerge lfrom rfrom)
  = foldl (fun ci e => <[e.1 := e.2]> ci) ∅ (indexed lfrom rfrom).
Proof.
  unfold indexed. cbn [NewJoinNaiveMerge jm_colIndex].
  by rewrite foldl_app, !indexColumns_foldl.
Qed.

(** X20: the column index [Run] builds (lines 171-180) maps a qualified
    name [alias.key] to the [ParentIndex] of the last column that carries
    that name, left columns before right ones; it has no more entries than
    there are columns, and as many exactly when no two columns share a
    qualified name. *)
Theorem colIndex_last_column_wins (lfrom rfrom : SqlSource Node) :
  let ci := jm_colIndex (NewJoinNaiveMerge lfrom rfrom) in
  (forall k : string,
     ci !! k = snd <$> last (filter (fun e => e.1 = k) (indexed lfrom rfrom)))
  /\ (size ci <= length (Columns (Source lfrom)) + length (Columns (Source rfrom)))%nat
  /\ (size ci = (length (Columns (Source lfrom)) + length (Columns (Source rfrom)))%nat
      <-> NoDup (fst <$> indexed lfrom rfrom)).
Proof.
  cbn zeta. rewrite colIndex_foldl.
  assert (Hlen : length (fst <$> indexed lfrom rfrom)
                 = (length (Columns (Source lfrom)) + length (Columns (Source rfrom)))%nat).
  { unfold indexed. by rewrite length_fmap, length_app, !length_fmap. }
  assert (Hsize : size (foldl (fun ci e => <[e.1 := e.2]> ci) (∅ : gmap string Z)
                              (indexed lfrom rfrom))
                  = size (list_to_set (fst <$> indexed lfrom rfrom) : gset string)).
  { rewrite <- size_dom, foldl_insert_dom, dom_empty_L. by rewrite union_empty_r_L. }
  rewrite Hsize, <- Hlen. split; [|split].
  - intros k. rewrite (foldl_insert_lookup fst snd). rewrite lookup_empty.
    by destruct (last _).
  - apply size_list_to_set_le.
  - split; [apply size_list_to_set_le | apply size_list_to_set].
Qed.

End ColIndex.

(** ** exec/projection.go: what a projection writes *)

Section ProjectionWrites.
Context `{host : Host} `{collaborators : !Collaborators}.

Lemma selected_snoc (msg : Message) (columns : list (Column Node)) (col : Column Node)
    (k : string) :
  selected msg (columns ++ [col]) k
  = if decide (ColumnKey col = k /\ evaluated msg col) then Some (Eval msg (Expr col)).1
    else selected msg columns k.
Proof.
  unfold selected. rewrite filter_app, filter_cons, filter_nil.
  destruct (decide _); [by rewrite last_snoc | by rewrite app_nil_r].
Qed.

Lemma projectColumns_snoc {M : Type}
    (body : M -> ProjState -> Column Node -> option ProjState)
    (mt : M) (columns : list (Column Node)) (col : Column Node) (st : ProjState) :
  projectColumns body mt (columns ++ [col]) st
  = match projectColumns body mt columns st with
    | Some st' => body mt st' col
    | None => None
    end.
Proof. unfold projectColumns. by rewrite foldl_app. Qed.

Lemma plain_not_filtered (msg : Message) (col : Column Node) :
  plain col -> guardFilters msg col = (false, []).
Proof. intros [_ Hguard]. unfold guardFilters. by rewrite Hguard. Qed.

Lemma projectColumns_url_plain (mt : ContextUrlValues) (columns : list (Column Node)) :
  Forall plain columns ->
  exists wc, projectColumns projectColumnUrl mt columns (NewContextSimple, []) = Some (wc, [])
             /\ forall k, Data wc !! k = selected (MsgContextUrlValues mt) columns k.
Proof.
  induction columns as [|col columns IH] using rev_ind; intros Hplain.
  - exists NewContextSimple. split; [done|]. intros k. apply lookup_empty.
  - apply Forall_app in Hplain as [Hplain Hcol]. rewrite Forall_singleton in Hcol.
    destruct (IH Hplain) as (wc & Hrun & Hdata).
    rewrite projectColumns_snoc, Hrun. unfold projectColumnUrl, writeColumnUrl.
    rewrite (plain_not_filtered _ _ Hcol). destruct Hcol as [Hstar _]. rewrite Hstar.
    cbn [app]. destruct (Eval (MsgContextUrlValues mt) (Expr col)) as [v ok] eqn:Heval.
    destruct ok.
    + eexists. split; [reflexivity|]. intros k. rewrite selected_snoc.
      cbn [Put Data].
      destruct (decide _) as [[<- _]|Hn].
      * rewrite lookup_insert_eq. by rewrite Heval.
      * rewrite lookup_insert_ne; [apply Hdata|].
        intros Heq. apply Hn. split; [done|]. unfold evaluated. by rewrite Heval.
    + exists wc. split; [reflexivity|]. intros k. rewrite selected_snoc.
      destruct (decide _) as [[_ He]|_]; [|apply Hdata].
      unfold evaluated in He. by rewrite Heval in He.
Qed.

Lemma projectColumns_sql_plain (mt : SqlDriverMessageMap) (columns : list (Column Node)) :
  Forall plain columns ->
  exists wc log,
    projectColumns projectColumnSql mt columns (NewContextSimple, []) = Some (wc, log)
    /\ forall k, Data wc !! k = selected (MsgSqlDriverMessageMap mt) (projected columns) k.
Proof.
  induction columns as [|col columns IH] using rev_ind; intros Hplain.
  - exists NewContextSimple, []. split; [done|]. intros k. apply lookup_empty.
  - apply Forall_app in Hplain as [Hplain Hcol]. rewrite Forall_singleton in Hcol.
    destruct (IH Hplain) as (wc & log & Hrun & Hdata).
    rewrite projectColumns_snoc, Hrun. unfold projectColumnSql, writeColumnSql, projected.
    rewrite filter_app, filter_cons, filter_nil.
    destruct (Z.ltb_spec (ParentIndex col) 0) as [Hneg|Hpos].
    { exists wc, log. split; [done|]. intros k.
      rewrite decide_False by lia. rewrite app_nil_r. apply Hdata. }
    rewrite decide_True by lia.
    rewrite (plain_not_filtered _ _ Hcol). destruct Hcol as [Hstar _]. rewrite Hstar.
    destruct (Eval (MsgSqlDriverMessageMap mt) (Expr col)) as [v ok] eqn:Heval.
    destruct ok; cbn [negb].
    + assert (Hput : forall k,
                Data (Put col (MsgSqlDriverMessageMap mt) v wc) !! k
                = selected (MsgSqlDriverMessageMap mt)
                           (filter (fun col => 0 <= ParentIndex col) columns ++ [col]) k).
      { intros k. rewrite selected_snoc. cbn [Put Data].
        destruct (decide _) as [[<- _]|Hn].
        - rewrite lookup_insert_eq. by rewrite Heval.
        - rewrite lookup_insert_ne; [apply Hdata|].
          intros Heq. apply Hn. split; [done|]. unfold evaluated. by rewrite Heval. }
      destruct v as [v|]; eexists _, _; (split; [reflexivity | exact Hput]).
    + eexists wc, _. split; [reflexivity|]. intros k. rewrite selected_snoc.
      destruct (decide _) as [[_ He]|_]; [|apply Hdata].
      unfold evaluated in He. by rewrite Heval in He.
Qed.

(** X21: for columns that are neither stars nor guarded, the projection
    of a [ContextUrlValues] logs nothing and puts under each key the value
    of the last column with that key whose expression evaluates; the
    projection of a [SqlDriverMessageMap] does the same over the columns
    with [ParentIndex >= 0]; a key with no such column is absent. *)
Theorem plain_projection_selects (columns : list (Column Node)) :
  Forall plain columns ->
  (forall mt : ContextUrlValues,
     exists wc, project columns (MsgContextUrlValues mt) = Some (MsgContextSimple wc, [])
                /\ forall k, Data wc !! k = selected (MsgContextUrlValues mt) columns k)
  /\ (forall mt : SqlDriverMessageMap,
        exists wc log,
          project columns (MsgSqlDriverMessageMap mt) = Some (MsgContextSimple wc, log)
          /\ forall k, Data wc !! k
                       = selected (MsgSqlDriverMessageMap mt) (projected columns) k).
Proof.
  intros Hplain. split; intros mt; unfold project.
  - destruct (projectColumns_url_plain mt columns Hplain) as (wc & -> & Hdata).
    by exists wc.
  - destruct (projectColumns_sql_plain mt columns Hplain) as (wc & log & -> & Hdata).
    by exists wc, log.
Qed.

Lemma NewValue_panics (raw : Raw) : NewValue raw = None <-> raw = RawTimePtr None.
Proof.
  split; [|by intros ->].
  destruct raw as [| | | | | | | | | | |[t|]| | |]; cbn; intros Heq; done.
Qed.

Lemma starSql_panics (row : list (string * Raw)) : forall wc : ContextSimple,
  starSql row wc = None <-> Exists (fun kv => kv.2 = RawTimePtr None) row.
Proof.
  unfold starSql.
  assert (Hnone : forall row : list (string * Raw),
            foldl (fun acc kv =>
                     match acc with
                     | Some wc =>
                         match NewValue kv.2 with
                         | Some v => Some (Put (Column_As kv.1) MsgNil (Some v) wc)
                         | None => None
                         end
                     | None => None
                     end) None row = None).
  { intros row'. induction row' as [|kv row' IH]; [done | apply IH]. }
  induction row as [|kv row IH]; intros wc; cbn [foldl].
  - split; [done|]. intros Hex. inversion Hex.
  - rewrite Exists_cons. destruct (NewValue kv.2) as [v|] eqn:Hv.
    + rewrite IH. split; [tauto|]. intros [Hkv|Hex]; [|done].
      apply NewValue_panics in Hkv. congruence.
    + rewrite Hnone. split; [|done]. intros _. left. by apply NewValue_panics.
Qed.

Lemma starSql_Data (row : list (string * Raw)) :
  (forall k, ColumnKey (Column_As k) = k) ->
  forall wc wc' : ContextSimple,
    NoDup row.*1 ->
    starSql row wc = Some wc' ->
    Data wc' = list_to_map (prod_map id NewValue <$> row) ∪ Data wc.
Proof.
  intros Hkey. unfold starSql.
  induction row as [|[k raw] row IH]; intros wc wc' Hnodup; cbn [foldl fst snd].
  - intros [= <-]. cbn. by rewrite (left_id_L ∅ (∪)).
  - cbn in Hnodup. apply NoDup_cons in Hnodup as [Hk Hnodup].
    destruct (NewValue raw) as [v|] eqn:Hv.
    + intros Hrec. apply IH in Hrec; [|done]. rewrite Hrec. cbn [Put Data].
      rewrite Hkey. cbn [fmap list_fmap prod_map list_to_map fst snd id].
      rewrite Hv, list_to_map_cons, <- insert_union_l. symmetry. apply insert_union_r.
      apply not_elem_of_list_to_map_1. rewrite <- list_fmap_compose.
      by replace (fst ∘ prod_map id NewValue) with (fst : string * Raw -> string).
    + intros Hrec. exfalso. revert Hrec.
      assert (Hnone : forall row' : list (string * Raw),
                foldl (fun acc kv =>
                         match acc with
                         | Some wc =>
                             match NewValue kv.2 with
                             | Some v => Some (Put (Column_As kv.1) MsgNil (Some v) wc)
                             | None => None
                             end
                         | None => None
                         end) None row' = None).
      { intros row'. induction row' as [|kv row' IH']; [done | apply IH']. }
      by rewrite Hnone.
Qed.

Lemma starUrl_Data (row : list (string * IValue)) :
  (forall k, ColumnKey (Column_As k) = k) ->
  forall wc : ContextSimple,
    NoDup row.*1 -> Data (starUrl row wc) = list_to_map row ∪ Data wc.
Proof.
  intros Hkey. unfold starUrl.
  induction row as [|[k v] row IH]; intros wc Hnodup; cbn [foldl].
  - cbn. by rewrite (left_id_L ∅ (∪)).
  - cbn in Hnodup. apply NoDup_cons in Hnodup as [Hk Hnodup].
    rewrite IH by done. cbn [Put Data fst snd]. rewrite Hkey.
    rewrite list_to_map_cons, <- insert_union_l. symmetry. apply insert_union_r.
    by apply not_elem_of_list_to_map_1.
Qed.

Lemma ContextSimple_eq (wc : ContextSimple) (d : gmap string IValue) :
  Data wc = d -> wc = {| Data := d |}.
Proof. destruct wc. cbn. by intros ->. Qed.

(** X22: provided [Key()] of a column built from a name alone is that
    name, an unguarded star column projects a [ContextUrlValues] to its own
    row, a [SqlDriverMessageMap] that holds no nil [*time.Time] to its row
    with every value passed through [NewValue], and, when the star column
    has [ParentIndex < 0], a [SqlDriverMessageMap] to the empty context. *)
Theorem star_projection_copies_row (col : Column Node) :
  (forall k : string, ColumnKey (Column_As k) = k) ->
  Star col = true ->
  Guard col = None ->
  (forall mt : ContextUrlValues,
     project [col] (MsgContextUrlValues mt)
     = Some (MsgContextSimple {| Data := cuv_Row mt |}, []))
  /\ (forall mt : SqlDriverMessageMap,
        0 <= ParentIndex col ->
        ~ holds_nil_time (Row mt) ->
        project [col] (MsgSqlDriverMessageMap mt)
        = Some (MsgContextSimple {| Data := NewValue <$> Row mt |}, []))
  /\ (forall mt : SqlDriverMessageMap,
        ParentIndex col < 0 ->
        project [col] (MsgSqlDriverMessageMap mt)
        = Some (MsgContextSimple NewContextSimple, [])).
Proof.
  intros Hkey Hstar Hguard. split; [|split].
  - intros mt. unfold project, projectColumns. cbn [foldl].
    unfold projectColumnUrl, writeColumnUrl, guardFilters. rewrite Hguard, Hstar.
    do 2 f_equal. f_equal. apply ContextSimple_eq.
    rewrite starUrl_Data by (done || apply NoDup_fst_map_to_list).
    cbn. rewrite (right_id_L ∅ (∪)). apply list_to_map_to_list.
  - intros mt Hpos Hnil. unfold project, projectColumns. cbn [foldl].
    unfold projectColumnSql, writeColumnSql, guardFilters. rewrite Hguard, Hstar.
    destruct (Z.ltb_spec (ParentIndex col) 0); [lia|].
    destruct (starSql (map_to_list (Row mt)) NewContextSimple) as [wc|] eqn:Hstar_run.
    + do 2 f_equal. f_equal. apply ContextSimple_eq.
      rewrite (starSql_Data _ Hkey _ _ (NoDup_fst_map_to_list _) Hstar_run).
      cbn. rewrite (right_id_L ∅ (∪)). rewrite list_to_map_fmap.
      by rewrite list_to_map_to_list.
    + exfalso. apply starSql_panics in Hstar_run. apply Exists_exists in Hstar_run.
      destruct Hstar_run as ([k raw] & Hin & Hraw). cbn in Hraw. subst raw.
      apply Hnil. exists k. by apply elem_of_map_to_list.
  - intros mt Hneg. unfold project, projectColumns. cbn [foldl].
    by rewrite projectColumnSql_skip.
Qed.

(** X23: the projection never panics on a [ContextUrlValues] or on a
    message of another type; on a [SqlDriverMessageMap] it panics only if
    the row holds a nil [*time.Time] and a star column with
    [ParentIndex >= 0] is among the columns, and it does panic when such a
    column, unguarded, comes first; the handler panics exactly when the
    projection does. *)
Theorem Projection_panics_only_on_nil_time_under_star (columns : list (Column Node)) :
  (forall mt : ContextUrlValues, is_Some (project columns (MsgContextUrlValues mt)))
  /\ (forall msg : Message, unknown_body msg -> is_Some (project columns msg))
  /\ (forall mt : SqlDriverMessageMap,
        project columns (MsgSqlDriverMessageMap mt) = None ->
        holds_nil_time (Row mt) /\ Exists expands columns)
  /\ (forall (mt : SqlDriverMessageMap) (col : Column Node),
        expands col -> Guard col = None -> holds_nil_time (Row mt) ->
        project (col :: columns) (MsgSqlDriverMessageMap mt) = None)
  /\ (forall (sql : SqlSelect Node) (task : TaskBase) (arm : Arm) (msg : Message),
        projectionEvaluator sql task arm msg = Panicked <-> project (Columns sql) msg = None).
Proof.
  split; [|split; [|split; [|split]]].
  - intros mt. unfold project.
    assert (Hsome : is_Some (projectColumns projectColumnUrl mt columns (NewContextSimple, []))).
    { induction columns as [|col columns IH] using rev_ind; [by eexists|].
      rewrite projectColumns_snoc. destruct IH as [[wc log] ->].
      unfold projectColumnUrl, writeColumnUrl.
      destruct (guardFilters _ col) as [[] logged]; [by eexists|].
      destruct (Star col); [by eexists|].
      destruct (Eval _ (Expr col)) as [v []]; by eexists. }
    destruct Hsome as [[wc log] ->]. by eexists.
  - intros msg Hmsg. destruct msg; try done; by eexists.
  - intros mt. unfold project.
    destruct (projectColumns projectColumnSql mt columns (NewContextSimple, []))
      as [[wc log]|] eqn:Hrun; [done|]. intros _.
    induction columns as [|col columns IH] using rev_ind; [done|].
    rewrite projectColumns_snoc in Hrun.
    destruct (projectColumns projectColumnSql mt columns (NewContextSimple, []))
      as [[wc log]|] eqn:Hpre.
    + unfold projectColumnSql, writeColumnSql in Hrun.
      destruct (Z.ltb_spec (ParentIndex col) 0) as [|Hpos]; [done|].
      destruct (guardFilters _ col) as [[] logged]; [done|].
      destruct (Star col) eqn:Hstar.
      * destruct (starSql _ wc) as [wc'|] eqn:Hstar_run; [done|].
        apply starSql_panics in Hstar_run. apply Exists_exists in Hstar_run.
        destruct Hstar_run as ([k raw] & Hin & Hraw). cbn in Hraw. subst raw.
        split; [exists k; by apply elem_of_map_to_list|].
        apply Exists_app. right. by constructor.
      * destruct (Eval _ (Expr col)) as [v []]; [by destruct v | done].
    + destruct (IH eq_refl) as [Hnil Hex]. split; [done|].
      apply Exists_app. by left.
  - intros mt col [Hstar Hpos] Hguard (k & Hk). unfold project, projectColumns. cbn [foldl].
    unfold projectColumnSql at 2. unfold writeColumnSql, guardFilters. rewrite Hguard, Hstar.
    destruct (Z.ltb_spec (ParentIndex col) 0); [lia|].
    assert (Hpanic : starSql (map_to_list (Row mt)) NewContextSimple = None).
    { apply starSql_panics, Exists_exists. exists (k, RawTimePtr None).
      split; [by apply elem_of_map_to_list | done]. }
    rewrite Hpanic. by rewrite projectColumns_panicked.
  - intros sql task arm msg. unfold projectionEvaluator.
    destruct (project (Columns sql) msg) as [[outMsg log]|]; [|done].
    split; [|done]. destruct arm.
    + by destruct (can_send _).
    + by destruct (sigCh task).
Qed.

End ProjectionWrites.

(** Scenario 1 without the guard: the columns [a] and [b] over the row
    [{a: 1, b: 2}]. *)
Lemma plain_projection_selects_witness :
  exists wc,
    @project scenario.host scenario.collaborators scenario.columns_a_b
      (MsgContextUrlValues scenario.url_a1_b2) = Some (MsgContextSimple wc, [])
    /\ forall k, Data wc !! k
                 = @selected scenario.host scenario.collaborators
                     (MsgContextUrlValues scenario.url_a1_b2) scenario.columns_a_b k.
Proof.
  destruct (@plain_projection_selects scenario.host scenario.collaborators
              scenario.columns_a_b) as [Hurl _].
  - repeat constructor.
  - exact (Hurl scenario.url_a1_b2).
Defined.

(** [SELECT *] over the row [{a: 1, b: 2}]. *)
Lemma star_projection_copies_row_witness :
  @project scenario.host scenario.collaborators [scenario.star_column]
    (MsgContextUrlValues scenario.url_a1_b2)
  = Some (MsgContextSimple {| Data := cuv_Row scenario.url_a1_b2 |}, []).
Proof.
  destruct (@star_projection_copies_row scenario.host scenario.collaborators
              scenario.star_column) as [Hurl _].
  - intros k. reflexivity.
  - reflexivity.
  - reflexivity.
  - exact (Hurl scenario.url_a1_b2).
Defined.

(** ** value/value.go: [NewValue] *)

(** X24: [NewValue] returns a [Value] it is given unchanged, so applying it
    to its own result changes nothing; it panics exactly on a nil
    [*time.Time]; it returns an [ErrorValue] only when given one; its result
    has type [NilType] only for [nil], for a given [NilValue] and for a type
    it does not know; every other input gets the type of its case, an [int]
    and an [int32] becoming the [IntValue] of the same [int64]. *)
Theorem NewValue_passes_values_through `{Host} :
  (forall v : Value, NewValue (RawValue v) = Some v)
  /\ (forall (raw : Raw) (v : Value), NewValue raw = Some v -> NewValue (RawValue v) = NewValue raw)
  /\ (forall raw : Raw, NewValue raw = None <-> raw = RawTimePtr None)
  /\ (forall (raw : Raw) (v : Value), NewValue raw = Some v -> Err v = true -> raw = RawValue v)
  /\ (forall (raw : Raw) (v : Value),
        NewValue raw = Some v -> Type_ v = NilType ->
        raw = RawNil \/ raw = RawValue NilValue \/ exists a, raw = RawOther a)
  /\ (forall i : Z, NewValue (RawInt i) = Some (IntValue i)
                    /\ NewValue (RawInt32 i) = Some (IntValue i)
                    /\ NewValue (RawInt64 i) = Some (IntValue i))
  /\ (forall (raw : Raw) (v : Value),
        NewValue raw = Some v ->
        match raw with
        | RawNil | RawOther _ => Type_ v = NilType
        | RawValue val => v = val
        | RawFloat64 _ | RawFloat32 _ => Type_ v = NumberType
        | RawInt _ | RawInt32 _ | RawInt64 _ => Type_ v = IntType
        | RawString _ => Type_ v = StringType
        | RawStrings _ => Type_ v = StringsType
        | RawBool _ => Type_ v = BoolType
        | RawTime _ | RawTimePtr _ => Type_ v = TimeType
        | RawMapInt64 _ | RawMapInt _ => Type_ v = MapIntType
        end).
Proof.
  split; [done|]. split; [by intros raw v ->|]. split.
  { intros raw. split; [|by intros ->].
    destruct raw as [| | | | | | | | | | |[t|]| | |]; cbn; intros Heq; done. }
  split.
  { intros raw v Hnew Herr.
    destruct raw as [| | | | | | | | | | |[t|]| | |]; cbn in Hnew;
      try (injection Hnew as <-); done. }
  split.
  { intros raw v Hnew Htype.
    destruct raw as [|val| | | | | | | | | |[t|]| | |a]; cbn in Hnew;
      try (injection Hnew as <-); try done; auto.
    - right. left. destruct val; try done.
    - right. right. by exists a. }
  split; [done|].
  intros raw v Hnew.
  destruct raw as [| | | | | | | | | | |[t|]| | |]; cbn in Hnew;
    try (injection Hnew as <-); done.
Qed.
